(** * DSA knowledge graph: search engine and tutor engine

    A shallow embedding of [src/search_engine.py] and [src/tutor_engine.py]
    together with the parts of Python's [str], [dict], [difflib] and [heapq]
    they call, followed by the properties of the search strategies and of
    the concept selector.

    Conventions of the embedding.
    - A Python [str] is a list of characters; a character is a code point
      below 256 (Latin-1), for which [str.lower] and [str.isspace] are
      written out in full.  [str.lower] keeps the length on this range.
    - Python integers are [Z]; indices into strings are [Z] as well.
    - A Python [float] score is an exact rational ([Q]): the scores are
      quotients [2*M/T] of small integers and are only ever compared.
    - A [dict] is an association list in insertion order with unique keys.
    - A record of the graph is a heap object: an address together with its
      fields; [is] compares addresses.
    - The methods of the search engine only read the engine.  Module
      [SearchEngine] has them as functions of the engine; module
      [Stateful] has them, and [__init__], as programs that thread the
      engine through, and the two are shown to agree. *)

From Stdlib Require Import List ZArith QArith Ascii String Bool Arith Lia.
From Stdlib Require Import Sorting.Sorted Sorting.Permutation.
Import ListNotations.

Open Scope Z_scope.

(* ================================================================== *)
(** * Python strings *)
(* ================================================================== *)

Module Text.

Definition str := list ascii.

Definition lit (s : string) : str := list_ascii_of_string s.

Definition len (t : str) : Z := Z.of_nat (List.length t).

Definition code (c : ascii) : N := N_of_ascii c.

Definition char_eqb (c d : ascii) : bool := Ascii.eqb c d.

Fixpoint str_eqb (s t : str) : bool :=
  match s, t with
  | [], [] => true
  | c :: s', d :: t' => char_eqb c d && str_eqb s' t'
  | _, _ => false
  end.

(** [c.isspace()] on code points below 256. *)
Definition isspace (c : ascii) : bool :=
  let n := code c in
  ((9 <=? n) && (n <=? 13) || (28 <=? n) && (n <=? 32)
   || (n =? 133) || (n =? 160))%N.

(** [c.lower()] on code points below 256: A-Z and the Latin-1 capitals
    (0xC0-0xDE without the multiplication sign 0xD7) move up by 32. *)
Definition lower_char (c : ascii) : ascii :=
  let n := code c in
  if ((65 <=? n) && (n <=? 90)
      || (192 <=? n) && (n <=? 222) && negb (n =? 215))%N
  then ascii_of_N (n + 32) else c.

Definition lower (t : str) : str := map lower_char t.

Fixpoint lstrip (t : str) : str :=
  match t with
  | c :: t' => if isspace c then lstrip t' else t
  | [] => []
  end.

Definition rstrip (t : str) : str := rev (lstrip (rev t)).

Definition strip (t : str) : str := rstrip (lstrip t).

(** [t.startswith(p)] *)
Fixpoint startswith (t p : str) {struct p} : bool :=
  match p, t with
  | [], _ => true
  | c :: p', d :: t' => char_eqb c d && startswith t' p'
  | _ :: _, [] => false
  end.

(** [q in t] *)
Fixpoint str_in (q t : str) : bool :=
  startswith t q ||
  match t with
  | [] => false
  | _ :: t' => str_in q t'
  end.

(** [t.find(q)], counted from [i]: lowest index of an occurrence, -1 if
    there is none. *)
Fixpoint find_from (t q : str) (i : Z) : Z :=
  if startswith t q then i
  else match t with
       | [] => -1
       | _ :: t' => find_from t' q (i + 1)
       end.

Definition find (t q : str) : Z := find_from t q 0.

(** [t.replace(old, new)] for a non-empty [old]: occurrences are replaced
    from left to right without overlap.  [skip] counts the characters of
    the occurrence just replaced that are still to be dropped. *)
Fixpoint replace_from (t old new : str) (skip : nat) : str :=
  match t with
  | [] => []
  | c :: t' =>
      match skip with
      | S k => replace_from t' old new k
      | O =>
          if startswith t old
          then new ++ replace_from t' old new (Nat.pred (List.length old))
          else c :: replace_from t' old new 0
      end
  end.

Definition replace (t old new : str) : str := replace_from t old new 0.

(** Slice bounds as Python resolves them: a negative index counts from the
    end, and both ends are clamped to the string. *)
Definition slice_index (n i : Z) : Z :=
  if i <? 0 then Z.max 0 (i + n) else Z.min i n.

(** [t[start:stop]] *)
Definition slice (t : str) (start stop : Z) : str :=
  let s := slice_index (len t) start in
  let e := slice_index (len t) stop in
  firstn (Z.to_nat (e - s)) (skipn (Z.to_nat s) t).

(** [t[start:]] and [t[:stop]] *)
Definition slice_from (t : str) (start : Z) : str := slice t start (len t).
Definition slice_to (t : str) (stop : Z) : str := slice t 0 stop.

(** Order of [str] values: lexicographic on code points. *)
Fixpoint str_compare (s t : str) : comparison :=
  match s, t with
  | [], [] => Eq
  | [], _ :: _ => Lt
  | _ :: _, [] => Gt
  | c :: s', d :: t' =>
      match N.compare (code c) (code d) with
      | Eq => str_compare s' t'
      | o => o
      end
  end.

(** [sep.join(parts)] *)
Fixpoint join (sep : str) (parts : list str) : str :=
  match parts with
  | [] => []
  | [p] => p
  | p :: rest => p ++ sep ++ join sep rest
  end.

End Text.

Import Text.

(* ================================================================== *)
(** * Exceptions and ordered dictionaries *)
(* ================================================================== *)

Module Py.

Inductive exn : Type :=
| ValueError
| KeyError
| FileNotFoundError.

(** Outcome of a call that may raise. *)
Inductive result (A : Type) : Type :=
| Ok (x : A)
| Raise (e : exn).
Arguments Ok {A} x.
Arguments Raise {A} e.

Definition bind {A B} (r : result A) (k : A -> result B) : result B :=
  match r with
  | Ok x => k x
  | Raise e => Raise e
  end.

(** A [dict] with [str] keys, in insertion order. *)
Definition dict (V : Type) := list (str * V).

Fixpoint dict_get {V} (d : dict V) (k : str) : option V :=
  match d with
  | [] => None
  | (k', v) :: d' => if str_eqb k' k then Some v else dict_get d' k
  end.

(** [d[k] = v]: an existing key keeps its place, a new key goes last. *)
Fixpoint dict_set {V} (d : dict V) (k : str) (v : V) : dict V :=
  match d with
  | [] => [(k, v)]
  | (k', v') :: d' =>
      if str_eqb k' k then (k', v) :: d' else (k', v') :: dict_set d' k v
  end.

Definition dict_keys {V} (d : dict V) : list str := map fst d.

Definition dict_has {V} (d : dict V) (k : str) : bool :=
  match dict_get d k with Some _ => true | None => false end.

(** [sorted(l, key=..., reverse=True)]: stable, so equal elements keep
    the order of [l]. *)
Fixpoint insert_desc {A} (cmp : A -> A -> comparison) (x : A) (l : list A)
  : list A :=
  match l with
  | [] => [x]
  | y :: l' =>
      match cmp x y with
      | Gt => x :: l
      | _ => y :: insert_desc cmp x l'
      end
  end.

Definition sorted_desc {A} (cmp : A -> A -> comparison) (l : list A)
  : list A :=
  fold_left (fun acc x => insert_desc cmp x acc) l [].

End Py.

Import Py.

(* ================================================================== *)
(** * difflib: SequenceMatcher and get_close_matches *)
(* ================================================================== *)

Module Difflib.

(** The part of CPython's [Lib/difflib.py] behind [ratio] and
    [get_close_matches], for sequences that are strings.  Names follow
    that file. *)

(** A matching block [(i, j, k)]: [a[i:i+k] == b[j:j+k]]. *)
Definition Match := (Z * Z * Z)%type.

Definition at_ (s : str) (i : Z) : ascii := nth (Z.to_nat i) s zero.

Fixpoint indices_from (elt : ascii) (s : str) (j : Z) : list Z :=
  match s with
  | [] => []
  | c :: s' =>
      if char_eqb c elt then j :: indices_from elt s' (j + 1)
      else indices_from elt s' (j + 1)
  end.

Definition j2len_get (m : list (Z * Z)) (j : Z) : Z :=
  match List.find (fun p => fst p =? j) m with
  | Some p => snd p
  | None => 0
  end.

(** [_calculate_ratio(matches, length)] *)
Definition calculate_ratio (matches length : Z) : Q :=
  if length =? 0 then 1%Q else Qmake (2 * matches) (Z.to_pos length).

Section SequenceMatcher.

(** [SequenceMatcher(None, a, b)]: no junk predicate, [autojunk] on. *)
Variables a b : str.

(** [__chain_b]: with 200 or more elements in [b], an element that
    occurs more than [n // 100 + 1] times is popular and is dropped
    from [b2j]. *)
Definition popular (elt : ascii) : bool :=
  let n := len b in
  (200 <=? n) &&
  (n / 100 + 1 <? Z.of_nat (List.length (indices_from elt b 0))).

Definition b2j (elt : ascii) : list Z :=
  if popular elt then [] else indices_from elt b 0.

(** [isjunk] is [None]: the junk set is empty. *)
Definition isbjunk (elt : ascii) : bool := false.

(** The loop over [j] in [b2j[a[i]]] of [find_longest_match]. *)
Fixpoint flm_row (i blo bhi : Z) (js : list Z)
         (j2len newj2len : list (Z * Z)) (best : Match)
  : list (Z * Z) * Match :=
  match js with
  | [] => (newj2len, best)
  | j :: js' =>
      if j <? blo then flm_row i blo bhi js' j2len newj2len best
      else if bhi <=? j then (newj2len, best)
      else
        let k := j2len_get j2len (j - 1) + 1 in
        let '(_, _, bestsize) := best in
        flm_row i blo bhi js' j2len ((j, k) :: newj2len)
                (if bestsize <? k then (i - k + 1, j - k + 1, k) else best)
  end.

(** The loop over [i] in [range(alo, ahi)], [n] rows from row [i]. *)
Fixpoint flm_rows (n : nat) (i blo bhi : Z) (j2len : list (Z * Z))
         (best : Match) : Match :=
  match n with
  | O => best
  | S n' =>
      let '(newj2len, best') :=
        flm_row i blo bhi (b2j (at_ a i)) j2len [] best in
      flm_rows n' (i + 1) blo bhi newj2len best'
  end.

(** The [while] loops that extend the best block at its low and high
    end, over elements whose junk status is [junk]. *)
Fixpoint extend_low (junk : bool) (fuel : nat) (alo blo : Z) (m : Match)
  : Match :=
  match fuel with
  | O => m
  | S f =>
      let '(besti, bestj, bestsize) := m in
      if (alo <? besti) && (blo <? bestj)
         && Bool.eqb (isbjunk (at_ b (bestj - 1))) junk
         && char_eqb (at_ a (besti - 1)) (at_ b (bestj - 1))
      then extend_low junk f alo blo (besti - 1, bestj - 1, bestsize + 1)
      else m
  end.

Fixpoint extend_high (junk : bool) (fuel : nat) (ahi bhi : Z) (m : Match)
  : Match :=
  match fuel with
  | O => m
  | S f =>
      let '(besti, bestj, bestsize) := m in
      if (besti + bestsize <? ahi) && (bestj + bestsize <? bhi)
         && Bool.eqb (isbjunk (at_ b (bestj + bestsize))) junk
         && char_eqb (at_ a (besti + bestsize)) (at_ b (bestj + bestsize))
      then extend_high junk f ahi bhi (besti, bestj, bestsize + 1)
      else m
  end.

(** Each low loop steps [besti] down towards [alo], each high loop
    steps [besti + bestsize] up towards [ahi]: the distance left is
    fuel enough. *)
Definition low_all (junk : bool) (alo blo : Z) (m : Match) : Match :=
  let '(besti, _, _) := m in
  extend_low junk (Z.to_nat (besti - alo)) alo blo m.

Definition high_all (junk : bool) (ahi bhi : Z) (m : Match) : Match :=
  let '(besti, _, bestsize) := m in
  extend_high junk (Z.to_nat (ahi - (besti + bestsize))) ahi bhi m.

Definition find_longest_match (alo ahi blo bhi : Z) : Match :=
  let m := flm_rows (Z.to_nat (ahi - alo)) alo blo bhi [] (alo, blo, 0) in
  let m := low_all false alo blo m in
  let m := high_all false ahi bhi m in
  let m := low_all true alo blo m in
  high_all true ahi bhi m.

(** The work list of [get_matching_blocks]; the head of [queue] is the
    end of the Python list, where [pop] takes and [append] adds.
    [None] when [fuel] iterations do not empty the queue. *)
Fixpoint blocks_loop (fuel : nat) (queue : list (Z * Z * Z * Z))
         (matching_blocks : list Match) : option (list Match) :=
  match queue with
  | [] => Some matching_blocks
  | (alo, ahi, blo, bhi) :: queue' =>
      match fuel with
      | O => None
      | S f =>
          let '(i, j, k) := find_longest_match alo ahi blo bhi in
          if k =? 0 then blocks_loop f queue' matching_blocks
          else
            let q1 := if (alo <? i) && (blo <? j)
                      then (alo, i, blo, j) :: queue' else queue' in
            let q2 := if (i + k <? ahi) && (j + k <? bhi)
                      then (i + k, ahi, j + k, bhi) :: q1 else q1 in
            blocks_loop f q2 (matching_blocks ++ [(i, j, k)])
      end
  end.

(** The blocks as found by the work list.  Sorting them, merging
    adjacent ones and appending the [(la, lb, 0)] sentinel, as
    [get_matching_blocks] does next, leaves the sum of the sizes
    unchanged, and [ratio] reads nothing else. *)
Definition matching_blocks : list Match :=
  match blocks_loop (Z.to_nat (2 * len a + 1)) [(0, len a, 0, len b)] [] with
  | Some l => l
  | None => []
  end.

Definition ratio : Q :=
  let matches := fold_left (fun s (x : Match) => s + snd x) matching_blocks 0 in
  calculate_ratio matches (len a + len b).

(** [quick_ratio]: size of the multiset intersection of [a] and [b]. *)
Fixpoint quick_loop (s : str) (avail : list (ascii * Z)) (matches : Z) : Z :=
  match s with
  | [] => matches
  | elt :: s' =>
      let numb :=
        match List.find (fun p => char_eqb (fst p) elt) avail with
        | Some p => snd p
        | None => Z.of_nat (List.length (indices_from elt b 0))
        end in
      quick_loop s' ((elt, numb - 1) :: avail)
                 (if 0 <? numb then matches + 1 else matches)
  end.

Definition quick_ratio : Q :=
  calculate_ratio (quick_loop a [] 0) (len a + len b).

Definition real_quick_ratio : Q :=
  calculate_ratio (Z.min (len a) (len b)) (len a + len b).

End SequenceMatcher.

(** Order of the [(score, x)] tuples that [get_close_matches] ranks. *)
Definition scored_compare (x y : Q * str) : comparison :=
  match Qcompare (fst x) (fst y) with
  | Eq => str_compare (snd x) (snd y)
  | o => o
  end.

(** [heapq.nlargest(n, l)], which is [sorted(l, reverse=True)[:n]]. *)
Definition nlargest (n : Z) (l : list (Q * str)) : list (Q * str) :=
  firstn (Z.to_nat n) (sorted_desc scored_compare l).

(** The candidates of [get_close_matches]: [word] is the second sequence,
    each possibility [x] the first. *)
Fixpoint close_candidates (word : str) (possibilities : list str)
         (cutoff : Q) : list (Q * str) :=
  match possibilities with
  | [] => []
  | x :: rest =>
      if Qle_bool cutoff (real_quick_ratio x word)
         && Qle_bool cutoff (quick_ratio x word)
         && Qle_bool cutoff (ratio x word)
      then (ratio x word, x) :: close_candidates word rest cutoff
      else close_candidates word rest cutoff
  end.

Definition get_close_matches (word : str) (possibilities : list str)
           (n : Z) (cutoff : Q) : result (list str) :=
  if negb (0 <? n) then Raise ValueError
  else if negb (Qle_bool 0 cutoff && Qle_bool cutoff 1) then Raise ValueError
  else Ok (map snd (nlargest n (close_candidates word possibilities cutoff))).

End Difflib.

(* ================================================================== *)
(** * search_engine.py *)
(* ================================================================== *)

Module SearchEngine.

(** ** Records of the graph *)

(** The keys of a concept record that the engines read; each may be
    missing from the JSON object.  [f_others] lists the remaining keys of
    the object ([id], [principle], ...), which only count for whether the
    dictionary is empty. *)
Record Fields : Type := {
  f_name : option str;
  f_type : option str;
  f_category : option str;
  f_basic_ops : option (list str);
  f_use_cases : option (list str);
  f_relations : option (list str);
  f_description : option str;
  f_others : list str
}.

Definition is_some {A} (o : option A) : bool :=
  match o with Some _ => true | None => false end.

(** Truth value of the record as a [dict]: false exactly for [{}]. *)
Definition nonempty (f : Fields) : bool :=
  is_some (f_name f) || is_some (f_type f) || is_some (f_category f)
  || is_some (f_basic_ops f) || is_some (f_use_cases f)
  || is_some (f_relations f) || is_some (f_description f)
  || negb (match f_others f with [] => true | _ => false end).

(** [o.get(key, default)] on an optional field. *)
Definition get_or {A} (o : option A) (default : A) : A :=
  match o with Some x => x | None => default end.

(** A record as a heap object; [is] is equality of addresses. *)
Record Obj : Type := { addr : nat; fields : Fields }.

Definition is_ (x y : Obj) : bool := Nat.eqb (addr x) (addr y).

(** The JSON file: the pairs of the top-level object, in file order. *)
Definition document := list (str * Fields).

(** [json.load]: every value of the file becomes a fresh object, at the
    next free address; a repeated key keeps its first place and its last
    value.  Returns the dictionary and the next free address. *)
Fixpoint load_pairs (pairs : document) (d : dict Obj) (next : nat)
  : dict Obj * nat :=
  match pairs with
  | [] => (d, next)
  | (k, f) :: rest =>
      load_pairs rest (dict_set d k {| addr := next; fields := f |}) (S next)
  end.

Definition json_load (doc : document) (next : nat) : dict Obj * nat :=
  load_pairs doc [] next.

(** ** Helpers *)

(** The [while "__" in t] loop; every round shortens [t], so [fuel] of
    the length of [t] is enough (see [collapse_loop_done]). *)
Fixpoint collapse_loop (fuel : nat) (t : str) : str :=
  match fuel with
  | O => t
  | S f =>
      if str_in (lit "__") t
      then collapse_loop f (replace t (lit "__") (lit "_"))
      else t
  end.

Definition normalize_key (text : str) : str :=
  let t := lower (strip text) in
  let t := fold_left (fun t ch => replace t ch (lit "_"))
                     [lit " "; lit "-"; lit "/"] t in
  collapse_loop (List.length t) t.

Definition is_empty (t : str) : bool :=
  match t with [] => true | _ => false end.

Definition similarity (a b : str) : Q :=
  if is_empty a || is_empty b then 0%Q
  else Difflib.ratio (lower a) (lower b).

Definition snippet (text q : str) (w : Z) : str :=
  if is_empty text then []
  else
    let idx := find (lower text) (lower q) in
    if idx =? -1 then slice_to text (w * 2) ++ lit "..."
    else
      let start := Z.max 0 (idx - w) in
      let end_ := Z.min (len text) (idx + len q + w) in
      let s := slice text start end_ in
      let s := if 0 <? start then lit "..." ++ s else s in
      if end_ <? len text then s ++ lit "..." else s.

(** ** The engine *)

Record KnowledgeGraphSearch : Type := {
  graph : dict Obj;
  concept_keys : list str;
  concept_names : list str
}.

(** [KnowledgeGraphSearch(graph_file)]; [file] is the content of the
    file, [None] when it does not exist. *)
Definition init (file : option document) (next : nat)
  : result (KnowledgeGraphSearch * nat) :=
  match file with
  | None => Raise FileNotFoundError
  | Some doc =>
      let '(g, next') := json_load doc next in
      Ok ({| graph := g;
             concept_keys := dict_keys g;
             concept_names :=
               map (fun kv => get_or (f_name (fields (snd kv))) (fst kv)) g |},
          next')
  end.

Definition stats (self : KnowledgeGraphSearch) : Z * Z :=
  (Z.of_nat (List.length (graph self)),
   fold_left (fun s kv =>
                s + Z.of_nat (List.length
                                (get_or (f_relations (fields (snd kv))) [])))
             (graph self) 0).

Definition exact_search (self : KnowledgeGraphSearch) (q : str)
  : option Obj :=
  dict_get (graph self) (normalize_key q).

Record FuzzyHit : Type := {
  fz_name : str;
  fz_type : str;
  match_score : Q
}.

(** The loop [for k in close] of [fuzzy_search]; [self.graph[k]] raises
    [KeyError] on a missing key. *)
Fixpoint fuzzy_loop (self : KnowledgeGraphSearch) (norm : str)
         (close : list str) (res : dict FuzzyHit) : result (dict FuzzyHit) :=
  match close with
  | [] => Ok res
  | k :: close' =>
      match dict_get (graph self) k with
      | None => Raise KeyError
      | Some d =>
          fuzzy_loop self norm close'
            (dict_set res k
               {| fz_name := get_or (f_name (fields d)) k;
                  fz_type := get_or (f_type (fields d)) (lit "unknown");
                  match_score := similarity norm k |})
      end
  end.

Definition fuzzy_search (self : KnowledgeGraphSearch) (q : str)
           (limit : Z) (cutoff : Q) : result (dict FuzzyHit) :=
  let norm := normalize_key q in
  bind (Difflib.get_close_matches norm (concept_keys self) limit cutoff)
       (fun close => fuzzy_loop self norm close []).

Record RelationHit : Type := {
  rl_name : str;
  rl_category : str
}.

Fixpoint relation_loop (r : str) (items : dict Obj) (out : dict RelationHit)
  : dict RelationHit :=
  match items with
  | [] => out
  | (k, v) :: items' =>
      let rels := map lower (get_or (f_relations (fields v)) []) in
      relation_loop r items'
        (if existsb (str_eqb r) rels
         then dict_set out k
                {| rl_name := get_or (f_name (fields v)) k;
                   rl_category :=
                     get_or (f_category (fields v)) (lit "unknown") |}
         else out)
  end.

Definition relation_search (self : KnowledgeGraphSearch) (rel : str)
  : dict RelationHit :=
  relation_loop (lower rel) (graph self) [].

Record KeywordHit : Type := {
  kw_name : str;
  kw_snippet : str
}.

Fixpoint keyword_loop (q ql : str) (items : dict Obj) (res : dict KeywordHit)
  : dict KeywordHit :=
  match items with
  | [] => res
  | (k, v) :: items' =>
      let name := get_or (f_name (fields v)) [] in
      let desc := get_or (f_description (fields v)) [] in
      keyword_loop q ql items'
        (if str_in ql (lower (name ++ desc))
         then dict_set res k
                {| kw_name := name; kw_snippet := snippet desc q 60 |}
         else res)
  end.

Definition keyword_search (self : KnowledgeGraphSearch) (q : str)
  : dict KeywordHit :=
  keyword_loop q (lower q) (graph self) [].

Record Composite : Type := {
  exact : option Obj;
  fuzzy : dict FuzzyHit;
  related : dict RelationHit;
  keyword : dict KeywordHit
}.

Definition comprehensive_search (self : KnowledgeGraphSearch) (q : str)
  : result Composite :=
  let e := exact_search self q in
  bind (fuzzy_search self q 5 (6 # 10)) (fun fz =>
  Ok {| exact := e;
        fuzzy := fz;
        related := relation_search self q;
        keyword := keyword_search self q |}).

End SearchEngine.

(* ================================================================== *)
(** * tutor_engine.py *)
(* ================================================================== *)

Module Tutor.

Import SearchEngine.

(** The values of [match_source]. *)
Inductive Source : Type :=
| exact_source
| fuzzy_source
| keyword_source
| none_source.

Definition source_name (s : Source) : str :=
  match s with
  | exact_source => lit "exact"
  | fuzzy_source => lit "fuzzy"
  | keyword_source => lit "keyword"
  | none_source => lit "none"
  end.

(** The dictionary that [explain_concept] and [answer] return. *)
Record Answer : Type := {
  query : str;
  matched_key : option str;
  match_source : Source;
  concept : option Obj;
  answer_markdown : str
}.

Record DsaTutorEngine : Type := {
  kg : dict Obj;
  engine : KnowledgeGraphSearch
}.

(** [DsaTutorEngine(graph_file)]: the tutor loads the file into [kg],
    then builds the search engine, which loads the file again. *)
Definition init (file : option document) (next : nat)
  : result (DsaTutorEngine * nat) :=
  match file with
  | None => Raise FileNotFoundError
  | Some doc =>
      let '(own, next1) := json_load doc next in
      bind (SearchEngine.init file next1) (fun en =>
      Ok ({| kg := own; engine := fst en |}, snd en))
  end.

Definition newline : str := ["010"%char].

Definition backticked (t : str) : str := lit "`" ++ t ++ lit "`".

Definition please_provide : str :=
  lit "Please provide a non-empty concept name.".

Definition please_type : str :=
  lit "Please type a question or a concept name.".

Definition not_found (query : str) : str :=
  lit "I couldn't find a clear match for **" ++ query
  ++ lit "** in the knowledge graph.".

Definition not_mapped : str :=
  lit "I couldn't map your question to a specific concept in the knowledge graph."
  ++ newline ++ newline
  ++ lit "Try asking something like:" ++ newline
  ++ lit "- `Explain stack`" ++ newline
  ++ lit "- `What is binary search?`" ++ newline
  ++ lit "- `Define adjacency list`" ++ newline.

Section Formatting.

(** [textwrap.fill(text, width)], of the standard library, is left
    open: no property below depends on how a description is wrapped. *)
Variable textwrap_fill : str -> Z -> str.

(** The literals hold two pictographs, given here by their UTF-8
    bytes. *)
Definition build_concept_explanation (c : Fields) : str :=
  if negb (nonempty c)
  then lit "I could not find any information for this concept."
  else
    let name := get_or (f_name c) (lit "Unknown") in
    let ctype := get_or (f_type c) (lit "N/A") in
    let category := get_or (f_category c) (lit "N/A") in
    let ops := get_or (f_basic_ops c) [] in
    let uses := get_or (f_use_cases c) [] in
    let rels := get_or (f_relations c) [] in
    let desc := strip (get_or (f_description c) []) in
    let lines :=
      [lit "### 📘 " ++ name;
       [];
       lit "- **Type:** " ++ backticked ctype;
       lit "- **Category:** " ++ backticked category]
      ++ (match ops with
          | [] => []
          | _ => [lit "- **Core operations:** "
                  ++ join (lit ", ") (map backticked ops)]
          end)
      ++ (match uses with
          | [] => []
          | _ => [lit "- **Typical use cases:** "
                  ++ join (lit ", ") (map backticked uses)]
          end)
      ++ (match rels with
          | [] => []
          | _ => [lit "- **Relations / tags:** "
                  ++ join (lit ", ") (map backticked rels)]
          end)
      ++ (if is_empty desc then []
          else [[]; lit "#### 📖 Explanation"; textwrap_fill desc 90]) in
    join newline lines.

Definition study_tip_for_category (category : str) : option str :=
  let c := lower category in
  if str_eqb c (lit "data_structure") then
    Some (lit "💡 **Study tip:** For data structures, practice implementing the core "
          ++ lit "operations (insert, delete, search) and analyse their time complexity.")
  else if str_eqb c (lit "algorithm") then
    Some (lit "💡 **Study tip:** For algorithms, make sure you understand both the "
          ++ lit "step-by-step procedure *and* the Big-O complexity. Trace small examples by hand.")
  else None.

(** Truth value of [results.get("exact")]: a record that is not [{}]. *)
Definition exact_truthy (results : Composite) : bool :=
  match exact results with
  | Some o => nonempty (fields o)
  | None => false
  end.

(** [fuzzy[k].get("match_score", 0.0)] *)
Definition score_of (fz : dict FuzzyHit) (k : str) : Q :=
  match dict_get fz k with
  | Some h => match_score h
  | None => 0%Q
  end.

(** [sorted(fuzzy.keys(), key=score, reverse=True)] *)
Definition by_score (fz : dict FuzzyHit) : list str :=
  sorted_desc (fun k1 k2 => Qcompare (score_of fz k1) (score_of fz k2))
              (dict_keys fz).

Definition pick_best_concept_from_results (self : DsaTutorEngine)
           (results : Composite) : option Obj :=
  (* 1) Exact match *)
  if exact_truthy results then exact results
  else
    (* 2) Fuzzy: pick best score *)
    match fuzzy results with
    | _ :: _ =>
        match by_score (fuzzy results) with
        | best_key :: _ => dict_get (kg self) best_key
        | [] => None
        end
    | [] =>
        (* 3) Keyword search: pick first hit *)
        match dict_keys (keyword results) with
        | first_key :: _ => dict_get (kg self) first_key
        | [] => None
        end
    end.

(** The loop that looks [concept] up in [self.kg] by identity. *)
Fixpoint find_matched_key (items : dict Obj) (c : Obj) : option str :=
  match items with
  | [] => None
  | (key, data) :: items' =>
      if is_ data c then Some key else find_matched_key items' c
  end.

(** [explain_concept] from the search results on: the selection, the
    matched key, the text and the source. *)
Definition explain_results (self : DsaTutorEngine) (query : str)
           (results : Composite) : Answer :=
  match pick_best_concept_from_results self results with
  | None =>
      {| query := query; matched_key := None; match_source := none_source;
         concept := None; answer_markdown := not_found query |}
  | Some c =>
      let mk := find_matched_key (kg self) c in
      let answer := build_concept_explanation (fields c) in
      let answer :=
        match study_tip_for_category (get_or (f_category (fields c)) []) with
        | Some tip => answer ++ newline ++ newline ++ tip
        | None => answer
        end in
      let src :=
        if match exact results with Some e => is_ e c | None => false end
        then exact_source
        else if match mk with
                | Some k => negb (is_empty k) && dict_has (fuzzy results) k
                | None => false
                end
             then fuzzy_source
             else keyword_source in
      {| query := query; matched_key := mk; match_source := src;
         concept := Some c; answer_markdown := answer |}
  end.

Definition explain_concept (self : DsaTutorEngine) (concept_name : str)
  : result Answer :=
  let query := strip concept_name in
  if is_empty query then
    Ok {| query := concept_name; matched_key := None;
          match_source := none_source; concept := None;
          answer_markdown := please_provide |}
  else
    bind (comprehensive_search (engine self) query) (fun results =>
    Ok (explain_results self query results)).

Definition prefixes : list str :=
  [lit "explain "; lit "what is "; lit "define "].

(** The generic case of [answer]: search [query_clean] itself. *)
Definition answer_generic (self : DsaTutorEngine) (query_clean : str)
  : result Answer :=
  bind (comprehensive_search (engine self) query_clean) (fun results =>
  match pick_best_concept_from_results self results with
  | None =>
      Ok {| query := query_clean; matched_key := None;
            match_source := none_source; concept := None;
            answer_markdown := not_mapped |}
  | Some c => explain_concept self (get_or (f_name (fields c)) [])
  end).

(** The loop over the prefixes of [answer]. *)
Fixpoint answer_prefixes (self : DsaTutorEngine) (query_clean lowered : str)
         (ps : list str) : result Answer :=
  match ps with
  | [] => answer_generic self query_clean
  | prefix :: ps' =>
      if startswith lowered prefix
      then explain_concept self
             (strip (slice_from query_clean (len prefix)))
      else answer_prefixes self query_clean lowered ps'
  end.

Definition answer (self : DsaTutorEngine) (user_query : str)
  : result Answer :=
  let query_clean := strip user_query in
  if is_empty query_clean then
    Ok {| query := user_query; matched_key := None;
          match_source := none_source; concept := None;
          answer_markdown := please_type |}
  else answer_prefixes self query_clean (lower query_clean) prefixes.

End Formatting.

End Tutor.


(* ================================================================== *)
(** * search_engine.py, with its state *)
(* ================================================================== *)

Module Stateful.

Import SearchEngine.

(** The methods of [KnowledgeGraphSearch] as programs over the state
    that they can reach: the engine object [this], with its attributes
    and the records that they hold, and the counter [fresh] of the
    objects made so far.  A program returns its outcome and the state
    that it leaves; an exception leaves the state as it is where it is
    raised. *)
Record State : Type := {
  this : KnowledgeGraphSearch;
  fresh : nat
}.

Definition M (A : Type) : Type := State -> result A * State.

Definition ret {A} (x : A) : M A := fun s => (Ok x, s).

Definition raise {A} (e : exn) : M A := fun s => (Raise e, s).

Definition seq {A B} (m : M A) (k : A -> M B) : M B :=
  fun s =>
    match m s with
    | (Ok x, s') => k x s'
    | (Raise e, s') => (Raise e, s')
    end.

Notation "x <- m ;; k" := (seq m (fun x => k))
  (at level 61, m at next level, right associativity).

(** A call of a function that has no access to the state. *)
Definition call {A} (r : result A) : M A := fun s => (r, s).

(** Reading and assigning the attributes of [self]. *)
Definition get_graph : M (dict Obj) := fun s => (Ok (graph (this s)), s).

Definition get_concept_keys : M (list str) :=
  fun s => (Ok (concept_keys (this s)), s).

Definition set_graph (g : dict Obj) : M unit :=
  fun s =>
    (Ok tt,
     {| this := {| graph := g;
                   concept_keys := concept_keys (this s);
                   concept_names := concept_names (this s) |};
        fresh := fresh s |}).

Definition set_concept_keys (keys : list str) : M unit :=
  fun s =>
    (Ok tt,
     {| this := {| graph := graph (this s);
                   concept_keys := keys;
                   concept_names := concept_names (this s) |};
        fresh := fresh s |}).

Definition set_concept_names (names : list str) : M unit :=
  fun s =>
    (Ok tt,
     {| this := {| graph := graph (this s);
                   concept_keys := concept_keys (this s);
                   concept_names := names |};
        fresh := fresh s |}).

(** [json.load(f)] makes the objects of the file. *)
Definition load (doc : document) : M (dict Obj) :=
  fun s =>
    let '(g, next) := json_load doc (fresh s) in
    (Ok g, {| this := this s; fresh := next |}).

(** [[self.graph[k].get("name", k) for k in keys]] *)
Fixpoint names_of (keys : list str) : M (list str) :=
  match keys with
  | [] => ret []
  | k :: keys' =>
      g <- get_graph ;;
      match dict_get g k with
      | None => raise KeyError
      | Some d =>
          names <- names_of keys' ;;
          ret (get_or (f_name (fields d)) k :: names)
      end
  end.

Definition init (file : option document) : M unit :=
  match file with
  | None => raise FileNotFoundError
  | Some doc =>
      g <- load doc ;;
      _ <- set_graph g ;;
      g <- get_graph ;;
      _ <- set_concept_keys (dict_keys g) ;;
      keys <- get_concept_keys ;;
      names <- names_of keys ;;
      set_concept_names names
  end.

Definition exact_search (q : str) : M (option Obj) :=
  g <- get_graph ;;
  ret (dict_get g (normalize_key q)).

Fixpoint fuzzy_loop (norm : str) (close : list str) (res : dict FuzzyHit)
  : M (dict FuzzyHit) :=
  match close with
  | [] => ret res
  | k :: close' =>
      g <- get_graph ;;
      match dict_get g k with
      | None => raise KeyError
      | Some d =>
          fuzzy_loop norm close'
            (dict_set res k
               {| fz_name := get_or (f_name (fields d)) k;
                  fz_type := get_or (f_type (fields d)) (lit "unknown");
                  match_score := similarity norm k |})
      end
  end.

Definition fuzzy_search (q : str) (limit : Z) (cutoff : Q)
  : M (dict FuzzyHit) :=
  let norm := normalize_key q in
  keys <- get_concept_keys ;;
  close <- call (Difflib.get_close_matches norm keys limit cutoff) ;;
  fuzzy_loop norm close [].

Definition relation_search (rel : str) : M (dict RelationHit) :=
  let r := lower rel in
  g <- get_graph ;;
  ret (relation_loop r g []).

Definition keyword_search (q : str) : M (dict KeywordHit) :=
  let ql := lower q in
  g <- get_graph ;;
  ret (keyword_loop q ql g []).

Definition comprehensive_search (q : str) : M Composite :=
  e <- exact_search q ;;
  fz <- fuzzy_search q 5 (6 # 10) ;;
  rl <- relation_search q ;;
  kw <- keyword_search q ;;
  ret {| exact := e; fuzzy := fz; related := rl; keyword := kw |}.

End Stateful.
(* ================================================================== *)
(** * Statements of the specification, and notions used in the proofs *)
(* ================================================================== *)

Module Spec.

Import SearchEngine Tutor.

(** [q] occurs in [t]. *)
Definition Substring (q t : str) : Prop :=
  exists before after, t = before ++ q ++ after.

Definition underscore : ascii := "_"%char.

Definition is_underscore (c : ascii) : bool := char_eqb underscore c.

(** One pass of [replace("__", "_")]. *)
Fixpoint halve (t : str) : str :=
  match t with
  | c :: t1 =>
      match t1 with
      | d :: t2 =>
          if is_underscore c && is_underscore d
          then underscore :: halve t2
          else c :: halve t1
      | [] => [c]
      end
  | [] => []
  end.

(** Runs of underscores collapsed to one underscore. *)
Fixpoint squeeze (t : str) : str :=
  match t with
  | c :: t1 =>
      match t1 with
      | d :: _ =>
          if is_underscore c && is_underscore d
          then squeeze t1
          else c :: squeeze t1
      | [] => [c]
      end
  | [] => []
  end.

Definition separator_to_underscore (c : ascii) : ascii :=
  if char_eqb c " "%char || char_eqb c "-"%char || char_eqb c "/"%char
  then underscore else c.

(** The normalisation in the words of the specification: trim, lowercase,
    spaces, hyphens and slashes to underscores, repeated underscores
    collapsed. *)
Definition normalize_spec (text : str) : str :=
  squeeze (map separator_to_underscore (lower (strip text))).

(** Every object of [d] lies at an address from [lo] up to, not
    including, [hi]. *)
Definition allocated (lo hi : nat) (d : dict Obj) : Prop :=
  Forall (fun kv => (lo <= addr (snd kv) < hi)%nat) d.

(** A loaded graph: unique keys, and [concept_keys] lists them. *)
Definition loaded (self : KnowledgeGraphSearch) : Prop :=
  NoDup (dict_keys (graph self))
  /\ concept_keys self = dict_keys (graph self).

(** The hits of a loop over the items, in the words of the
    specification: the items that pass the test, in store order. *)
Definition hits {H} (f : str * Obj -> option H) (items : dict Obj) : dict H :=
  flat_map (fun kv => match f kv with
                      | Some h => [(fst kv, h)]
                      | None => []
                      end) items.

(** What [keyword_search] and [relation_search] store for one item. *)
Definition keyword_test (q : str) (kv : str * Obj) : option KeywordHit :=
  let name := get_or (f_name (fields (snd kv))) [] in
  let desc := get_or (f_description (fields (snd kv))) [] in
  if str_in (lower q) (lower (name ++ desc))
  then Some {| kw_name := name; kw_snippet := snippet desc q 60 |}
  else None.

Definition relation_test (rel : str) (kv : str * Obj) : option RelationHit :=
  let v := snd kv in
  if existsb (str_eqb (lower rel)) (map lower (get_or (f_relations (fields v)) []))
  then Some {| rl_name := get_or (f_name (fields v)) (fst kv);
               rl_category := get_or (f_category (fields v)) (lit "unknown") |}
  else None.

(** The snippet of a hit as the specification has it: it contains the
    matched text, or the description is shorter than the window and is
    returned whole. *)
Definition snippet_claim (desc q snip : str) : Prop :=
  (exists m, Substring m snip /\ lower m = lower q)
  \/ (len desc < 120 /\ snip = desc).

(** [x] does not come after [y] in descending order. *)
Definition not_below {A} (cmp : A -> A -> comparison) (x y : A) : Prop :=
  cmp x y <> Lt.

(** The ratio by which [get_close_matches] selects and ranks a key [k]
    for the normalised query [word]: the key is the first sequence. *)
Definition selection_ratio (word k : str) : Q := Difflib.ratio k word.

Definition selected (word : str) (cutoff : Q) (x : str) : bool :=
  Qle_bool cutoff (Difflib.real_quick_ratio x word)
  && Qle_bool cutoff (Difflib.quick_ratio x word)
  && Qle_bool cutoff (Difflib.ratio x word).

(** Keys in descending order of selection ratio, ties in descending
    order of the keys themselves. *)
Definition ranked (word : str) (k1 k2 : str) : Prop :=
  Difflib.scored_compare (selection_ratio word k1, k1)
                         (selection_ratio word k2, k2) <> Lt.

(** Place of a key in the store. *)
Fixpoint position (keys : list str) (k : str) : nat :=
  match keys with
  | [] => 0
  | k' :: keys' => if str_eqb k' k then 0 else S (position keys' k)
  end.

(** Two successive entries of a fuzzy result as the specification orders
    them: by descending reported score, ties in store order. *)
Definition score_ordered (keys : list str) (e1 e2 : str * FuzzyHit) : Prop :=
  (match_score (snd e2) < match_score (snd e1))%Q
  \/ ((match_score (snd e1) == match_score (snd e2))%Q
      /\ (position keys (fst e1) < position keys (fst e2))%nat).

(** The result of [fuzzy_search] as the specification has it. *)
Definition fuzzy_claim (self : KnowledgeGraphSearch) (q : str) (limit : Z)
           (cutoff : Q) : Prop :=
  exists res,
    fuzzy_search self q limit cutoff = Ok res
    /\ Z.of_nat (List.length res) <= limit
    /\ Forall (fun e => (cutoff <= match_score (snd e))%Q) res
    /\ Sorted (score_ordered (concept_keys self)) res.

(** A block inside the rows [alo .. ahi) of [a]. *)
Definition inside (alo ahi : Z) (m : Difflib.Match) : Prop :=
  let '(i, _, k) := m in alo <= i /\ i + k <= ahi /\ 0 <= k.

(** Run lengths of at most [bound]. *)
Definition runs_within (bound : Z) (m : list (Z * Z)) : Prop :=
  Forall (fun p => 0 <= snd p <= bound) m.

(** Iterations that a work list still needs, at most. *)
Fixpoint work (queue : list (Z * Z * Z * Z)) : Z :=
  match queue with
  | [] => 0
  | (alo, ahi, _, _) :: queue' => 2 * (ahi - alo) + 1 + work queue'
  end.

Definition well_formed (queue : list (Z * Z * Z * Z)) : Prop :=
  Forall (fun r => let '(alo, ahi, _, _) := r in alo <= ahi) queue.

(** Empty or whitespace only. *)
Definition blank (t : str) : bool := forallb isspace t.

(** Selector priority as the specification has it: an exact record wins
    over a non-empty fuzzy mapping, and the source says so. *)
Definition exact_priority_claim (fill : str -> Z -> str)
           (self : Tutor.DsaTutorEngine) (query : str) (results : Composite)
  : Prop :=
  forall c,
    exact results = Some c -> fuzzy results <> [] ->
    pick_best_concept_from_results self results = Some c
    /\ match_source (explain_results fill self query results) = exact_source.

(** An exact hit as the specification has it: source [exact], no key. *)
Definition exact_key_claim (fill : str -> Z -> str)
           (self : Tutor.DsaTutorEngine) (q : str) : Prop :=
  forall c,
    exact_search (engine self) q = Some c ->
    exists ans,
      explain_concept fill self q = Ok ans
      /\ match_source ans = exact_source
      /\ matched_key ans = None.

(** The answer for a query that selects nothing. *)
Definition nothing_found (query : str) : Tutor.Answer :=
  {| Tutor.query := query; matched_key := None; match_source := none_source;
     concept := None; answer_markdown := not_found query |}.

(** The text after the first recognised prefix of the query, if the
    query, in lower case, starts with one. *)
Fixpoint remainder_after (ps : list str) (q : str) : option str :=
  match ps with
  | [] => None
  | prefix :: ps' =>
      if startswith (lower q) prefix then Some (slice_from q (len prefix))
      else remainder_after ps' q
  end.

(** A blank input as the specification has it: the whole query, or what
    follows a recognised prefix. *)
Definition blank_input (q : str) : Prop :=
  blank q = true
  \/ exists rest, remainder_after prefixes q = Some rest /\ blank rest = true.

Definition please_message (m : str) : Prop :=
  m = please_provide \/ m = please_type.

(** The reply to a blank input as the specification has it. *)
Definition blank_input_claim (fill : str -> Z -> str)
           (self : Tutor.DsaTutorEngine) (q : str) : Prop :=
  blank_input q ->
  exists ans,
    answer fill self q = Ok ans
    /\ match_source ans = none_source
    /\ concept ans = None
    /\ please_message (answer_markdown ans).

(** The answer asking for input. *)
Definition asks_for_input (query message : str) : Tutor.Answer :=
  {| Tutor.query := query; matched_key := None; match_source := none_source;
     concept := None; answer_markdown := message |}.

(** The empty query as the specification has it: nothing raised,
    nothing found by any strategy. *)
Definition empty_query_claim (self : KnowledgeGraphSearch) : Prop :=
  exists results,
    comprehensive_search self [] = Ok results
    /\ exact results = None
    /\ fuzzy results = []
    /\ related results = []
    /\ keyword results = [].

(** The leading phrases that the specification names. *)
Definition leading_phrases : list str :=
  [lit "explain "; lit "what is "; lit "define "].

(** [text] starts, whatever the letter case, with [phrase], and [rest]
    is what follows it. *)
Definition starts_with (text phrase rest : str) : Prop :=
  exists head, text = head ++ rest /\ lower head = phrase.

Definition no_leading_phrase (text : str) : Prop :=
  forall phrase rest,
    In phrase leading_phrases -> ~ starts_with text phrase rest.

(** The answer to a question that maps to no concept. *)
Definition not_mapped_answer (query : str) : Tutor.Answer :=
  {| Tutor.query := query; matched_key := None; match_source := none_source;
     concept := None; answer_markdown := not_mapped |}.

(** The answer to [user_query] is the one that searching [text] gives:
    the combined search runs on [text], and the answer explains the
    concept selected from its results by name, or reports [text] as
    not mapped when none is selected. *)
Definition searched_as (fill : str -> Z -> str) (self : Tutor.DsaTutorEngine)
           (user_query text : str) : Prop :=
  exists results,
    comprehensive_search (engine self) text = Ok results
    /\ answer fill self user_query
       = match pick_best_concept_from_results self results with
         | None => Ok (not_mapped_answer text)
         | Some c =>
             explain_concept fill self (get_or (f_name (fields c)) [])
         end.

(** The treatment of leading phrases as the specification has it: a
    phrase is stripped and the trimmed rest explained; without a phrase
    the query text is searched unmodified. *)
Definition leading_phrase_claim (fill : str -> Z -> str)
           (self : Tutor.DsaTutorEngine) (user_query : str) : Prop :=
  (forall phrase rest,
      In phrase leading_phrases ->
      starts_with (strip user_query) phrase rest ->
      answer fill self user_query = explain_concept fill self (strip rest))
  /\ (no_leading_phrase (strip user_query) ->
      searched_as fill self user_query user_query).

End Spec.


(* ================================================================== *)
(** * A catalogue for concrete runs *)
(* ================================================================== *)

Module Example.

Import SearchEngine Tutor.

Local Open Scope string_scope.

(** A node as [build_knowledge_graph] writes it. *)
Definition node (name type category : string) (basic_ops : list string)
           (description : string) (relations use_cases : list string)
  : Fields :=
  {| f_name := Some (lit name);
     f_type := Some (lit type);
     f_category := Some (lit category);
     f_basic_ops := Some (map lit basic_ops);
     f_use_cases := Some (map lit use_cases);
     f_relations := Some (map lit relations);
     f_description := Some (lit description);
     f_others := [lit "principle"; lit "id"] |}.

(** The JSON object [{}]. *)
Definition empty_node : Fields :=
  {| f_name := None; f_type := None; f_category := None;
     f_basic_ops := None; f_use_cases := None; f_relations := None;
     f_description := None; f_others := [] |}.

(** Seven concepts of [data/base_concepts.py] as the builder tags them;
    [avl_tree] carries a long fetched description. *)
Definition stack_node : Fields :=
  node "Stack" "linear_structure" "data_structure"
       ["push"; "pop"; "top"; "is_empty"]
       "A linear structure supporting LIFO access."
       ["data_structure"; "lifo_structure"; "recursion_support"]
       ["function_call_stack"; "undo_operations"].

Definition queue_node : Fields :=
  node "Queue" "linear_structure" "data_structure"
       ["enqueue"; "dequeue"; "front"; "is_empty"]
       "A linear structure supporting FIFO access."
       ["data_structure"; "fifo_structure"; "scheduling"]
       ["task_scheduling"; "bfs_traversal"].

Definition bst_node : Fields :=
  node "Binary Search Tree" "tree_structure" "data_structure"
       ["insert"; "delete"; "search"]
       "A binary tree supporting fast search operations."
       ["data_structure"]
       ["general_dsa_application"].

Definition avl_tree_node : Fields :=
  node "AVL Tree" "balanced_tree" "data_structure"
       ["insert"; "delete"; "rotate"]
       "A self-balancing binary search tree in which the heights of the two child subtrees of any node differ by at most one; rebalancing is done by rotations."
       ["data_structure"; "hierarchical_structure"; "recursion"]
       ["hierarchical_data"; "database_indexing"].

Definition binary_search_node : Fields :=
  node "Binary Search" "search_algorithm" "algorithm"
       ["mid_compare"; "divide"]
       "Efficient search on sorted arrays."
       ["algorithm"; "lookup_operation"]
       ["general_dsa_application"].

Definition bfs_node : Fields :=
  node "Breadth-First Search" "graph_algorithm" "algorithm"
       ["enqueue"; "visit"]
       "Graph traversal visiting nodes in breadth-first order."
       ["algorithm"; "graph_traversal"]
       ["general_dsa_application"].

Definition dfs_node : Fields :=
  node "Depth-First Search" "graph_algorithm" "algorithm"
       ["push"; "visit"]
       "Graph traversal exploring depth-first paths."
       ["algorithm"; "graph_traversal"]
       ["general_dsa_application"].

Definition catalogue : document :=
  [(lit "stack", stack_node);
   (lit "queue", queue_node);
   (lit "bst", bst_node);
   (lit "avl_tree", avl_tree_node);
   (lit "binary_search", binary_search_node);
   (lit "bfs", bfs_node);
   (lit "dfs", dfs_node)].

(** A store in which two keys tie for a query, and one whose only
    record is the empty object. *)
Definition tie_catalogue : document :=
  [(lit "xa", node "Xa" "t" "c" [] "" [] []);
   (lit "xb", node "Xb" "t" "c" [] "" [] [])].

Definition hollow_catalogue : document :=
  [(lit "stack", empty_node)].

(** A store whose only key is the empty string. *)
Definition blank_key_catalogue : document := [([], stack_node)].

(** The engine over a file, loaded at address 0. *)
Definition engine_of (doc : document) : KnowledgeGraphSearch :=
  match SearchEngine.init (Some doc) 0 with
  | Ok (e, _) => e
  | Raise _ => {| graph := []; concept_keys := []; concept_names := [] |}
  end.

(** The tutor over a file, loaded at address 0. *)
Definition tutor_of (doc : document) : DsaTutorEngine :=
  match Tutor.init (Some doc) 0 with
  | Ok (t, _) => t
  | Raise _ =>
      {| kg := [];
         engine := {| graph := []; concept_keys := []; concept_names := [] |} |}
  end.

(** Wrapping is immaterial to the runs below. *)
Definition no_wrap (text : str) (width : Z) : str := text.

(** Composite results for the selector. *)
Definition stack_composite : Composite :=
  {| exact := Some {| addr := 7; fields := stack_node |};
     fuzzy := [(lit "stack",
                {| fz_name := lit "Stack"; fz_type := lit "linear_structure";
                   match_score := 1 |})];
     related := [];
     keyword := [] |}.

Definition lifo_composite : Composite :=
  {| exact := None;
     fuzzy := [];
     related := [(lit "stack",
                  {| rl_name := lit "Stack";
                     rl_category := lit "data_structure" |})];
     keyword := [] |}.

End Example.

(* ================================================================== *)
(** * graph_builder.py *)
(* ================================================================== *)

Module GraphBuilder.

Import SearchEngine.

(** [any(w in name for w in words)] *)
Definition any_in (words : list str) (name : str) : bool :=
  existsb (fun w => str_in w name) words.

(** [sorted(set(l))]: the distinct strings of [l] in ascending order. *)
Fixpoint insert_asc (x : str) (l : list str) : list str :=
  match l with
  | [] => [x]
  | y :: l' =>
      match str_compare x y with
      | Lt => x :: l
      | Eq => l
      | Gt => y :: insert_asc x l'
      end
  end.

Definition sorted_set (l : list str) : list str :=
  fold_left (fun acc x => insert_asc x acc) l [].

(** [if cond: relations += tags] *)
Definition add_if (cond : bool) (tags relations : list str) : list str :=
  if cond then relations ++ tags else relations.

(** The relations before [sorted(set(...))]. *)
Definition inferred_relations (concept_name : str) (base_data : Fields)
  : list str :=
  let name := lower concept_name in
  let relations := [] in
  let relations :=
    add_if (any_in [lit "array"; lit "matrix"; lit "list"; lit "vector"] name)
           [lit "linear_structure"; lit "sequential_access"] relations in
  let relations :=
    add_if (str_in (lit "linked") name)
           [lit "pointer_based"; lit "dynamic_structure"] relations in
  let relations :=
    add_if (str_in (lit "stack") name)
           [lit "lifo_structure"; lit "recursion_support"] relations in
  let relations :=
    add_if (str_in (lit "queue") name)
           [lit "fifo_structure"; lit "scheduling"] relations in
  let relations :=
    add_if (str_in (lit "tree") name)
           [lit "hierarchical_structure"; lit "recursion"] relations in
  let relations :=
    add_if (str_in (lit "graph") name)
           [lit "network_structure"; lit "traversal_bfs_dfs"] relations in
  let relations :=
    add_if (str_in (lit "sparse") name)
           [lit "compressed_representation"] relations in
  let relations :=
    add_if (str_in (lit "search") name)
           [lit "lookup_operation"] relations in
  let relations :=
    add_if (str_in (lit "sort") name) [lit "ordering"] relations in
  let relations :=
    add_if (str_in (lit "bfs") name || str_in (lit "dfs") name)
           [lit "graph_traversal"] relations in
  let relations :=
    add_if (str_in (lit "dijkstra") name || str_in (lit "bellman") name)
           [lit "shortest_path"] relations in
  relations ++ [get_or (f_category base_data) (lit "data_structure")].

Definition generate_auto_relations (concept_name : str) (base_data : Fields)
  : list str :=
  sorted_set (inferred_relations concept_name base_data).

Definition generate_use_cases (concept_name : str) : list str :=
  let n := lower concept_name in
  if str_in (lit "stack") n
  then [lit "function_call_stack"; lit "undo_operations"]
  else if str_in (lit "queue") n
  then [lit "task_scheduling"; lit "bfs_traversal"]
  else if str_in (lit "tree") n
  then [lit "hierarchical_data"; lit "database_indexing"]
  else if str_in (lit "sort") n
  then [lit "data_ordering"]
  else if str_in (lit "graph") n
  then [lit "network_routing"]
  else if str_in (lit "matrix") n || str_in (lit "sparse") n
  then [lit "scientific_computing"]
  else [lit "general_dsa_application"].

(** [node[key] = ...] for a key outside the seven that the record
    spells out: the key is listed once. *)
Definition set_other (key : str) (others : list str) : list str :=
  if existsb (str_eqb key) others then others else others ++ [key].

Section Build.

(** [fetch_description] of [scraper.py], which asks web sites and a
    local model for a text, is left open. *)
Variable fetch_description : str -> str.

(** The body of the loop of [build_knowledge_graph] for one concept.
    [base_data["name"]] raises [KeyError] on a base record without a
    name.  The value of [id], [dsa_] followed by the key, has no place
    in [Fields], which lists [id] among the other keys. *)
Definition build_node (enrich : bool) (concept_key : str)
           (base_data : Fields) : result Fields :=
  bind (if enrich
        then match f_name base_data with
             | Some name => Ok (fetch_description name)
             | None => Raise KeyError
             end
        else Ok (get_or (f_description base_data) []))
       (fun description =>
  Ok {| f_name := f_name base_data;
        f_type := f_type base_data;
        f_category := f_category base_data;
        f_basic_ops := f_basic_ops base_data;
        f_use_cases := Some (generate_use_cases concept_key);
        f_relations := Some (generate_auto_relations concept_key base_data);
        f_description := Some description;
        f_others := set_other (lit "id") (f_others base_data) |}).

Fixpoint build_loop (enrich : bool) (items : dict Fields)
         (graph : dict Fields) : result (dict Fields) :=
  match items with
  | [] => Ok graph
  | (concept_key, base_data) :: items' =>
      bind (build_node enrich concept_key base_data) (fun node =>
      build_loop enrich items' (dict_set graph concept_key node))
  end.

(** [build_knowledge_graph(output, enrich)] over the base concepts; the
    graph it returns is the one it writes to the file. *)
Definition build_knowledge_graph (base_concepts : dict Fields)
           (enrich : bool) : result document :=
  build_loop enrich base_concepts [].

End Build.

End GraphBuilder.

(* ================================================================== *)
(** * scraper.py *)
(* ================================================================== *)

Module Scraper.

(** The [while "--" in s] loop of [_slugify]; every round shortens [s],
    so [fuel] of the length of [s] is enough (see
    [slugify_is_hyphenated_key]). *)
Fixpoint hyphen_loop (fuel : nat) (s : str) : str :=
  match fuel with
  | O => s
  | S f =>
      if str_in (lit "--") s
      then hyphen_loop f (replace s (lit "--") (lit "-"))
      else s
  end.

Definition _slugify (name : str) : str :=
  let s := lower (strip name) in
  let s := fold_left (fun s ch => replace s ch (lit "-"))
                     [lit " "; lit "_"; lit "/"] s in
  hyphen_loop (List.length s) s.

(** The addresses that [_candidate_urls] yields, in order. *)
Definition _candidate_urls (concept_name : str) : list str :=
  let slug := _slugify concept_name in
  let site := lit "https://www.geeksforgeeks.org/" in
  [ site ++ slug ++ lit "-data-structure/";
    site ++ slug ++ lit "-in-data-structure/";
    site ++ slug ++ lit "-algorithm/";
    site ++ slug ++ lit "/";
    site ++ slug ++ lit "-in-c/";
    site ++ slug ++ lit "-in-cpp/" ].

End Scraper.

(* ================================================================== *)
(** * Further notions used in the proofs *)
(* ================================================================== *)

Module Notions.

Import SearchEngine Tutor Spec Example GraphBuilder.

(** A character that [normalize_key] leaves alone: not a capital, not a
    separator. *)
Definition settled (c : ascii) : Prop :=
  separator_to_underscore (lower_char c) = c.

(** Whether a test passes on an item. *)
Definition passes {H} (f : str * Obj -> option H) (kv : str * Obj) : bool :=
  match f kv with Some _ => true | None => false end.

(** A block inside the columns [blo .. bhi) of [b]. *)
Definition inside_b (blo bhi : Z) (m : Difflib.Match) : Prop :=
  let '(_, j, k) := m in blo <= j /\ j + k <= bhi.

(** Run lengths that do not reach below column [blo]. *)
Definition runs_anchored (blo : Z) (m : list (Z * Z)) : Prop :=
  Forall (fun p => snd p <= fst p - blo + 1) m.

(** Sum of the sizes of blocks. *)
Definition total_size (l : list Difflib.Match) : Z :=
  fold_left (fun s (x : Difflib.Match) => s + snd x) l 0.

(** Rows and columns still open in a work list. *)
Fixpoint room_a (queue : list (Z * Z * Z * Z)) : Z :=
  match queue with
  | [] => 0
  | (alo, ahi, _, _) :: queue' => (ahi - alo) + room_a queue'
  end.

Fixpoint room_b (queue : list (Z * Z * Z * Z)) : Z :=
  match queue with
  | [] => 0
  | (_, _, blo, bhi) :: queue' => (bhi - blo) + room_b queue'
  end.

Definition well_formed_b (queue : list (Z * Z * Z * Z)) : Prop :=
  Forall (fun r => let '(_, _, blo, bhi) := r in blo <= bhi) queue.

(** The entry that [fuzzy_search] stores for a key and its record. *)
Definition fuzzy_hit (norm k : str) (d : Obj) : FuzzyHit :=
  {| fz_name := get_or (f_name (fields d)) k;
     fz_type := get_or (f_type (fields d)) (lit "unknown");
     match_score := similarity norm k |}.

(** The content of a graph: keys and fields, without the addresses. *)
Definition content (d : dict Obj) : dict Fields :=
  map (fun kv => (fst kv, fields (snd kv))) d.

(** The addresses of the objects of a graph. *)
Definition addresses (d : dict Obj) : list nat :=
  map (fun kv => addr (snd kv)) d.

(** A tutor as [DsaTutorEngine(graph_file)] leaves it: its own graph and
    the graph of its engine hold the same keys and fields in the same
    order, in objects of their own. *)
Definition tutor_loaded (self : DsaTutorEngine) : Prop :=
  loaded (engine self)
  /\ content (kg self) = content (graph (engine self))
  /\ NoDup (dict_keys (kg self))
  /\ NoDup (addresses (kg self))
  /\ (forall k o k' o',
         In (k, o) (kg self) -> In (k', o') (graph (engine self)) ->
         is_ o o' = false).

(** [best] is the first element of [l] with the highest score. *)
Definition first_best {A} (s : A -> Q) (l : list A) (best : A) : Prop :=
  exists pre post,
    l = pre ++ best :: post
    /\ (forall x, In x pre -> (s x < s best)%Q)
    /\ (forall x, In x post -> (s x <= s best)%Q).

(** Comparison of two elements by their scores. *)
Definition by_key {A} (s : A -> Q) (x y : A) : comparison :=
  Qcompare (s x) (s y).

Definition tied_composite : Composite :=
  {| exact := None;
     fuzzy := [(lit "bfs", {| fz_name := lit "Breadth-First Search";
                              fz_type := lit "graph_algorithm";
                              match_score := 2 # 3 |});
               (lit "dfs", {| fz_name := lit "Depth-First Search";
                              fz_type := lit "graph_algorithm";
                              match_score := 4 # 6 |})];
     related := [];
     keyword := [] |}.

(** Strictly ascending order of strings. *)
Definition ascending (s t : str) : Prop := str_compare s t = Lt.

(** A fetcher for runs without enrichment. *)
Definition no_fetch (name : str) : str := name.

(** The base concepts of the tutorial catalogue behind [catalogue]:
    names, types, categories, operations and short descriptions. *)
Definition base_of (f : Fields) : Fields :=
  {| f_name := f_name f; f_type := f_type f; f_category := f_category f;
     f_basic_ops := f_basic_ops f; f_use_cases := None; f_relations := None;
     f_description := f_description f; f_others := [lit "principle"] |}.

Definition base_catalogue : dict Fields :=
  map (fun kv => (fst kv, base_of (snd kv))) catalogue.

(** Underscores and hyphens exchanged. *)
Definition swap_dash (c : ascii) : ascii :=
  if char_eqb c "_"%char then "-"%char
  else if char_eqb c "-"%char then "_"%char else c.

(** Underscores turned into hyphens. *)
Definition hyphenate (c : ascii) : ascii :=
  if char_eqb c "_"%char then "-"%char else c.

(** An engine object before [__init__] has run. *)
Definition blank_engine : KnowledgeGraphSearch :=
  {| graph := []; concept_keys := []; concept_names := [] |}.

End Notions.

Import SearchEngine Tutor Spec Example GraphBuilder Scraper Notions.

(* ================================================================== *)
(** * Sample runs *)
(* ================================================================== *)

Example strip_ex : strip (lit "  Explain  stack ") = lit "Explain  stack".
Proof. reflexivity. Qed.

Example find_ex : find (lit "hello world") (lit "o w") = 4.
Proof. reflexivity. Qed.

Example lower_ex : lower (lit "Binary-Search") = lit "binary-search".
Proof. reflexivity. Qed.

Example ratio_tide_diet :
  Qeq_bool (Difflib.ratio (lit "tide") (lit "diet")) (1 # 4) = true /\
  Qeq_bool (Difflib.ratio (lit "diet") (lit "tide")) (1 # 2) = true.
Proof. split; reflexivity. Qed.

Example close_matches_ex :
  Difflib.get_close_matches (lit "sbs")
    (map lit ["array"; "bst"; "bfs"; "dfs"; "stack"]%string) 5 (6 # 10)
  = Ok (map lit ["bst"; "bfs"]%string).
Proof. reflexivity. Qed.

Example normalize_key_ex :
  SearchEngine.normalize_key (lit "  Binary - Search/Tree ") = lit "binary_search_tree".
Proof. reflexivity. Qed.

Example replace_ex : replace (lit "a___b__c") (lit "__") (lit "_") = lit "a__b_c".
Proof. reflexivity. Qed.

Example slice_ex : slice (lit "hello world") 3 8 = lit "lo wo".
Proof. reflexivity. Qed.
(* ================================================================== *)
(** * Properties of the string operations *)
(* ================================================================== *)

Section TextFacts.

Import Spec.

Lemma char_eqb_eq (c d : ascii) : char_eqb c d = true <-> c = d.
Proof. unfold char_eqb. apply Ascii.eqb_eq. Qed.

Lemma char_eqb_refl (c : ascii) : char_eqb c c = true.
Proof. apply char_eqb_eq. reflexivity. Qed.

Lemma str_eqb_eq (s t : str) : str_eqb s t = true <-> s = t.
Proof.
  revert t. induction s as [|c s IH]; intros [|d t]; simpl;
    try (split; [discriminate | discriminate]); try tauto.
  rewrite andb_true_iff, char_eqb_eq, IH.
  split; [intros [-> ->]; reflexivity | intros H; inversion H; auto].
Qed.

Lemma str_eqb_refl (s : str) : str_eqb s s = true.
Proof. apply str_eqb_eq. reflexivity. Qed.

Lemma str_eqb_neq (s t : str) : str_eqb s t = false <-> s <> t.
Proof.
  destruct (str_eqb s t) eqn:E.
  - apply str_eqb_eq in E. split; [discriminate | tauto].
  - split; [intros _ H | reflexivity].
    apply str_eqb_eq in H. congruence.
Qed.

Lemma startswith_spec (t p : str) :
  startswith t p = true <-> exists rest, t = p ++ rest.
Proof.
  revert t. induction p as [|c p IH]; intros t; simpl.
  - split; [intros _; exists t; reflexivity | reflexivity].
  - destruct t as [|d t].
    + split; [discriminate | intros [r H]; discriminate].
    + rewrite andb_true_iff, char_eqb_eq, IH. split.
      * intros [-> [r ->]]. exists r. reflexivity.
      * intros [r H]. inversion H. split; [reflexivity | now exists r].
Qed.

Lemma str_in_spec (q t : str) : str_in q t = true <-> Substring q t.
Proof.
  unfold Substring. induction t as [|d t IH].
  - simpl. rewrite orb_false_r, startswith_spec. split.
    + intros [r H]. exists [], r. exact H.
    + intros [[|x bf] [af H]]; [now exists af | discriminate].
  - cbn [str_in]. rewrite orb_true_iff, startswith_spec, IH. split.
    + intros [[r H] | [bf [af H]]].
      * exists [], r. exact H.
      * exists (d :: bf), af. rewrite H. reflexivity.
    + intros [[|x bf] [af H]].
      * left. now exists af.
      * right. inversion H. now exists bf, af.
Qed.

Lemma find_from_spec (t q : str) (i : Z) :
  (find_from t q i = -1 /\ str_in q t = false)
  \/ (exists before after,
        t = before ++ q ++ after /\ find_from t q i = i + len before).
Proof.
  revert i. induction t as [|d t IH]; intros i; cbn [find_from str_in].
  - destruct (startswith [] q) eqn:E.
    + right. apply startswith_spec in E. destruct E as [r E].
      exists [], r. split; [exact E | unfold len; simpl; lia].
    + left. split; reflexivity.
  - destruct (startswith (d :: t) q) eqn:E.
    + right. apply startswith_spec in E. destruct E as [r E].
      exists [], r. split; [exact E | unfold len; simpl; lia].
    + destruct (IH (i + 1)) as [[H1 H2] | [bf [af [H1 H2]]]].
      * left. split; [exact H1 | exact H2].
      * right. exists (d :: bf), af. split; [rewrite H1; reflexivity|].
        rewrite H2. unfold len. simpl List.length. lia.
Qed.

(** [find] fails exactly when [in] does. *)
Lemma str_find_none (t q : str) : find t q = -1 <-> str_in q t = false.
Proof.
  unfold find. destruct (find_from_spec t q 0) as [[H1 H2] | [bf [af [H1 H2]]]].
  - tauto.
  - assert (S : str_in q t = true) by (apply str_in_spec; now exists bf, af).
    rewrite S, H2. unfold len. split; [lia | discriminate].
Qed.

(** A successful [find] is the position of an occurrence. *)
Lemma str_find_some (t q : str) :
  find t q <> -1 ->
  exists before after, t = before ++ q ++ after /\ find t q = len before.
Proof.
  unfold find. destruct (find_from_spec t q 0) as [[H1 H2] | [bf [af [H1 H2]]]].
  - congruence.
  - intros _. exists bf, af. split; [exact H1 | rewrite H2; lia].
Qed.

Lemma lower_app (s t : str) : lower (s ++ t) = lower s ++ lower t.
Proof. apply map_app. Qed.

Lemma len_lower (t : str) : len (lower t) = len t.
Proof. unfold len, lower. now rewrite length_map. Qed.

Lemma len_app (s t : str) : len (s ++ t) = len s + len t.
Proof. unfold len. rewrite length_app. lia. Qed.

Lemma len_nonneg (t : str) : 0 <= len t.
Proof. unfold len. lia. Qed.

(** Splitting a lowered string splits the string. *)
Lemma lower_split (t x y z : str) :
  lower t = x ++ y ++ z ->
  exists x' y' z', t = x' ++ y' ++ z' /\ lower x' = x /\ lower y' = y
                   /\ lower z' = z.
Proof.
  intros H. unfold lower in *.
  apply map_eq_app in H. destruct H as [x' [r [-> [Hx Hr]]]].
  apply map_eq_app in Hr. destruct Hr as [y' [z' [-> [Hy Hz]]]].
  now exists x', y', z'.
Qed.

(** Slices with bounds inside the string. *)
Lemma slice_inside (x y z : str) :
  slice (x ++ y ++ z) (len x) (len x + len y) = y.
Proof.
  unfold slice, slice_index. rewrite !len_app.
  pose proof (len_nonneg x). pose proof (len_nonneg y). pose proof (len_nonneg z).
  destruct (Z.ltb_spec (len x) 0); [lia|].
  destruct (Z.ltb_spec (len x + len y) 0); [lia|].
  rewrite !Z.min_l by lia.
  replace (len x + len y - len x) with (len y) by lia.
  unfold len. rewrite !Nat2Z.id.
  rewrite skipn_app, skipn_all, Nat.sub_diag. simpl.
  rewrite firstn_app, firstn_all, Nat.sub_diag. simpl. apply app_nil_r.
Qed.

Lemma slice_to_short (t : str) (n : Z) :
  len t <= n -> slice_to t n = t.
Proof.
  intros H. unfold slice_to, slice, slice_index.
  pose proof (len_nonneg t).
  destruct (Z.ltb_spec n 0); [lia|].
  change (0 <? 0) with false. cbv iota.
  rewrite (Z.min_l 0) by lia. rewrite (Z.min_r n) by lia.
  rewrite Z.sub_0_r. unfold len. rewrite Nat2Z.id. cbn [Z.to_nat skipn].
  apply firstn_all.
Qed.

Lemma slice_to_long (t : str) (n : Z) :
  0 <= n -> slice_to t n = firstn (Z.to_nat n) t.
Proof.
  intros H. unfold slice_to, slice, slice_index.
  pose proof (len_nonneg t).
  destruct (Z.ltb_spec n 0); [lia|].
  change (0 <? 0) with false. cbv iota.
  rewrite (Z.min_l 0) by lia. rewrite Z.sub_0_r. cbn [Z.to_nat skipn].
  destruct (Z.min_spec n (len t)) as [[_ ->] | [Hle ->]]; [reflexivity|].
  unfold len. rewrite Nat2Z.id. rewrite firstn_all.
  symmetry. apply firstn_all2. unfold len in Hle. lia.
Qed.

(** A slice that starts before an occurrence and ends after it contains
    the occurrence. *)
Lemma slice_covers (x y z : str) (s e : Z) :
  0 <= s <= len x -> len x + len y <= e <= len x + len y + len z ->
  exists x2 z1, slice (x ++ y ++ z) s e = x2 ++ y ++ z1.
Proof.
  intros Hs He.
  exists (skipn (Z.to_nat s) x), (firstn (Z.to_nat (e - len x - len y)) z).
  unfold slice, slice_index. rewrite !len_app.
  pose proof (len_nonneg x). pose proof (len_nonneg y). pose proof (len_nonneg z).
  destruct (Z.ltb_spec s 0); [lia|].
  destruct (Z.ltb_spec e 0); [lia|].
  rewrite !Z.min_l by lia.
  rewrite skipn_app.
  replace (Z.to_nat s - List.length x)%nat with 0%nat by (unfold len in *; lia).
  simpl skipn.
  rewrite firstn_app.
  rewrite firstn_all2 by (rewrite length_skipn; unfold len in *; lia).
  f_equal.
  rewrite firstn_app.
  rewrite firstn_all2 by (rewrite length_skipn; unfold len in *; lia).
  f_equal. f_equal.
  rewrite length_skipn. unfold len in *. lia.
Qed.

End TextFacts.

(* ================================================================== *)
(** * strip *)
(* ================================================================== *)

Section Strip.

Lemma lstrip_split (t : str) :
  exists ws, t = ws ++ lstrip t /\ blank ws = true.
Proof.
  induction t as [|c t [ws [H1 H2]]]; [now exists []|].
  simpl. destruct (isspace c) eqn:E.
  - exists (c :: ws). split; [simpl; now f_equal | simpl; now rewrite E].
  - now exists [].
Qed.

Lemma lstrip_head (t u : str) (c : ascii) :
  lstrip t = c :: u -> isspace c = false.
Proof.
  induction t as [|d t IH]; simpl; [discriminate|].
  destruct (isspace d) eqn:E; [exact IH|].
  intros H. inversion H. now subst.
Qed.

Lemma lstrip_blank (t : str) : lstrip t = [] <-> blank t = true.
Proof.
  induction t as [|c t IH]; simpl; [tauto|].
  destruct (isspace c); simpl; [exact IH|].
  split; discriminate.
Qed.

Lemma lstrip_idem (t : str) : lstrip (lstrip t) = lstrip t.
Proof.
  destruct (lstrip t) as [|c u] eqn:E; [reflexivity|].
  apply lstrip_head in E. simpl. now rewrite E.
Qed.

Lemma blank_app (s t : str) : blank (s ++ t) = blank s && blank t.
Proof. apply forallb_app. Qed.

Lemma blank_rev (t : str) : blank (rev t) = blank t.
Proof.
  induction t as [|c t IH]; [reflexivity|].
  simpl. rewrite blank_app, IH. simpl. rewrite andb_true_r. apply andb_comm.
Qed.

Lemma rstrip_split (t : str) :
  exists ws, t = rstrip t ++ ws /\ blank ws = true.
Proof.
  unfold rstrip. destruct (lstrip_split (rev t)) as [ws [H1 H2]].
  exists (rev ws). split; [|now rewrite blank_rev].
  rewrite <- rev_app_distr, <- H1. now rewrite rev_involutive.
Qed.

Lemma rstrip_blank (t : str) : rstrip t = [] <-> blank t = true.
Proof.
  unfold rstrip. rewrite <- (blank_rev t), <- lstrip_blank.
  split; intros H; [|now rewrite H].
  apply (f_equal (@rev ascii)) in H. now rewrite rev_involutive in H.
Qed.

(** [strip] returns the empty string exactly on blank input. *)
Lemma strip_blank (t : str) : strip t = [] <-> blank t = true.
Proof.
  unfold strip. rewrite rstrip_blank.
  destruct (lstrip_split t) as [ws [H1 H2]].
  rewrite H1 at 2. rewrite blank_app, H2. simpl. tauto.
Qed.

(** A stripped string neither starts nor ends with whitespace. *)
Lemma strip_first (t u : str) (c : ascii) :
  strip t = c :: u -> isspace c = false.
Proof.
  unfold strip. intros H.
  destruct (rstrip_split (lstrip t)) as [ws [H1 _]]. rewrite H in H1.
  simpl in H1. now apply lstrip_head in H1.
Qed.

Lemma strip_last (t u : str) (c : ascii) :
  strip t = u ++ [c] -> isspace c = false.
Proof.
  unfold strip, rstrip. intros H.
  apply (f_equal (@rev ascii)) in H.
  rewrite rev_involutive, rev_app_distr in H. simpl in H.
  now apply lstrip_head in H.
Qed.

Lemma strip_idem (t : str) : strip (strip t) = strip t.
Proof.
  destruct (strip t) as [|c u] eqn:E; [reflexivity|].
  pose proof (strip_first _ _ _ E) as Hc.
  unfold strip at 1. cbn [lstrip]. rewrite Hc.
  rewrite <- E. unfold strip, rstrip.
  now rewrite rev_involutive, lstrip_idem.
Qed.

Lemma is_empty_true (t : str) : is_empty t = true <-> t = [].
Proof. destruct t; simpl; split; congruence. Qed.

Lemma is_empty_strip (t : str) : is_empty (strip t) = blank t.
Proof.
  destruct (blank t) eqn:E.
  - apply strip_blank in E. now rewrite E.
  - destruct (strip t) eqn:F; [|reflexivity].
    apply strip_blank in F. congruence.
Qed.

Lemma normalize_key_strip (t : str) :
  normalize_key (strip t) = normalize_key t.
Proof. unfold normalize_key. now rewrite strip_idem. Qed.

End Strip.

(* ================================================================== *)
(** * normalize_key *)
(* ================================================================== *)

Section NormalizeKey.

Import SearchEngine Spec.

Lemma replace_char (t : str) (ch x : ascii) :
  replace t [ch] [x] = map (fun c => if char_eqb ch c then x else c) t.
Proof.
  unfold replace. induction t as [|c t IH]; [reflexivity|].
  cbn [replace_from map startswith List.length Nat.pred].
  rewrite Bool.andb_true_r, IH.
  destruct (char_eqb ch c); reflexivity.
Qed.

Lemma separators_replaced (t : str) :
  fold_left (fun t ch => replace t ch (lit "_"))
            [lit " "; lit "-"; lit "/"] t
  = map separator_to_underscore t.
Proof.
  cbn [fold_left]. change (lit " ") with [" "%char].
  change (lit "-") with ["-"%char]. change (lit "/") with ["/"%char].
  change (lit "_") with [underscore].
  rewrite !replace_char, !map_map. apply map_ext. intros c.
  unfold separator_to_underscore.
  destruct (char_eqb " " c) eqn:E1.
  { apply char_eqb_eq in E1. subst c. reflexivity. }
  destruct (char_eqb "-" c) eqn:E2.
  { apply char_eqb_eq in E2. subst c. reflexivity. }
  destruct (char_eqb "/" c) eqn:E3.
  { apply char_eqb_eq in E3. subst c. reflexivity. }
  assert (Hs : forall d, char_eqb d c = false -> char_eqb c d = false).
  { intros d H. destruct (char_eqb c d) eqn:F; [|reflexivity].
    apply char_eqb_eq in F. subst. now rewrite char_eqb_refl in H. }
  now rewrite (Hs _ E1), (Hs _ E2), (Hs _ E3).
Qed.

Lemma replace_double (t : str) :
  replace t (lit "__") (lit "_") = halve t.
Proof.
  unfold replace. change (lit "__") with [underscore; underscore].
  change (lit "_") with [underscore].
  assert (G : forall n t, (List.length t <= n)%nat ->
     replace_from t [underscore; underscore] [underscore] 0 = halve t).
  { clear t. induction n as [|n IH]; intros [|c [|d t]] Hn; simpl in Hn;
      try reflexivity; try lia.
    - cbn [replace_from startswith halve List.length Nat.pred app].
      fold (is_underscore c).
      rewrite Bool.andb_false_r. reflexivity.
    - cbn [replace_from startswith halve List.length Nat.pred app].
      fold (is_underscore c). fold (is_underscore d).
      rewrite Bool.andb_true_r.
      destruct (is_underscore c && is_underscore d) eqn:E.
      + rewrite IH by lia. reflexivity.
      + f_equal. apply (IH (d :: t)). simpl. lia. }
  apply (G (List.length t)). lia.
Qed.

Lemma str_in_double (c : ascii) (t : str) :
  str_in (lit "__") (c :: t)
  = match t with
    | d :: _ => is_underscore c && is_underscore d || str_in (lit "__") t
    | [] => false
    end.
Proof.
  change (lit "__") with [underscore; underscore].
  destruct t as [|d t].
  - cbn. fold (is_underscore c). now rewrite Bool.andb_false_r.
  - cbn [str_in startswith]. fold (is_underscore c). fold (is_underscore d).
    now rewrite Bool.andb_true_r.
Qed.

Lemma no_double_fixed (t : str) :
  str_in (lit "__") t = false -> squeeze t = t.
Proof.
  induction t as [|c t IH]; [reflexivity|].
  rewrite str_in_double. destruct t as [|d t]; [reflexivity|].
  intros H. apply Bool.orb_false_elim in H. destruct H as [H1 H2].
  cbn [squeeze]. rewrite H1. f_equal. apply IH. exact H2.
Qed.

Lemma halve_head (c : ascii) (t : str) :
  exists r, halve (c :: t) = c :: r.
Proof.
  destruct t as [|d t]; cbn [halve]; [now exists []|].
  destruct (is_underscore c && is_underscore d) eqn:E.
  - apply Bool.andb_true_iff in E. destruct E as [E _].
    apply char_eqb_eq in E. subst c. now exists (halve t).
  - now exists (halve (d :: t)).
Qed.

Lemma squeeze_cons (c : ascii) (t u : str) :
  squeeze t = squeeze u ->
  (forall d r, t = d :: r -> exists r', u = d :: r') ->
  (t = [] -> u = []) ->
  squeeze (c :: t) = squeeze (c :: u).
Proof.
  intros H Hh Hn. destruct t as [|d r].
  - now rewrite (Hn eq_refl).
  - destruct (Hh d r eq_refl) as [r' ->].
    cbn [squeeze] in *. destruct (is_underscore c && is_underscore d).
    + exact H.
    + f_equal. exact H.
Qed.

Lemma halve_step (c d : ascii) (t : str) :
  halve (c :: d :: t)
  = if is_underscore c && is_underscore d
    then underscore :: halve t else c :: halve (d :: t).
Proof. reflexivity. Qed.

Lemma squeeze_step (c d : ascii) (t : str) :
  squeeze (c :: d :: t)
  = if is_underscore c && is_underscore d
    then squeeze (d :: t) else c :: squeeze (d :: t).
Proof. reflexivity. Qed.

Lemma squeeze_head (c : ascii) (t : str) :
  exists r, squeeze (c :: t) = c :: r.
Proof.
  revert c. induction t as [|d t IH]; intros c; [now exists []|].
  rewrite squeeze_step. destruct (is_underscore c && is_underscore d) eqn:E.
  - apply Bool.andb_true_iff in E. destruct E as [Ec Ed].
    apply char_eqb_eq in Ec, Ed. subst c d. apply IH.
  - now exists (squeeze (d :: t)).
Qed.

Lemma squeeze_halve (t : str) : squeeze (halve t) = squeeze t.
Proof.
  assert (G : forall n t, (List.length t <= n)%nat ->
                          squeeze (halve t) = squeeze t).
  { clear t. induction n as [|n IH]; intros [|c [|d t]] Hn; simpl in Hn;
      try reflexivity; try lia.
    rewrite halve_step, squeeze_step.
    destruct (is_underscore c && is_underscore d) eqn:E.
    - apply Bool.andb_true_iff in E. destruct E as [Ec Ed].
      apply char_eqb_eq in Ec, Ed. subst c d.
      apply squeeze_cons.
      + apply IH. lia.
      + intros d r H. destruct t as [|x t]; [discriminate|].
        destruct (halve_head x t) as [r2 Hr2]. rewrite Hr2 in H.
        inversion H. now exists t.
      + destruct t as [|x t]; [reflexivity|].
        destruct (halve_head x t) as [r ->]. discriminate.
    - destruct (halve_head d t) as [r Hr].
      rewrite Hr, squeeze_step, E, <- Hr. f_equal. apply (IH (d :: t)).
      simpl. lia. }
  apply (G (List.length t)). lia.
Qed.

Lemma halve_length (t : str) :
  (List.length (halve t) <= List.length t)%nat
  /\ (str_in (lit "__") t = true ->
      (List.length (halve t) < List.length t)%nat).
Proof.
  assert (G : forall n t, (List.length t <= n)%nat ->
     (List.length (halve t) <= List.length t)%nat
     /\ (str_in (lit "__") t = true ->
         (List.length (halve t) < List.length t)%nat)).
  { clear t. induction n as [|n IH]; intros [|c [|d t]] Hn; simpl in Hn;
      try lia; try (split; [simpl; lia | cbn; try discriminate]).
    - fold (is_underscore c). rewrite Bool.andb_false_r. discriminate.
    - rewrite str_in_double, halve_step.
      destruct (is_underscore c && is_underscore d) eqn:E.
      + destruct (IH t ltac:(lia)) as [H1 _]. split; simpl; intros; lia.
      + destruct (IH (d :: t) ltac:(simpl; lia)) as [H1 H2].
        split; [simpl in *; lia|]. simpl orb. intros H.
        specialize (H2 H). simpl in *. lia. }
  apply (G (List.length t)). lia.
Qed.

(** The loop of [normalize_key] runs to its exit condition: with fuel of
    the length of [t] it returns [t] with every run collapsed. *)
Lemma collapse_loop_done (n : nat) (t : str) :
  (List.length t <= n)%nat -> collapse_loop n t = squeeze t.
Proof.
  revert t. induction n as [|n IH]; intros t Hn.
  - destruct t; [reflexivity | simpl in Hn; lia].
  - cbn [collapse_loop]. destruct (str_in (lit "__") t) eqn:E.
    + rewrite replace_double, IH, squeeze_halve; [reflexivity|].
      destruct (halve_length t) as [_ H]. specialize (H E). lia.
    + symmetry. now apply no_double_fixed.
Qed.

Lemma squeeze_no_double (t : str) : str_in (lit "__") (squeeze t) = false.
Proof.
  induction t as [|c t IH]; [reflexivity|].
  destruct t as [|d t].
  { cbn. fold (is_underscore c). now rewrite Bool.andb_false_r. }
  rewrite squeeze_step.
  destruct (is_underscore c && is_underscore d) eqn:E; [exact IH|].
  rewrite str_in_double. destruct (squeeze_head d t) as [r Hr].
  rewrite Hr in *. now rewrite IH, E.
Qed.

Theorem normalize_key_spec (text : str) :
  normalize_key text = normalize_spec text.
Proof.
  unfold normalize_key, normalize_spec.
  rewrite separators_replaced. apply collapse_loop_done. lia.
Qed.

End NormalizeKey.

(* ================================================================== *)
(** * Dictionaries and the loaded store *)
(* ================================================================== *)

Section Store.

Import SearchEngine.

Context {V : Type}.

Lemma dict_get_in (d : dict V) (k : str) (v : V) :
  dict_get d k = Some v -> In (k, v) d.
Proof.
  induction d as [|[k' v'] d IH]; simpl; [discriminate|].
  destruct (str_eqb k' k) eqn:E.
  - apply str_eqb_eq in E. intros H. inversion H. subst. now left.
  - intros H. right. now apply IH.
Qed.

Lemma dict_get_none (d : dict V) (k : str) :
  dict_get d k = None <-> ~ In k (dict_keys d).
Proof.
  induction d as [|[k' v'] d IH]; simpl; [tauto|].
  destruct (str_eqb k' k) eqn:E.
  - apply str_eqb_eq in E. split; [discriminate | intros H; exfalso; auto].
  - apply str_eqb_neq in E. rewrite IH. tauto.
Qed.

Lemma in_dict_get (d : dict V) (k : str) (v : V) :
  NoDup (dict_keys d) -> In (k, v) d -> dict_get d k = Some v.
Proof.
  induction d as [|[k' v'] d IH]; simpl; [tauto|].
  intros Hnd [H | H]; inversion Hnd as [|? ? Hk Hd]; subst.
  - inversion H. subst. now rewrite str_eqb_refl.
  - destruct (str_eqb k' k) eqn:E.
    + apply str_eqb_eq in E. subst. exfalso. apply Hk.
      apply (in_map fst) in H. exact H.
    + now apply IH.
Qed.

Lemma dict_keys_set (d : dict V) (k : str) (v : V) :
  dict_keys (dict_set d k v)
  = if dict_has d k then dict_keys d else dict_keys d ++ [k].
Proof.
  unfold dict_has. induction d as [|[k' v'] d IH]; simpl; [reflexivity|].
  destruct (str_eqb k' k) eqn:E; simpl; [reflexivity|].
  rewrite IH. now destruct (dict_get d k).
Qed.

Lemma dict_has_in (d : dict V) (k : str) :
  dict_has d k = true <-> In k (dict_keys d).
Proof.
  unfold dict_has. destruct (dict_get d k) eqn:E.
  - split; [intros _ | reflexivity].
    apply dict_get_in in E. apply (in_map fst) in E. exact E.
  - apply dict_get_none in E. split; [discriminate | tauto].
Qed.

Lemma dict_set_nodup (d : dict V) (k : str) (v : V) :
  NoDup (dict_keys d) -> NoDup (dict_keys (dict_set d k v)).
Proof.
  intros H. rewrite dict_keys_set. destruct (dict_has d k) eqn:E; [exact H|].
  apply NoDup_app; [exact H | repeat constructor; simpl; tauto |].
  intros x Hx [<- | []].
  apply dict_has_in in Hx. congruence.
Qed.

Lemma dict_set_forall (P : str * V -> Prop) (d : dict V) (k : str) (v : V) :
  Forall P d -> (forall k', P (k', v)) -> Forall P (dict_set d k v).
Proof.
  intros H Hv. induction d as [|[k' v'] d IH]; simpl.
  - constructor; [apply Hv | constructor].
  - inversion H; subst. destruct (str_eqb k' k).
    + constructor; [apply Hv | assumption].
    + constructor; [assumption | now apply IH].
Qed.

Lemma dict_get_set (d : dict V) (k k' : str) (v : V) :
  dict_get (dict_set d k v) k'
  = if str_eqb k k' then Some v else dict_get d k'.
Proof.
  induction d as [|[k0 v0] d IH]; simpl.
  - reflexivity.
  - destruct (str_eqb k0 k) eqn:E; simpl.
    + apply str_eqb_eq in E. subst k0.
      now destruct (str_eqb k k').
    + rewrite IH. destruct (str_eqb k0 k') eqn:F; [|reflexivity].
      apply str_eqb_eq in F. subst k0.
      destruct (str_eqb k k') eqn:G; [|reflexivity].
      apply str_eqb_eq in G. subst. now rewrite str_eqb_refl in E.
Qed.

End Store.

Section Loading.

Import SearchEngine Spec.

Lemma load_pairs_inv (doc : document) (d : dict Obj) (lo next : nat) :
  (lo <= next)%nat -> NoDup (dict_keys d) -> allocated lo next d ->
  let '(d', next') := load_pairs doc d next in
  NoDup (dict_keys d') /\ allocated lo next' d' /\ (next <= next')%nat.
Proof.
  revert d next. induction doc as [|[k f] doc IH]; intros d next Hlo Hnd Hal.
  - simpl. auto.
  - cbn [load_pairs].
    specialize (IH (dict_set d k {| addr := next; fields := f |}) (S next)).
    destruct (load_pairs doc _ (S next)) as [d' next'].
    destruct IH as [H1 [H2 H3]].
    + lia.
    + now apply dict_set_nodup.
    + apply dict_set_forall.
      * eapply Forall_impl; [|exact Hal]. simpl. intros; lia.
      * intros k'. simpl. lia.
    + auto with arith.
Qed.

Lemma json_load_inv (doc : document) (next : nat) :
  let '(d, next') := json_load doc next in
  NoDup (dict_keys d) /\ allocated next next' d /\ (next <= next')%nat.
Proof.
  unfold json_load. apply load_pairs_inv; [lia | constructor | constructor].
Qed.

Lemma init_loaded (doc : document) (next next' : nat)
      (self : KnowledgeGraphSearch) :
  SearchEngine.init (Some doc) next = Ok (self, next') ->
  loaded self /\ allocated next next' (graph self) /\ (next <= next')%nat.
Proof.
  unfold SearchEngine.init. pose proof (json_load_inv doc next) as H.
  destruct (json_load doc next) as [g n]. intros E. inversion E; subst.
  destruct H as [H1 [H2 H3]]. unfold loaded. simpl. auto.
Qed.

Lemma init_total (doc : document) (next : nat) :
  exists self next', SearchEngine.init (Some doc) next = Ok (self, next').
Proof.
  unfold SearchEngine.init. destruct (json_load doc next) as [g n].
  eexists _, _. reflexivity.
Qed.

End Loading.

(* ================================================================== *)
(** * relation_search, keyword_search and snippet *)
(* ================================================================== *)

Section Loops.

Import SearchEngine Spec.

Context {H : Type}.

Lemma dict_set_fresh (d : dict H) (k : str) (h : H) :
  ~ In k (dict_keys d) -> dict_set d k h = d ++ [(k, h)].
Proof.
  induction d as [|[k' h'] d IH]; simpl; [reflexivity|].
  intros Hn. destruct (str_eqb k' k) eqn:E.
  - apply str_eqb_eq in E. tauto.
  - f_equal. apply IH. tauto.
Qed.

Lemma dict_keys_app {A} (d1 d2 : dict A) :
  dict_keys (d1 ++ d2) = dict_keys d1 ++ dict_keys d2.
Proof. apply map_app. Qed.

(** A loop that stores one entry per passing item fills the dictionary
    with [hits], as long as the keys are fresh. *)
Lemma loop_hits (f : str * Obj -> option H)
      (loop : dict Obj -> dict H -> dict H) :
  (forall out, loop [] out = out) ->
  (forall kv items out,
      loop (kv :: items) out
      = loop items (match f kv with
                    | Some h => dict_set out (fst kv) h
                    | None => out
                    end)) ->
  forall items out,
    NoDup (dict_keys out ++ dict_keys items) ->
    loop items out = out ++ hits f items.
Proof.
  intros Hnil Hcons. induction items as [|[k v] items IH]; intros out Hnd.
  - rewrite Hnil. simpl. now rewrite app_nil_r.
  - rewrite Hcons. cbn [hits flat_map fst]. fold (hits f items).
    simpl in Hnd. pose proof (NoDup_remove_1 _ _ _ Hnd) as Hnd1.
    pose proof (NoDup_remove_2 _ _ _ Hnd) as Hk.
    destruct (f (k, v)) as [h|].
    + rewrite dict_set_fresh by (intros G; apply Hk; apply in_or_app; now left).
      rewrite IH.
      * now rewrite <- app_assoc.
      * rewrite dict_keys_app. simpl. now rewrite <- app_assoc.
    + now apply IH.
Qed.

Lemma hits_in (f : str * Obj -> option H) (items : dict Obj)
      (k : str) (h : H) :
  In (k, h) (hits f items) <-> exists v, In (k, v) items /\ f (k, v) = Some h.
Proof.
  unfold hits. rewrite in_flat_map. split.
  - intros [[k' v] [Hin Hf]]. destruct (f (k', v)) eqn:E; [|contradiction].
    destruct Hf as [Hf | []]. inversion Hf; subst. simpl in *. now exists v.
  - intros [v [Hin Hf]]. exists (k, v). split; [exact Hin|].
    rewrite Hf. now left.
Qed.

End Loops.

Lemma keyword_search_hits (self : KnowledgeGraphSearch) (q : str) :
  loaded self ->
  keyword_search self q = hits (keyword_test q) (graph self).
Proof.
  intros [Hnd _]. unfold keyword_search.
  rewrite (loop_hits (keyword_test q) (keyword_loop q (lower q)));
    [reflexivity | reflexivity | | exact Hnd].
  intros [k v] items out. cbn [keyword_loop]. unfold keyword_test. simpl.
  now destruct (str_in _ _).
Qed.

Lemma relation_search_hits (self : KnowledgeGraphSearch) (rel : str) :
  loaded self ->
  relation_search self rel = hits (relation_test rel) (graph self).
Proof.
  intros [Hnd _]. unfold relation_search.
  rewrite (loop_hits (relation_test rel) (relation_loop (lower rel)));
    [reflexivity | reflexivity | | exact Hnd].
  intros [k v] items out. cbn [relation_loop]. unfold relation_test. simpl.
  now destruct (existsb _ _).
Qed.

(** The snippet around an occurrence contains the occurrence. *)
Lemma snippet_contains (text q : str) (w : Z) :
  0 <= w -> Substring (lower q) (lower text) ->
  exists m, Substring m (snippet text q w) /\ lower m = lower q.
Proof.
  intros Hw Hsub. unfold snippet. destruct (is_empty text) eqn:Ee.
  { destruct text; [|discriminate]. destruct Hsub as [bf [af Hs]].
    simpl in Hs. exists []. split; [now exists [], [] |].
    destruct bf; [|discriminate]. simpl in Hs.
    destruct (lower q); [reflexivity | discriminate]. }
  destruct (Z.eqb_spec (find (lower text) (lower q)) (-1)) as [E | E].
  { apply str_find_none in E. apply str_in_spec in Hsub. congruence. }
  destruct (str_find_some _ _ E) as [bf [af [Hl Hi]]]. rewrite Hi.
  destruct (lower_split _ _ _ _ Hl) as [x [y [z [Ht [Hx [Hy Hz]]]]]].
  exists y. split; [|exact Hy].
  assert (Lx : len bf = len x) by (rewrite <- Hx; apply len_lower).
  assert (Ly : len q = len y) by (rewrite <- (len_lower q), <- Hy; apply len_lower).
  pose proof (len_nonneg x). pose proof (len_nonneg y). pose proof (len_nonneg z).
  assert (Lt : len text = len x + len y + len z).
  { rewrite Ht, !len_app. lia. }
  destruct (slice_covers x y z (Z.max 0 (len bf - w))
                         (Z.min (len text) (len bf + len q + w)))
    as [x2 [z1 Hs]]; [lia | lia |].
  rewrite <- Ht in Hs. rewrite Hs.
  destruct (0 <? Z.max 0 (len bf - w));
    destruct (Z.min (len text) (len bf + len q + w) <? len text).
  - exists (lit "..." ++ x2), (z1 ++ lit "..."). now rewrite <- !app_assoc.
  - exists (lit "..." ++ x2), z1. now rewrite <- !app_assoc.
  - exists x2, (z1 ++ lit "..."). now rewrite <- !app_assoc.
  - now exists x2, z1.
Qed.

(** Without an occurrence in the text the snippet is the head of the
    text followed by an ellipsis. *)
Lemma snippet_absent (text q : str) (w : Z) :
  0 <= w -> ~ Substring (lower q) (lower text) ->
  snippet text q w
  = if is_empty text then [] else firstn (Z.to_nat (w * 2)) text ++ lit "...".
Proof.
  intros Hw Hsub. unfold snippet. destruct (is_empty text); [reflexivity|].
  destruct (Z.eqb_spec (find (lower text) (lower q)) (-1)) as [E | E].
  - rewrite slice_to_long by lia. reflexivity.
  - exfalso. apply Hsub. destruct (str_find_some _ _ E) as [bf [af [Hl _]]].
    now exists bf, af.
Qed.

(* ================================================================== *)
(** * exact_search and keyword_search on a loaded store *)
(* ================================================================== *)

(** C5.  For a loaded store, every text whose normalisation (trim,
    lowercase, separators to underscores, repeated underscores collapsed)
    is a key [k] of the store is answered by [exact_search] with the
    record stored at [k]; and a record is returned only when the
    normalised text is, as a whole, the key it is stored under. *)
Theorem exact_search_normalized
        (doc : document) (next next' : nat) (self : KnowledgeGraphSearch) :
  SearchEngine.init (Some doc) next = Ok (self, next') ->
  (forall k r text,
      In (k, r) (graph self) -> normalize_spec text = k ->
      exact_search self text = Some r)
  /\ (forall text r,
         exact_search self text = Some r ->
         In (normalize_spec text, r) (graph self)).
Proof.
  intros Hinit. destruct (init_loaded _ _ _ _ Hinit) as [[Hnd _] _].
  unfold exact_search. split.
  - intros k r text Hin Hk. rewrite normalize_key_spec, Hk.
    now apply in_dict_get.
  - intros text r H. rewrite normalize_key_spec in H.
    now apply dict_get_in.
Qed.

Lemma exact_search_normalized_witness :
  exact_search (engine_of catalogue) (lit "  Binary - Search ")
  = Some {| addr := 4;
            fields := binary_search_node |}.
Proof.
  apply (proj1 (exact_search_normalized catalogue 0 7 (engine_of catalogue)
                                        eq_refl)
               (lit "binary_search")).
  - vm_compute. tauto.
  - vm_compute. reflexivity.
Defined.

Lemma Substring_lower (m s : str) :
  Substring m s -> Substring (lower m) (lower s).
Proof.
  intros [bf [af ->]]. exists (lower bf), (lower af).
  now rewrite !lower_app.
Qed.

Lemma unique_value {V} (d : dict V) (k : str) (v v' : V) :
  NoDup (dict_keys d) -> In (k, v) d -> In (k, v') d -> v = v'.
Proof.
  intros Hnd H1 H2. apply (in_dict_get _ _ _ Hnd) in H1, H2. congruence.
Qed.

(** C4, as the code has it.  For a loaded store and every query, a
    record is a hit of [keyword_search] exactly when the lowercased
    query occurs in the lowercased concatenation of its name and
    description.  The snippet of a hit is taken from the description
    alone: when the lowercased query occurs in the lowercased
    description the snippet contains the occurrence, and otherwise (a
    match in the name, or across the end of the name) it is empty for an
    empty description and else the first 120 characters of the
    description followed by an ellipsis. *)
Theorem keyword_search_hits_snippets
        (doc : document) (next next' : nat) (self : KnowledgeGraphSearch)
        (q : str) :
  SearchEngine.init (Some doc) next = Ok (self, next') ->
  (forall k v,
      In (k, v) (graph self) ->
      ((exists hit, In (k, hit) (keyword_search self q))
       <-> Substring (lower q)
                     (lower (get_or (f_name (fields v)) []
                             ++ get_or (f_description (fields v)) []))))
  /\ (forall k hit,
         In (k, hit) (keyword_search self q) ->
         exists v,
           In (k, v) (graph self)
           /\ let desc := get_or (f_description (fields v)) [] in
              (Substring (lower q) (lower desc) ->
               exists m, Substring m (kw_snippet hit) /\ lower m = lower q)
              /\ (~ Substring (lower q) (lower desc) ->
                  kw_snippet hit
                  = if is_empty desc then []
                    else firstn 120 desc ++ lit "...")).
Proof.
  intros Hinit. destruct (init_loaded _ _ _ _ Hinit) as [Hl _].
  rewrite (keyword_search_hits self q Hl). destruct Hl as [Hnd _]. split.
  - intros k v Hin. rewrite <- str_in_spec. split.
    + intros [hit Hh]. apply hits_in in Hh. destruct Hh as [v' [Hin' Hf]].
      rewrite (unique_value _ _ _ _ Hnd Hin Hin').
      unfold keyword_test in Hf. simpl in Hf.
      now destruct (str_in _ _).
    + intros Hs. eexists. apply hits_in. exists v. split; [exact Hin|].
      unfold keyword_test. simpl. rewrite Hs. reflexivity.
  - intros k hit Hh. apply hits_in in Hh. destruct Hh as [v [Hin Hf]].
    exists v. split; [exact Hin|]. unfold keyword_test in Hf. simpl in Hf.
    destruct (str_in _ _); [|discriminate]. inversion Hf; subst hit.
    cbn [kw_snippet]. split.
    + intros Hs. apply snippet_contains; [lia | exact Hs].
    + intros Hs. now rewrite snippet_absent by (lia || exact Hs).
Qed.

Lemma keyword_search_hits_snippets_witness :
  (exists hit,
      In (lit "stack", hit) (keyword_search (engine_of catalogue) (lit "LIFO")))
  <-> Substring (lit "lifo")
                (lit "stacka linear structure supporting lifo access.").
Proof.
  apply (proj1 (keyword_search_hits_snippets
                  catalogue 0 7 (engine_of catalogue) (lit "LIFO") eq_refl)
               (lit "stack")
               {| addr := 0;
                  fields := stack_node |}).
  vm_compute. tauto.
Defined.

(** C4, counterexample.  The query [avl] hits the record [avl_tree]
    through its name; the description, 151 characters long, does not
    hold the query, and the snippet is its first 120 characters and an
    ellipsis: it neither contains the match nor is the description. *)
Lemma keyword_snippet_counterexample :
  exists v hit,
    In (lit "avl_tree", v) (graph (engine_of catalogue))
    /\ In (lit "avl_tree", hit)
          (keyword_search (engine_of catalogue) (lit "avl"))
    /\ ~ snippet_claim (get_or (f_description (fields v)) []) (lit "avl")
                       (kw_snippet hit).
Proof.
  eexists _, _. split; [|split].
  - vm_compute. do 3 right. left. reflexivity.
  - vm_compute. left. reflexivity.
  - intros [[m [Hm Hl]] | [Hlen _]].
    + apply Substring_lower in Hm. rewrite Hl in Hm.
      apply str_in_spec in Hm. vm_compute in Hm. discriminate.
    + vm_compute in Hlen. discriminate.
Qed.

(* ================================================================== *)
(** * SequenceMatcher: the loops finish *)
(* ================================================================== *)

Section MatchingBlocks.

Import Difflib.

Variables a b : str.

Lemma j2len_get_within (bound : Z) (m : list (Z * Z)) (j : Z) :
  0 <= bound -> runs_within bound m -> 0 <= j2len_get m j <= bound.
Proof.
  intros Hb Hm. unfold j2len_get.
  destruct (List.find (fun p => fst p =? j) m) as [p|] eqn:E; [|lia].
  apply List.find_some in E. destruct E as [Hin _].
  unfold runs_within in Hm. rewrite Forall_forall in Hm. now apply Hm.
Qed.

Lemma flm_row_inside (alo i blo bhi : Z) (js : list Z)
      (j2len newj2len : list (Z * Z)) (best : Match) :
  alo <= i ->
  runs_within (i - alo) j2len -> runs_within (i - alo + 1) newj2len ->
  inside alo (i + 1) best ->
  let '(new, best') := flm_row i blo bhi js j2len newj2len best in
  runs_within (i - alo + 1) new /\ inside alo (i + 1) best'.
Proof.
  intros Hi Hj. revert newj2len best.
  induction js as [|j js IH]; intros newj2len best Hn Hb; cbn [flm_row].
  - auto.
  - destruct (j <? blo); [now apply IH|].
    destruct (bhi <=? j); [auto|].
    destruct best as [[bi bj] bs].
    pose proof (j2len_get_within (i - alo) j2len (j - 1) ltac:(lia) Hj) as Hk.
    apply IH.
    + constructor; [simpl; lia | exact Hn].
    + destruct (bs <? j2len_get j2len (j - 1) + 1); [|exact Hb].
      unfold inside. lia.
Qed.

Lemma flm_rows_inside (n : nat) (alo i blo bhi : Z)
      (j2len : list (Z * Z)) (best : Match) :
  alo <= i -> runs_within (i - alo) j2len -> inside alo i best ->
  inside alo (i + Z.of_nat n) (flm_rows a b n i blo bhi j2len best).
Proof.
  revert i j2len best. induction n as [|n IH]; intros i j2len best Hi Hj Hb.
  - cbn [flm_rows]. now rewrite Z.add_0_r.
  - cbn [flm_rows].
    pose proof (flm_row_inside alo i blo bhi (b2j b (at_ a i)) j2len [] best
                               Hi Hj) as H.
    destruct (flm_row i blo bhi (b2j b (at_ a i)) j2len [] best)
      as [new best'].
    destruct H as [H1 H2].
    + constructor.
    + destruct best as [[bi bj] bs]. unfold inside in *. lia.
    + replace (i + Z.of_nat (S n)) with (i + 1 + Z.of_nat n) by lia.
      apply IH; [lia | | exact H2].
      now replace (i + 1 - alo) with (i - alo + 1) by lia.
Qed.

Lemma extend_low_inside (junk : bool) (fuel : nat) (alo ahi blo : Z)
      (m : Match) :
  inside alo ahi m -> inside alo ahi (extend_low a b junk fuel alo blo m).
Proof.
  revert m. induction fuel as [|f IH]; intros [[bi bj] bs] H;
    cbn [extend_low]; [exact H|].
  destruct (alo <? bi) eqn:E; cbn [andb]; [|exact H].
  destruct (_ && _); [|exact H].
  apply IH. apply Z.ltb_lt in E. unfold inside in *. lia.
Qed.

Lemma extend_high_inside (junk : bool) (fuel : nat) (alo ahi bhi : Z)
      (m : Match) :
  inside alo ahi m -> inside alo ahi (extend_high a b junk fuel ahi bhi m).
Proof.
  revert m. induction fuel as [|f IH]; intros [[bi bj] bs] H;
    cbn [extend_high]; [exact H|].
  destruct (bi + bs <? ahi) eqn:E; cbn [andb]; [|exact H].
  destruct (_ && _); [|exact H].
  apply IH. apply Z.ltb_lt in E. unfold inside in *. lia.
Qed.

(** The block that [find_longest_match] returns lies in the rows it was
    asked about. *)
Lemma find_longest_match_inside (alo ahi blo bhi : Z) :
  alo <= ahi -> inside alo ahi (find_longest_match a b alo ahi blo bhi).
Proof.
  intros H. unfold find_longest_match, low_all, high_all.
  pose proof (flm_rows_inside (Z.to_nat (ahi - alo)) alo alo blo bhi []
                              (alo, blo, 0)) as H0.
  replace (alo + Z.of_nat (Z.to_nat (ahi - alo))) with ahi in H0 by lia.
  specialize (H0 (Z.le_refl _)).
  set (m0 := flm_rows a b _ alo blo bhi [] (alo, blo, 0)) in *.
  assert (I0 : inside alo ahi m0).
  { apply H0; [constructor | unfold inside; lia]. }
  clearbody m0. clear H0.
  destruct m0 as [[i0 j0] k0].
  set (m1 := extend_low a b false _ alo blo (i0, j0, k0)).
  assert (I1 : inside alo ahi m1) by now apply extend_low_inside.
  clearbody m1. destruct m1 as [[i1 j1] k1].
  set (m2 := extend_high a b false _ ahi bhi (i1, j1, k1)).
  assert (I2 : inside alo ahi m2) by now apply extend_high_inside.
  clearbody m2. destruct m2 as [[i2 j2] k2].
  set (m3 := extend_low a b true _ alo blo (i2, j2, k2)).
  assert (I3 : inside alo ahi m3) by now apply extend_low_inside.
  clearbody m3. destruct m3 as [[i3 j3] k3].
  now apply extend_high_inside.
Qed.

Lemma work_nonneg (queue : list (Z * Z * Z * Z)) :
  well_formed queue -> 0 <= work queue.
Proof.
  induction queue as [|[[[x y] z] w] queue IH]; intros H; cbn [work]; [lia|].
  inversion H as [|? ? Hr Hq]; subst. simpl in Hr. specialize (IH Hq). lia.
Qed.

(** The work list empties within [work queue] iterations. *)
Lemma blocks_loop_total (fuel : nat) (queue : list (Z * Z * Z * Z))
      (acc : list Match) :
  well_formed queue -> work queue <= Z.of_nat fuel ->
  exists l, blocks_loop a b fuel queue acc = Some l.
Proof.
  revert queue acc. induction fuel as [|f IH]; intros queue acc Hw Hf;
    (destruct queue as [|[[[alo ahi] blo] bhi] queue]; [now exists acc|]);
    inversion Hw as [|? ? Hr Hq]; subst; simpl in Hr; cbn [work] in Hf;
    pose proof (work_nonneg queue Hq) as Hq0.
  - lia.
  - cbn [blocks_loop].
    pose proof (find_longest_match_inside alo ahi blo bhi Hr) as Hin.
    destruct (find_longest_match a b alo ahi blo bhi) as [[i j] k].
    unfold inside in Hin.
    destruct (Z.eqb_spec k 0) as [Hk | Hk].
    + apply IH; [exact Hq | lia].
    + apply IH.
      * destruct ((i + k <? ahi) && (j + k <? bhi));
          destruct ((alo <? i) && (blo <? j));
          repeat (constructor; try lia); exact Hq.
      * destruct ((i + k <? ahi) && (j + k <? bhi));
          destruct ((alo <? i) && (blo <? j)); cbn [work]; lia.
Qed.

(** [get_matching_blocks] finishes: the fuel of [matching_blocks] is
    never used up. *)
Lemma matching_blocks_total :
  exists l,
    blocks_loop a b (Z.to_nat (2 * len a + 1)) [(0, len a, 0, len b)] []
    = Some l.
Proof.
  apply blocks_loop_total.
  - constructor; [apply len_nonneg | constructor].
  - cbn [work]. pose proof (len_nonneg a). lia.
Qed.

End MatchingBlocks.

Section ExtensionFuel.

Import Difflib.

Variables a b : str.

(** Fuel beyond the distance to [alo] changes nothing: the low loops run
    to their exit condition. *)
Lemma extend_low_fuel (junk : bool) (extra fuel : nat) (alo blo : Z)
      (m : Match) :
  (Z.to_nat (fst (fst m) - alo) <= fuel)%nat ->
  extend_low a b junk (fuel + extra) alo blo m
  = extend_low a b junk fuel alo blo m.
Proof.
  revert m. induction fuel as [|f IH]; intros [[bi bj] bs] H; simpl in H.
  - destruct extra as [|e]; [reflexivity|]. cbn [Nat.add extend_low].
    destruct (Z.ltb_spec alo bi); [lia | reflexivity].
  - cbn [Nat.add extend_low]. destruct (_ && _) eqn:E; [|reflexivity].
    apply IH. simpl. lia.
Qed.

(** Likewise for the high loops and the distance to [ahi]. *)
Lemma extend_high_fuel (junk : bool) (extra fuel : nat) (ahi bhi : Z)
      (m : Match) :
  (Z.to_nat (ahi - (fst (fst m) + snd m)) <= fuel)%nat ->
  extend_high a b junk (fuel + extra) ahi bhi m
  = extend_high a b junk fuel ahi bhi m.
Proof.
  revert m. induction fuel as [|f IH]; intros [[bi bj] bs] H; simpl in H.
  - destruct extra as [|e]; [reflexivity|]. cbn [Nat.add extend_high].
    destruct (Z.ltb_spec (bi + bs) ahi); [lia | reflexivity].
  - cbn [Nat.add extend_high].
    destruct (Z.ltb_spec (bi + bs) ahi); cbn [andb]; [|reflexivity].
    destruct (_ && _) eqn:E; [|reflexivity].
    apply IH. simpl. lia.
Qed.

End ExtensionFuel.

(* ================================================================== *)
(** * Sorting, get_close_matches and fuzzy_search *)
(* ================================================================== *)

Section Sorting.

Context {A : Type} (cmp : A -> A -> comparison).

Lemma insert_desc_perm (x : A) (l : list A) :
  Permutation (insert_desc cmp x l) (x :: l).
Proof.
  induction l as [|y l IH]; simpl; [reflexivity|].
  destruct (cmp x y); try reflexivity;
    (etransitivity; [apply perm_skip, IH | apply perm_swap]).
Qed.

Lemma sorted_desc_perm (l : list A) : Permutation (sorted_desc cmp l) l.
Proof.
  unfold sorted_desc.
  assert (G : forall acc, Permutation
                (fold_left (fun acc x => insert_desc cmp x acc) l acc)
                (acc ++ l)).
  { induction l as [|x l IH]; intros acc; simpl.
    - now rewrite app_nil_r.
    - rewrite IH, insert_desc_perm. apply Permutation_middle. }
  apply (G []).
Qed.

Hypothesis cmp_opp : forall x y, cmp y x = CompOpp (cmp x y).

Lemma insert_desc_sorted (x : A) (l : list A) :
  Sorted (not_below cmp) l -> Sorted (not_below cmp) (insert_desc cmp x l).
Proof.
  induction l as [|y l IH]; intros Hs; simpl.
  - repeat constructor.
  - destruct (cmp x y) eqn:E.
    + inversion Hs as [|? ? Hs' Hh]; subst. constructor; [now apply IH|].
      assert (Hyx : not_below cmp y x).
      { unfold not_below. rewrite cmp_opp, E. discriminate. }
      destruct l as [|z l]; simpl; [now constructor|].
      destruct (cmp x z); constructor; auto; now inversion Hh.
    + inversion Hs as [|? ? Hs' Hh]; subst. constructor; [now apply IH|].
      assert (Hyx : not_below cmp y x).
      { unfold not_below. rewrite cmp_opp, E. discriminate. }
      destruct l as [|z l]; simpl; [now constructor|].
      destruct (cmp x z); constructor; auto; now inversion Hh.
    + constructor; [exact Hs|]. constructor. unfold not_below. congruence.
Qed.

Lemma sorted_desc_sorted (l : list A) : Sorted (not_below cmp) (sorted_desc cmp l).
Proof.
  unfold sorted_desc.
  assert (G : forall acc, Sorted (not_below cmp) acc ->
     Sorted (not_below cmp) (fold_left (fun acc x => insert_desc cmp x acc) l acc)).
  { induction l as [|x l IH]; intros acc Ha; simpl; [exact Ha|].
    apply IH. now apply insert_desc_sorted. }
  apply G. constructor.
Qed.

End Sorting.

Lemma Sorted_firstn {A} (R : A -> A -> Prop) (n : nat) (l : list A) :
  Sorted R l -> Sorted R (firstn n l).
Proof.
  revert l. induction n as [|n IH]; intros l Hs; [constructor|].
  destruct l as [|x l]; [constructor|]. simpl.
  inversion Hs as [|? ? Hs' Hh]; subst. constructor; [now apply IH|].
  destruct l as [|y l]; [destruct n; constructor|].
  destruct n; simpl; constructor. now inversion Hh.
Qed.

Lemma in_firstn {A} (n : nat) (l : list A) (x : A) :
  In x (firstn n l) -> In x l.
Proof.
  revert l. induction n as [|n IH]; intros [|y l]; simpl; try tauto.
  intros [H | H]; [now left | right; now apply IH].
Qed.

Lemma Forall_firstn_of {A} (P : A -> Prop) (n : nat) (l : list A) :
  Forall P l -> Forall P (firstn n l).
Proof.
  rewrite !Forall_forall. intros H x Hx. apply H. now apply in_firstn in Hx.
Qed.

Lemma NoDup_firstn_of {A} (n : nat) (l : list A) :
  NoDup l -> NoDup (firstn n l).
Proof.
  intros H. rewrite <- (firstn_skipn n l) in H.
  now apply NoDup_app_remove_r in H.
Qed.

Lemma str_compare_opp (s t : str) :
  str_compare t s = CompOpp (str_compare s t).
Proof.
  revert t. induction s as [|c s IH]; intros [|d t]; simpl; try reflexivity.
  rewrite (N.compare_antisym (code c) (code d)).
  destruct (N.compare (code c) (code d)); simpl; auto.
Qed.

Lemma scored_compare_opp (x y : Q * str) :
  Difflib.scored_compare y x = CompOpp (Difflib.scored_compare x y).
Proof.
  unfold Difflib.scored_compare. rewrite <- (Qcompare_antisym (fst x) (fst y)).
  destruct (fst x ?= fst y)%Q; simpl; auto. apply str_compare_opp.
Qed.

Lemma close_candidates_spec (word : str) (poss : list str) (cutoff : Q) :
  Difflib.close_candidates word poss cutoff
  = map (fun x => (selection_ratio word x, x))
        (filter (selected word cutoff) poss).
Proof.
  induction poss as [|x poss IH]; simpl; [reflexivity|].
  fold (selected word cutoff x). destruct (selected word cutoff x); simpl;
    now rewrite IH.
Qed.

Lemma Sorted_map_snd (word : str) (l : list (Q * str)) :
  Forall (fun p => fst p = selection_ratio word (snd p)) l ->
  Sorted (not_below Difflib.scored_compare) l ->
  Sorted (ranked word) (map snd l).
Proof.
  induction l as [|[s k] l IH]; intros Hf Hs; simpl; [constructor|].
  inversion Hf as [|? ? Hk Hf']; subst. inversion Hs as [|? ? Hs' Hh]; subst.
  constructor; [now apply IH|].
  destruct l as [|[s2 k2] l]; simpl; [constructor|]. constructor.
  inversion Hh as [|? ? Hr]; subst. inversion Hf' as [|? ? Hk2 _]; subst.
  simpl in Hk, Hk2. subst s s2. exact Hr.
Qed.

(** What [get_close_matches] returns for valid [n] and [cutoff]. *)
Lemma get_close_matches_ok (word : str) (poss : list str) (n : Z) (cutoff : Q) :
  0 < n -> (0 <= cutoff)%Q -> (cutoff <= 1)%Q -> NoDup poss ->
  exists close,
    Difflib.get_close_matches word poss n cutoff = Ok close
    /\ (Z.of_nat (List.length close) <= n)
    /\ NoDup close
    /\ (forall k, In k close ->
                  In k poss /\ (cutoff <= selection_ratio word k)%Q)
    /\ Sorted (ranked word) close.
Proof.
  intros Hn H0 H1 Hnd. unfold Difflib.get_close_matches.
  destruct (Z.ltb_spec 0 n); [|lia]. cbn [negb].
  apply Qle_bool_iff in H0, H1. rewrite H0, H1. cbn [andb negb].
  eexists. split; [reflexivity|].
  unfold Difflib.nlargest. rewrite close_candidates_spec.
  set (cands := map _ (filter _ poss)).
  set (sorted := sorted_desc Difflib.scored_compare cands).
  assert (Hp : Permutation sorted cands) by apply sorted_desc_perm.
  assert (Hc : Forall (fun p => fst p = selection_ratio word (snd p)
                                /\ In (snd p) poss
                                /\ selected word cutoff (snd p) = true) cands).
  { apply Forall_forall. intros p Hin. unfold cands in Hin.
    apply in_map_iff in Hin. destruct Hin as [x [<- Hx]].
    apply filter_In in Hx. simpl. tauto. }
  assert (Hs : Forall (fun p => fst p = selection_ratio word (snd p)
                                /\ In (snd p) poss
                                /\ selected word cutoff (snd p) = true) sorted).
  { eapply Permutation_Forall; [symmetry; exact Hp | exact Hc]. }
  assert (Hndc : NoDup (map snd cands)).
  { unfold cands. rewrite map_map. simpl. rewrite map_id.
    now apply NoDup_filter. }
  assert (Hnds : NoDup (map snd sorted)).
  { eapply Permutation_NoDup; [|exact Hndc].
    apply Permutation_map. symmetry. exact Hp. }
  split; [|split; [|split]].
  - rewrite length_map, length_firstn. lia.
  - rewrite <- firstn_map. now apply NoDup_firstn_of.
  - intros k Hk. apply in_map_iff in Hk. destruct Hk as [p [<- Hp']].
    assert (Hin : In p sorted) by (now apply in_firstn in Hp').
    rewrite Forall_forall in Hs. destruct (Hs p Hin) as [_ [Hposs Hsel]].
    split; [exact Hposs|]. unfold selected in Hsel.
    apply andb_true_iff in Hsel. destruct Hsel as [_ Hr].
    now apply Qle_bool_iff in Hr.
  - apply Sorted_map_snd.
    + apply Forall_firstn_of. eapply Forall_impl; [|exact Hs]. simpl. tauto.
    + apply Sorted_firstn. apply sorted_desc_sorted. apply scored_compare_opp.
Qed.

Lemma get_close_matches_raises (word : str) (poss : list str) (n : Z)
      (cutoff : Q) :
  n <= 0 \/ ~ (0 <= cutoff <= 1)%Q ->
  Difflib.get_close_matches word poss n cutoff = Raise ValueError.
Proof.
  intros H. unfold Difflib.get_close_matches.
  destruct (Z.ltb_spec 0 n); cbn [negb]; [|reflexivity].
  destruct H as [H | H]; [lia|].
  destruct (Qle_bool 0 cutoff && Qle_bool cutoff 1) eqn:E; [|reflexivity].
  apply andb_true_iff in E. rewrite !Qle_bool_iff in E. tauto.
Qed.

(** The loop of [fuzzy_search] never misses a key of the store, and adds
    the keys of [close] in their order. *)
Lemma fuzzy_loop_ok (self : KnowledgeGraphSearch) (norm : str)
      (close : list str) (res : dict FuzzyHit) :
  (forall k, In k close -> In k (dict_keys (graph self))) ->
  NoDup (dict_keys res ++ close) ->
  exists res',
    fuzzy_loop self norm close res = Ok res'
    /\ dict_keys res' = dict_keys res ++ close.
Proof.
  revert res. induction close as [|k close IH]; intros res Hin Hnd.
  - exists res. simpl. now rewrite app_nil_r.
  - cbn [fuzzy_loop].
    destruct (dict_get (graph self) k) as [d|] eqn:E.
    2:{ apply dict_get_none in E. exfalso. apply E, Hin. now left. }
    pose proof (NoDup_remove_2 _ _ _ Hnd) as Hk.
    set (h := {| fz_name := _; fz_type := _; match_score := _ |}).
    destruct (IH (dict_set res k h)) as [res' [H1 H2]].
    + intros k' Hk'. apply Hin. now right.
    + rewrite dict_set_fresh by (intros G; apply Hk, in_or_app; now left).
      rewrite dict_keys_app. simpl. now rewrite <- app_assoc.
    + exists res'. split; [exact H1|]. rewrite H2.
      rewrite dict_set_fresh by (intros G; apply Hk, in_or_app; now left).
      rewrite dict_keys_app. simpl. now rewrite <- app_assoc.
Qed.

(** With a valid limit and cutoff [fuzzy_search] returns the keys that
    [get_close_matches] selected, in its order. *)
Lemma fuzzy_search_ranked (self : KnowledgeGraphSearch) (q : str)
      (limit : Z) (cutoff : Q) :
  loaded self ->
  0 < limit -> (0 <= cutoff)%Q -> (cutoff <= 1)%Q ->
  exists res,
    fuzzy_search self q limit cutoff = Ok res
    /\ Z.of_nat (List.length res) <= limit
    /\ (forall k, In k (dict_keys res) ->
                  In k (dict_keys (graph self))
                  /\ (cutoff <= selection_ratio (normalize_key q) k)%Q)
    /\ Sorted (ranked (normalize_key q)) (dict_keys res).
Proof.
  intros [Hnd Hkeys] Hl H0 H1.
  unfold fuzzy_search.
  destruct (get_close_matches_ok (normalize_key q) (concept_keys self)
                                 limit cutoff Hl H0 H1)
    as [close [Hc [Hlen [Hndc [Hsel Hsort]]]]].
  { now rewrite Hkeys. }
  rewrite Hc. cbn [bind].
  destruct (fuzzy_loop_ok self (normalize_key q) close []) as [res [Hr Hk]].
  - intros k Hk. rewrite <- Hkeys. now apply Hsel.
  - exact Hndc.
  - simpl in Hk. exists res. split; [exact Hr|].
    split; [|split].
    + replace (List.length res) with (List.length (dict_keys res))
        by apply length_map.
      now rewrite Hk.
    + rewrite Hk. intros k Hin. rewrite <- Hkeys. now apply Hsel.
    + now rewrite Hk.
Qed.

(** The combined search of a loaded store returns. *)
Lemma comprehensive_search_ok (self : KnowledgeGraphSearch) (q : str) :
  loaded self ->
  exists fz,
    fuzzy_search self q 5 (6 # 10) = Ok fz
    /\ comprehensive_search self q
       = Ok {| exact := exact_search self q;
               fuzzy := fz;
               related := relation_search self q;
               keyword := keyword_search self q |}.
Proof.
  intros Hl.
  destruct (fuzzy_search_ranked self q 5 (6 # 10) Hl) as [fz [Hf _]];
    [lia | unfold Qle; simpl; lia | unfold Qle; simpl; lia |].
  exists fz. split; [exact Hf|]. unfold comprehensive_search.
  now rewrite Hf.
Qed.

(** C1, as the code has it.  For a loaded store, every query, every
    limit of at least 1 and every cutoff from 0 to 1, [fuzzy_search]
    returns at most [limit] entries; every entry is a key of the store
    whose selection ratio (the ratio [get_close_matches] computes, the
    key first and the normalised query second) is at least [cutoff];
    and the entries are in descending order of that ratio, tied keys in
    descending order of the keys. *)
Theorem fuzzy_search_selection
        (doc : document) (next next' : nat) (self : KnowledgeGraphSearch)
        (q : str) (limit : Z) (cutoff : Q) :
  SearchEngine.init (Some doc) next = Ok (self, next') ->
  0 < limit -> (0 <= cutoff)%Q -> (cutoff <= 1)%Q ->
  exists res,
    fuzzy_search self q limit cutoff = Ok res
    /\ Z.of_nat (List.length res) <= limit
    /\ (forall k, In k (dict_keys res) ->
                  In k (dict_keys (graph self))
                  /\ (cutoff <= selection_ratio (normalize_key q) k)%Q)
    /\ Sorted (ranked (normalize_key q)) (dict_keys res).
Proof.
  intros Hinit. destruct (init_loaded _ _ _ _ Hinit) as [Hl _].
  now apply fuzzy_search_ranked.
Qed.

Lemma fuzzy_search_selection_witness :
  exists res,
    fuzzy_search (engine_of catalogue) (lit "sbs") 5 (6 # 10) = Ok res
    /\ Z.of_nat (List.length res) <= 5
    /\ (forall k, In k (dict_keys res) ->
                  In k (dict_keys (graph (engine_of catalogue)))
                  /\ (6 # 10 <= selection_ratio (normalize_key (lit "sbs")) k)%Q)
    /\ Sorted (ranked (normalize_key (lit "sbs"))) (dict_keys res).
Proof.
  apply (fuzzy_search_selection catalogue 0 7 (engine_of catalogue)
                                (lit "sbs") 5 (6 # 10) eq_refl).
  - lia.
  - unfold Qle. simpl. lia.
  - unfold Qle. simpl. lia.
Defined.

(** With a limit below 1 or a cutoff outside 0..1 the call raises. *)
Lemma fuzzy_search_raises (self : KnowledgeGraphSearch) (q : str)
      (limit : Z) (cutoff : Q) :
  limit <= 0 \/ ~ (0 <= cutoff <= 1)%Q ->
  fuzzy_search self q limit cutoff = Raise ValueError.
Proof.
  intros H. unfold fuzzy_search.
  now rewrite get_close_matches_raises.
Qed.

(** C1, counterexamples.  On the catalogue the query [sds] with the
    default limit 5 and cutoff 0.6 returns the key [dfs] with the
    reported score 1/3: the key was selected with the ratio 2/3 of
    [dfs] against [sds], the score is the ratio of [sds] against [dfs].
    On a store with the keys [xa], [xb] in this order the query [x]
    returns [xb] before [xa], both with the score 2/3. *)
Lemma fuzzy_claim_counterexample :
  ~ fuzzy_claim (engine_of catalogue) (lit "sds") 5 (6 # 10)
  /\ ~ fuzzy_claim (engine_of tie_catalogue) (lit "x") 5 (6 # 10).
Proof.
  split; intros [res [Hr [_ [Hc Hs]]]].
  - vm_compute in Hr. inversion Hr; subst res. clear Hr.
    inversion Hc as [|? ? H _]; subst. simpl in H.
    unfold Qle in H. simpl in H. lia.
  - vm_compute in Hr. inversion Hr; subst res. clear Hr.
    inversion Hs as [|? ? _ Hh]; subst. inversion Hh as [|? ? H]; subst.
    destruct H as [H | [_ H]].
    + simpl in H. unfold Qlt in H. simpl in H. lia.
    + vm_compute in H. lia.
Qed.

Example fuzzy_sds :
  fuzzy_search (engine_of catalogue) (lit "sds") 5 (6 # 10)
  = Ok [(lit "dfs", {| fz_name := lit "Depth-First Search";
                       fz_type := lit "graph_algorithm";
                       match_score := 2 # 6 |})]
  /\ selection_ratio (lit "sds") (lit "dfs") = 4 # 6.
Proof. split; reflexivity. Qed.

(* ================================================================== *)
(** * The selector and explain_concept *)
(* ================================================================== *)

Section Selector.

Variable fill : str -> Z -> str.

Lemma is_refl (o : Obj) : is_ o o = true.
Proof. unfold is_. apply Nat.eqb_refl. Qed.

(** A truthy exact record is selected, whatever the other fields hold. *)
Lemma pick_exact (self : DsaTutorEngine) (results : Composite) (c : Obj) :
  exact results = Some c -> nonempty (fields c) = true ->
  pick_best_concept_from_results self results = Some c.
Proof.
  intros He Hn. unfold pick_best_concept_from_results, exact_truthy.
  now rewrite He, Hn.
Qed.

Lemma explain_results_exact (self : DsaTutorEngine) (query : str)
      (results : Composite) (c : Obj) :
  exact results = Some c -> nonempty (fields c) = true ->
  let ans := explain_results fill self query results in
  match_source ans = exact_source
  /\ concept ans = Some c
  /\ matched_key ans = find_matched_key (kg self) c
  /\ Tutor.query ans = query.
Proof.
  intros He Hn. unfold explain_results.
  rewrite (pick_exact self results c He Hn), He, is_refl.
  cbn. auto.
Qed.

Lemma find_matched_key_none (items : dict Obj) (c : Obj) :
  (forall k o, In (k, o) items -> is_ o c = false) ->
  find_matched_key items c = None.
Proof.
  induction items as [|[k o] items IH]; intros H; simpl; [reflexivity|].
  rewrite (H k o) by now left. apply IH. intros k' o' Hin.
  apply (H k' o'). now right.
Qed.

(** The tutor holds its own objects, below those of its engine. *)
Lemma tutor_init_inv (doc : document) (next next' : nat)
      (self : DsaTutorEngine) :
  Tutor.init (Some doc) next = Ok (self, next') ->
  exists mid,
    allocated next mid (kg self)
    /\ SearchEngine.init (Some doc) mid = Ok (engine self, next').
Proof.
  unfold Tutor.init. pose proof (json_load_inv doc next) as Hj.
  destruct (json_load doc next) as [own mid]. destruct Hj as [_ [Ha _]].
  destruct (init_total doc mid) as [e [n He]]. rewrite He. cbn.
  intros H. inversion H; subst. exists mid. simpl. auto.
Qed.

Lemma separate_objects (lo mid hi : nat) (own store : dict Obj)
      (k k' : str) (o c : Obj) :
  allocated lo mid own -> allocated mid hi store ->
  In (k, o) own -> In (k', c) store -> is_ o c = false.
Proof.
  unfold allocated. rewrite !Forall_forall. intros H1 H2 Ho Hc.
  specialize (H1 _ Ho). specialize (H2 _ Hc). simpl in *.
  unfold is_. apply Nat.eqb_neq. lia.
Qed.

(** What [explain_concept] does on a non-blank name over a loaded
    store. *)
Lemma explain_concept_runs (self : DsaTutorEngine) (name : str) :
  loaded (engine self) -> blank name = false ->
  exists results,
    comprehensive_search (engine self) (strip name) = Ok results
    /\ exact results = exact_search (engine self) name
    /\ explain_concept fill self name
       = Ok (explain_results fill self (strip name) results).
Proof.
  intros Hl Hb. destruct (comprehensive_search_ok _ (strip name) Hl)
    as [fz [_ Hc]].
  eexists. split; [exact Hc|]. split.
  - simpl. unfold exact_search. now rewrite normalize_key_strip.
  - unfold explain_concept. rewrite is_empty_strip, Hb, Hc. reflexivity.
Qed.

End Selector.

(** C2, as the code has it.  For every composite result whose exact
    field holds a record that is not the empty object, and whose fuzzy
    mapping is non-empty, the selector returns the exact record and the
    reported source is [exact]. *)
Theorem exact_has_priority
        (fill : str -> Z -> str) (self : DsaTutorEngine) (query : str)
        (results : Composite) (c : Obj) :
  exact results = Some c -> nonempty (fields c) = true ->
  fuzzy results <> [] ->
  pick_best_concept_from_results self results = Some c
  /\ match_source (explain_results fill self query results) = exact_source
  /\ concept (explain_results fill self query results) = Some c.
Proof.
  intros He Hn _. split; [now apply pick_exact|].
  destruct (explain_results_exact fill self query results c He Hn)
    as [H1 [H2 _]].
  auto.
Qed.

Lemma exact_has_priority_witness :
  pick_best_concept_from_results (tutor_of catalogue) stack_composite
  = Some {| addr := 7; fields := stack_node |}
  /\ match_source (explain_results no_wrap (tutor_of catalogue) (lit "stack")
                                   stack_composite) = exact_source
  /\ concept (explain_results no_wrap (tutor_of catalogue) (lit "stack")
                              stack_composite)
     = Some {| addr := 7; fields := stack_node |}.
Proof.
  apply (exact_has_priority no_wrap (tutor_of catalogue) (lit "stack")
                            stack_composite).
  - reflexivity.
  - reflexivity.
  - discriminate.
Defined.

(** C2, counterexample.  In a store whose record [stack] is the empty
    object, the composite result of the query [stack] holds that record
    in its exact field and the key in its fuzzy mapping; the selector
    passes the exact field by, returns the tutor's own object for the
    best fuzzy key, and the source is [fuzzy]. *)
Lemma exact_priority_counterexample :
  exists results,
    comprehensive_search (engine (tutor_of hollow_catalogue)) (lit "stack")
    = Ok results
    /\ ~ exact_priority_claim no_wrap (tutor_of hollow_catalogue)
                              (lit "stack") results.
Proof.
  eexists. split; [vm_compute; reflexivity|].
  intros H. destruct (H _ eq_refl ltac:(discriminate)) as [_ Hs].
  vm_compute in Hs. discriminate.
Qed.

(** C10, as the code has it.  The tutor and its engine load the file
    separately, so no object of the tutor's graph is the record that the
    engine's exact search returns.  Hence, for every non-blank query on
    which the exact strategy finds a record that is not the empty
    object, [explain_concept] returns that record with source [exact]
    and with no matched key. *)
Theorem exact_match_has_no_key
        (fill : str -> Z -> str) (doc : document) (next next' : nat)
        (self : DsaTutorEngine) (q : str) (c : Obj) :
  Tutor.init (Some doc) next = Ok (self, next') ->
  blank q = false ->
  exact_search (engine self) q = Some c ->
  nonempty (fields c) = true ->
  (forall k o, In (k, o) (kg self) -> is_ o c = false)
  /\ exists ans,
      explain_concept fill self q = Ok ans
      /\ match_source ans = exact_source
      /\ matched_key ans = None
      /\ concept ans = Some c.
Proof.
  intros Hinit Hb He Hn.
  destruct (tutor_init_inv _ _ _ _ Hinit) as [mid [Hown Hen]].
  destruct (init_loaded _ _ _ _ Hen) as [Hl [Hst _]].
  assert (Hsep : forall k o, In (k, o) (kg self) -> is_ o c = false).
  { intros k o Ho. unfold exact_search in He. apply dict_get_in in He.
    exact (separate_objects _ _ _ _ _ _ _ _ _ Hown Hst Ho He). }
  split; [exact Hsep|].
  destruct (explain_concept_runs fill self q Hl Hb) as [results [_ [Hx Hr]]].
  rewrite He in Hx.
  destruct (explain_results_exact fill self (strip q) results c Hx Hn)
    as [H1 [H2 [H3 _]]].
  eexists. split; [exact Hr|]. split; [exact H1|]. split; [|exact H2].
  rewrite H3. now apply find_matched_key_none.
Qed.

Lemma exact_match_has_no_key_witness :
  (forall k o, In (k, o) (kg (tutor_of catalogue)) ->
               is_ o {| addr := 7; fields := stack_node |} = false)
  /\ exists ans,
      explain_concept no_wrap (tutor_of catalogue) (lit "Stack") = Ok ans
      /\ match_source ans = exact_source
      /\ matched_key ans = None
      /\ concept ans = Some {| addr := 7; fields := stack_node |}.
Proof.
  apply (exact_match_has_no_key no_wrap catalogue 0 14 (tutor_of catalogue)
                                (lit "Stack")).
  - reflexivity.
  - reflexivity.
  - reflexivity.
  - reflexivity.
Defined.

(** C10, counterexamples.  Where the record found is the empty object
    the source is [fuzzy] and the key is reported; and on a store with
    the empty key the blank query [ ] finds that record by the exact
    strategy while [explain_concept] asks for a name. *)
Lemma exact_key_counterexample :
  ~ exact_key_claim no_wrap (tutor_of hollow_catalogue) (lit "stack")
  /\ ~ exact_key_claim no_wrap (tutor_of blank_key_catalogue) (lit " ").
Proof.
  split; intros H.
  - destruct (H _ eq_refl) as [ans [Ha [Hs _]]].
    vm_compute in Ha. inversion Ha; subst ans. discriminate.
  - destruct (H _ eq_refl) as [ans [Ha [Hs _]]].
    vm_compute in Ha. inversion Ha; subst ans. discriminate.
Qed.

Example explain_hollow_stack :
  exists ans,
    explain_concept no_wrap (tutor_of hollow_catalogue) (lit "stack") = Ok ans
    /\ match_source ans = fuzzy_source
    /\ matched_key ans = Some (lit "stack").
Proof. eexists. split; [vm_compute; reflexivity | split; reflexivity]. Qed.

(* ================================================================== *)
(** * explain_concept and answer *)
(* ================================================================== *)

(** C3.  When the composite result of a query has no exact record, an
    empty fuzzy mapping and an empty keyword mapping, the selector
    returns no concept, whatever the relation strategy matched; the
    answer built from that result has source [none], no concept and the
    not-found message for the query, and so has the answer of
    [explain_concept] for a name whose search gave that result. *)
Theorem relation_hits_not_selected
        (fill : str -> Z -> str) (self : DsaTutorEngine)
        (results : Composite) :
  exact results = None -> fuzzy results = [] -> keyword results = [] ->
  pick_best_concept_from_results self results = None
  /\ (forall query,
         explain_results fill self query results = nothing_found query)
  /\ (forall concept_name,
         blank concept_name = false ->
         comprehensive_search (engine self) (strip concept_name) = Ok results ->
         explain_concept fill self concept_name
         = Ok (nothing_found (strip concept_name))).
Proof.
  intros He Hf Hk.
  assert (Hp : pick_best_concept_from_results self results = None).
  { unfold pick_best_concept_from_results, exact_truthy.
    now rewrite He, Hf, Hk. }
  split; [exact Hp|]. split.
  - intros query. unfold explain_results. now rewrite Hp.
  - intros name Hb Hc. unfold explain_concept.
    rewrite is_empty_strip, Hb, Hc. cbn [bind]. unfold explain_results.
    now rewrite Hp.
Qed.

Lemma relation_hits_not_selected_witness :
  related lifo_composite <> []
  /\ explain_concept no_wrap (tutor_of catalogue) (lit "lifo_structure")
     = Ok (nothing_found (lit "lifo_structure")).
Proof.
  split; [discriminate|].
  apply (proj2 (proj2 (relation_hits_not_selected
                         no_wrap (tutor_of catalogue) lifo_composite
                         eq_refl eq_refl eq_refl))
               (lit "lifo_structure")).
  - reflexivity.
  - vm_compute. reflexivity.
Defined.

Section Answer.

Variable fill : str -> Z -> str.
Variable self : DsaTutorEngine.

Lemma startswith_app (p r : str) : startswith (p ++ r) p = true.
Proof. apply startswith_spec. now exists r. Qed.

(** The three prefixes exclude one another, so the first that matches
    is the only one. *)
Lemma answer_prefixes_match (query_clean : str) (prefix : str) :
  In prefix prefixes ->
  startswith (lower query_clean) prefix = true ->
  answer_prefixes fill self query_clean (lower query_clean) prefixes
  = explain_concept fill self
                    (strip (slice_from query_clean (len prefix))).
Proof.
  intros Hin Hs. pose proof Hs as Hr. apply startswith_spec in Hr.
  destruct Hr as [r Hr]. unfold prefixes in *. cbn [answer_prefixes].
  destruct Hin as [<- | [<- | [<- | []]]].
  - now rewrite Hs.
  - rewrite Hs. now rewrite Hr.
  - rewrite Hs. now rewrite Hr.
Qed.

Lemma answer_prefixes_none (query_clean : str) :
  (forall prefix, In prefix prefixes ->
                  startswith (lower query_clean) prefix = false) ->
  answer_prefixes fill self query_clean (lower query_clean) prefixes
  = answer_generic fill self query_clean.
Proof.
  intros H. unfold prefixes in *. cbn [answer_prefixes].
  rewrite !H by (simpl; auto). reflexivity.
Qed.

End Answer.

(* ================================================================== *)
(** * Blank input *)
(* ================================================================== *)

Lemma lower_char_space (c : ascii) :
  lower_char c = " "%char -> c = " "%char.
Proof.
  destruct c as [[] [] [] [] [] [] [] []]; vm_compute; intros H;
    try discriminate H; reflexivity.
Qed.

Lemma map_eq_snoc {A B} (f : A -> B) (l : list A) (p : list B) (e : B) :
  map f l = p ++ [e] -> exists l' d, l = l' ++ [d] /\ f d = e.
Proof.
  intros H. apply map_eq_app in H. destruct H as [l1 [l2 [-> [_ H2]]]].
  destruct l2 as [|d [|x l2]]; try discriminate.
  inversion H2. now exists l1, d.
Qed.

Lemma slice_from_app (x y : str) : slice_from (x ++ y) (len x) = y.
Proof.
  unfold slice_from. pose proof (slice_inside x y []) as H.
  rewrite app_nil_r in H. rewrite <- H at 3. f_equal.
  now rewrite len_app.
Qed.

Lemma prefix_ends_with_space (prefix : str) :
  In prefix prefixes -> exists p, prefix = p ++ [" "%char].
Proof.
  unfold prefixes. intros [<- | [<- | [<- | []]]].
  - now exists (lit "explain").
  - now exists (lit "what is").
  - now exists (lit "define").
Qed.

(** In [answer] the prefix is tested on the trimmed query, whose last
    character is not a space: what follows the prefix is never blank. *)
Lemma remainder_not_blank (q prefix : str) :
  In prefix prefixes ->
  startswith (lower (strip q)) prefix = true ->
  blank (slice_from (strip q) (len prefix)) = false.
Proof.
  intros Hin Hs. apply startswith_spec in Hs. destruct Hs as [r Hs].
  unfold lower in Hs. apply map_eq_app in Hs.
  destruct Hs as [x [y [Hq [Hx Hy]]]].
  assert (Hl : len prefix = len x).
  { rewrite <- Hx. unfold len. now rewrite length_map. }
  rewrite Hq, Hl, slice_from_app.
  destruct (prefix_ends_with_space prefix Hin) as [p Hp].
  rewrite Hp in Hx. apply map_eq_snoc in Hx.
  destruct Hx as [x' [d [Hx Hd]]]. apply lower_char_space in Hd. subst d x.
  destruct (rev y) as [|c y'] eqn:E.
  - apply (f_equal (@rev ascii)) in E. rewrite rev_involutive in E.
    simpl in E. subst y. rewrite app_nil_r in Hq.
    apply strip_last in Hq. discriminate.
  - apply (f_equal (@rev ascii)) in E. rewrite rev_involutive in E.
    simpl in E. subst y. rewrite app_assoc in Hq.
    apply strip_last in Hq. rewrite blank_app. simpl. rewrite Hq.
    now rewrite andb_false_r.
Qed.

(** C8, as the code has it.  A blank query to [answer] and a blank name
    to [explain_concept] are each answered with source [none], no
    concept and a fixed message, the two messages being different from
    both not-found messages.  In [answer] the text after a recognised
    prefix is never blank, since the query is trimmed before the
    prefixes are tested. *)
Theorem blank_inputs_ask_for_input
        (fill : str -> Z -> str) (self : DsaTutorEngine) :
  (forall user_query,
      blank user_query = true ->
      answer fill self user_query = Ok (asks_for_input user_query please_type))
  /\ (forall concept_name,
         blank concept_name = true ->
         explain_concept fill self concept_name
         = Ok (asks_for_input concept_name please_provide))
  /\ (forall query,
         please_type <> not_found query /\ please_provide <> not_found query)
  /\ please_type <> not_mapped /\ please_provide <> not_mapped
  /\ (forall user_query prefix,
         In prefix prefixes ->
         startswith (lower (strip user_query)) prefix = true ->
         blank (slice_from (strip user_query) (len prefix)) = false).
Proof.
  split; [|split; [|split; [|split; [|split]]]].
  - intros q Hb. unfold answer. now rewrite is_empty_strip, Hb.
  - intros q Hb. unfold explain_concept. now rewrite is_empty_strip, Hb.
  - intros query. split; discriminate.
  - discriminate.
  - discriminate.
  - intros q prefix. apply remainder_not_blank.
Qed.

Lemma blank_inputs_ask_for_input_witness :
  answer no_wrap (tutor_of catalogue) (lit "   ")
  = Ok (asks_for_input (lit "   ") please_type)
  /\ explain_concept no_wrap (tutor_of catalogue) []
     = Ok (asks_for_input [] please_provide)
  /\ blank (slice_from (strip (lit " Define  stack ")) (len (lit "define ")))
     = false.
Proof.
  destruct (blank_inputs_ask_for_input no_wrap (tutor_of catalogue))
    as [H1 [H2 [_ [_ [_ H3]]]]].
  split; [|split].
  - apply H1. reflexivity.
  - apply H2. reflexivity.
  - apply H3; [simpl; auto | reflexivity].
Defined.

(** C8, counterexample.  The query [explain ] is a recognised prefix
    followed by nothing; [answer] trims it to [explain], finds no
    prefix, searches that word and returns the not-mapped message. *)
Lemma blank_remainder_counterexample :
  blank_input (lit "explain ")
  /\ answer no_wrap (tutor_of catalogue) (lit "explain ")
     = Ok {| Tutor.query := lit "explain"; matched_key := None;
             match_source := none_source; concept := None;
             answer_markdown := not_mapped |}
  /\ ~ blank_input_claim no_wrap (tutor_of catalogue) (lit "explain ").
Proof.
  assert (Hb : blank_input (lit "explain ")).
  { right. exists []. split; reflexivity. }
  split; [exact Hb|]. split; [vm_compute; reflexivity|].
  intros H. destruct (H Hb) as [ans [Ha [_ [_ [Hm | Hm]]]]];
    vm_compute in Ha; inversion Ha; subst ans; discriminate.
Qed.

(* ================================================================== *)
(** * Leading phrases *)
(* ================================================================== *)

Section LeadingPhrase.

Lemma starts_with_startswith (text phrase rest : str) :
  starts_with text phrase rest ->
  startswith (lower text) phrase = true
  /\ slice_from text (len phrase) = rest.
Proof.
  intros [head [-> <-]]. split.
  - rewrite lower_app. apply startswith_app.
  - rewrite len_lower. apply slice_from_app.
Qed.

Lemma startswith_starts_with (text phrase : str) :
  startswith (lower text) phrase = true ->
  exists rest, starts_with text phrase rest.
Proof.
  intros H. apply startswith_spec in H. destruct H as [r H].
  destruct (lower_split text phrase r []) as [x [y [z [Ht [Hx _]]]]].
  { now rewrite app_nil_r. }
  exists (y ++ z), x. now split.
Qed.

Lemma no_leading_phrase_prefixes (text : str) :
  no_leading_phrase text ->
  forall prefix, In prefix prefixes ->
                 startswith (lower text) prefix = false.
Proof.
  intros H prefix Hin.
  destruct (startswith (lower text) prefix) eqn:E; [|reflexivity].
  exfalso. destruct (startswith_starts_with _ _ E) as [rest Hr].
  exact (H prefix rest Hin Hr).
Qed.

End LeadingPhrase.

(** C7, as the code has it.  On a tutor built from a file: when the
    trimmed query starts, in any letter case, with [explain ],
    [what is ] or [define ], [answer] returns what [explain_concept]
    returns for the trimmed rest of it.  When it starts with none of
    them and is not blank, the trimmed query, whole, is what the
    combined search receives: the answer explains the concept selected
    from the results of that search, or reports the trimmed query as
    not mapped. *)
Theorem answer_strips_prefix
        (fill : str -> Z -> str) (doc : document) (next next' : nat)
        (self : DsaTutorEngine) (user_query : str) :
  Tutor.init (Some doc) next = Ok (self, next') ->
  (forall phrase rest,
      In phrase leading_phrases ->
      starts_with (strip user_query) phrase rest ->
      answer fill self user_query = explain_concept fill self (strip rest))
  /\ (no_leading_phrase (strip user_query) ->
      blank user_query = false ->
      searched_as fill self user_query (strip user_query)).
Proof.
  intros Hinit. split.
  - intros phrase rest Hin Hs.
    destruct (starts_with_startswith _ _ _ Hs) as [Hp Hr].
    unfold answer. destruct (is_empty (strip user_query)) eqn:E.
    + apply is_empty_true in E. rewrite E in Hp. exfalso.
      destruct Hin as [<- | [<- | [<- | []]]]; discriminate.
    + rewrite (answer_prefixes_match fill self _ phrase Hin Hp).
      now rewrite Hr.
  - intros Hn Hb.
    destruct (tutor_init_inv _ _ _ _ Hinit) as [mid [_ Hen]].
    destruct (init_loaded _ _ _ _ Hen) as [Hl _].
    destruct (comprehensive_search_ok _ (strip user_query) Hl)
      as [fz [_ Hc]].
    eexists. split; [exact Hc|].
    unfold answer. rewrite is_empty_strip, Hb.
    rewrite (answer_prefixes_none fill self _
               (no_leading_phrase_prefixes _ Hn)).
    unfold answer_generic. rewrite Hc. reflexivity.
Qed.

Lemma answer_strips_prefix_witness :
  answer no_wrap (tutor_of catalogue) (lit "  What is  Binary Search ")
  = explain_concept no_wrap (tutor_of catalogue) (lit "Binary Search")
  /\ searched_as no_wrap (tutor_of catalogue) (lit "access. ")
                 (lit "access.").
Proof.
  pose (H := answer_strips_prefix no_wrap catalogue 0 14 (tutor_of catalogue)).
  split.
  - apply (proj1 (H (lit "  What is  Binary Search ") eq_refl)
                 (lit "what is ") (lit " Binary Search")).
    + simpl. auto.
    + exists (lit "What is "). split; reflexivity.
  - apply (proj2 (H (lit "access. ") eq_refl)); [|reflexivity].
    intros phrase rest Hin Hs.
    apply starts_with_startswith in Hs. destruct Hs as [Hs _].
    destruct Hin as [<- | [<- | [<- | []]]]; discriminate Hs.
Defined.

(** C7, counterexamples.  With a trailing space the query [access. ]
    has no leading phrase; searched unmodified it finds nothing, while
    [answer] searches the trimmed text and explains the stack.  The
    blank query [ ] is not searched at all. *)
Lemma unmodified_text_counterexample :
  ~ leading_phrase_claim no_wrap (tutor_of catalogue) (lit "access. ")
  /\ ~ leading_phrase_claim no_wrap (tutor_of catalogue) (lit " ").
Proof.
  assert (Hno : forall text,
             (forall prefix, In prefix prefixes ->
                             startswith (lower text) prefix = false) ->
             no_leading_phrase text).
  { intros text H phrase rest Hin Hs.
    apply starts_with_startswith in Hs. destruct Hs as [Hs _].
    rewrite (H phrase Hin) in Hs. discriminate. }
  split; intros [_ H].
  - destruct H as [results [Hc Ha]].
    { apply Hno. intros p [<- | [<- | [<- | []]]]; reflexivity. }
    vm_compute in Hc. inversion Hc; subst results. clear Hc.
    vm_compute in Ha. discriminate Ha.
  - destruct H as [results [Hc Ha]].
    { apply Hno. intros p [<- | [<- | [<- | []]]]; reflexivity. }
    vm_compute in Hc. inversion Hc; subst results. clear Hc.
    vm_compute in Ha. discriminate Ha.
Qed.

(* ================================================================== *)
(** * The empty query, and repeated calls *)
(* ================================================================== *)

Section EmptyQuery.

Lemma real_quick_ratio_empty (k : str) :
  k <> [] -> Qle_bool (6 # 10) (Difflib.real_quick_ratio k []) = false.
Proof.
  intros Hk. unfold Difflib.real_quick_ratio, Difflib.calculate_ratio.
  assert (H : 0 < len k).
  { destruct k; [congruence | unfold len; simpl; lia]. }
  change (len []) with 0. rewrite Z.add_0_r, Z.min_r by lia.
  destruct (Z.eqb_spec (len k) 0); [lia|]. reflexivity.
Qed.

Lemma no_candidates_for_empty (keys : list str) :
  ~ In [] keys -> Difflib.close_candidates [] keys (6 # 10) = [].
Proof.
  induction keys as [|k keys IH]; intros H; simpl; [reflexivity|].
  rewrite real_quick_ratio_empty by (intros ->; apply H; now left).
  simpl. apply IH. intros G. apply H. now right.
Qed.

Lemma fuzzy_search_empty (self : KnowledgeGraphSearch) :
  ~ In [] (concept_keys self) -> fuzzy_search self [] 5 (6 # 10) = Ok [].
Proof.
  intros H. unfold fuzzy_search, Difflib.get_close_matches.
  change (normalize_key []) with (@nil ascii). cbn [negb Z.ltb Z.compare].
  change (Qle_bool 0 (6 # 10) && Qle_bool (6 # 10) 1) with true. cbn [negb].
  now rewrite no_candidates_for_empty.
Qed.

Lemma lower_nil (x : str) : lower x = [] <-> x = [].
Proof. destruct x; simpl; split; congruence. Qed.

Lemma relation_test_empty (kv : str * Obj) :
  ~ In [] (get_or (f_relations (fields (snd kv))) []) ->
  relation_test [] kv = None.
Proof.
  intros H. unfold relation_test. cbn [lower map].
  destruct (existsb _ _) eqn:E; [|reflexivity].
  apply existsb_exists in E. destruct E as [x [Hx He]].
  apply str_eqb_eq in He. subst x. apply in_map_iff in Hx.
  destruct Hx as [y [Hy Hin]]. apply (proj1 (lower_nil y)) in Hy. subst y. tauto.
Qed.

Lemma hits_none {H} (f : str * Obj -> option H) (items : dict Obj) :
  (forall kv, In kv items -> f kv = None) -> hits f items = [].
Proof.
  induction items as [|kv items IH]; intros G; simpl; [reflexivity|].
  rewrite (G kv) by now left. simpl. apply IH. intros kv' Hin.
  apply G. now right.
Qed.

Lemma hits_all_keys {H} (f : str * Obj -> option H) (items : dict Obj) :
  (forall kv, In kv items -> f kv <> None) ->
  dict_keys (hits f items) = dict_keys items.
Proof.
  induction items as [|kv items IH]; intros G; simpl; [reflexivity|].
  destruct (f kv) eqn:E; [|exfalso; apply (G kv); [now left | exact E]].
  simpl. f_equal. apply IH. intros kv' Hin. apply G. now right.
Qed.

Lemma keyword_test_empty (kv : str * Obj) : keyword_test [] kv <> None.
Proof.
  unfold keyword_test. cbn [lower map].
  destruct (lower _); simpl; discriminate.
Qed.

End EmptyQuery.

(** C9, as the code has it.  For the empty query over a loaded store no
    strategy raises.  The exact strategy looks the empty key up, so it
    finds nothing, and the fuzzy mapping is empty, when the empty string
    is not a key of the store; the relation mapping is empty when no
    record carries the empty tag; and the keyword mapping holds every
    record of the store, the empty string occurring in every text. *)
Theorem empty_query_results
        (doc : document) (next next' : nat) (self : KnowledgeGraphSearch) :
  SearchEngine.init (Some doc) next = Ok (self, next') ->
  exists results,
    comprehensive_search self [] = Ok results
    /\ exact results = dict_get (graph self) []
    /\ (~ In [] (dict_keys (graph self)) ->
        exact results = None /\ fuzzy results = [])
    /\ ((forall k v, In (k, v) (graph self) ->
                     ~ In [] (get_or (f_relations (fields v)) [])) ->
        related results = [])
    /\ dict_keys (keyword results) = dict_keys (graph self).
Proof.
  intros Hinit. destruct (init_loaded _ _ _ _ Hinit) as [Hl _].
  destruct (comprehensive_search_ok self [] Hl) as [fz [Hf Hc]].
  eexists. split; [exact Hc|]. cbn [exact fuzzy related keyword].
  split; [reflexivity|]. split; [|split].
  - intros Hk. split.
    + unfold exact_search. change (normalize_key []) with (@nil ascii).
      now apply dict_get_none.
    + destruct Hl as [_ Hkeys]. rewrite <- Hkeys in Hk.
      rewrite (fuzzy_search_empty self Hk) in Hf. now inversion Hf.
  - intros Hr. rewrite (relation_search_hits self [] Hl).
    apply hits_none. intros [k v] Hin. apply relation_test_empty.
    simpl. now apply (Hr k).
  - rewrite (keyword_search_hits self [] Hl). apply hits_all_keys.
    intros kv _. apply keyword_test_empty.
Qed.

Lemma empty_query_results_witness :
  exists results,
    comprehensive_search (engine_of catalogue) [] = Ok results
    /\ exact results = dict_get (graph (engine_of catalogue)) []
    /\ (~ In [] (dict_keys (graph (engine_of catalogue))) ->
        exact results = None /\ fuzzy results = [])
    /\ ((forall k v, In (k, v) (graph (engine_of catalogue)) ->
                     ~ In [] (get_or (f_relations (fields v)) [])) ->
        related results = [])
    /\ dict_keys (keyword results) = dict_keys (graph (engine_of catalogue)).
Proof.
  apply (empty_query_results catalogue 0 7 (engine_of catalogue)).
  reflexivity.
Defined.

(** C9, counterexample.  On the catalogue the empty query makes
    [keyword_search] return all seven records. *)
Lemma empty_query_counterexample :
  ~ empty_query_claim (engine_of catalogue)
  /\ dict_keys (keyword_search (engine_of catalogue) [])
     = dict_keys (graph (engine_of catalogue)).
Proof.
  split; [|reflexivity].
  intros [results [Hc [_ [_ [_ Hk]]]]].
  vm_compute in Hc. inversion Hc; subst results. discriminate.
Qed.

(* ================================================================== *)
(** * The search methods and the state *)
(* ================================================================== *)

Section Frame.

(** The search methods read the state and leave it as it is; their
    outcome is that of the functions of [SearchEngine] on the engine
    of the state. *)
Lemma exact_search_frame (q : str) (s : Stateful.State) :
  Stateful.exact_search q s
  = (Ok (exact_search (Stateful.this s) q), s).
Proof. reflexivity. Qed.

Lemma fuzzy_loop_frame (norm : str) (close : list str) (res : dict FuzzyHit)
      (s : Stateful.State) :
  Stateful.fuzzy_loop norm close res s
  = (fuzzy_loop (Stateful.this s) norm close res, s).
Proof.
  revert res. induction close as [|k close IH]; intros res; [reflexivity|].
  cbn [Stateful.fuzzy_loop fuzzy_loop].
  unfold Stateful.seq, Stateful.get_graph.
  destruct (dict_get (graph (Stateful.this s)) k) as [d|];
    [apply IH | reflexivity].
Qed.

Lemma fuzzy_search_frame (q : str) (limit : Z) (cutoff : Q)
      (s : Stateful.State) :
  Stateful.fuzzy_search q limit cutoff s
  = (fuzzy_search (Stateful.this s) q limit cutoff, s).
Proof.
  unfold Stateful.fuzzy_search, fuzzy_search.
  unfold Stateful.seq, Stateful.get_concept_keys, Stateful.call.
  destruct (Difflib.get_close_matches _ _ _ _) as [close|e];
    [apply fuzzy_loop_frame | reflexivity].
Qed.

Lemma relation_search_frame (rel : str) (s : Stateful.State) :
  Stateful.relation_search rel s
  = (Ok (relation_search (Stateful.this s) rel), s).
Proof. reflexivity. Qed.

Lemma keyword_search_frame (q : str) (s : Stateful.State) :
  Stateful.keyword_search q s
  = (Ok (keyword_search (Stateful.this s) q), s).
Proof. reflexivity. Qed.

Lemma comprehensive_search_frame (q : str) (s : Stateful.State) :
  Stateful.comprehensive_search q s
  = (comprehensive_search (Stateful.this s) q, s).
Proof.
  unfold Stateful.comprehensive_search, comprehensive_search.
  unfold Stateful.seq at 1. rewrite exact_search_frame.
  unfold Stateful.seq at 1. rewrite fuzzy_search_frame.
  destruct (fuzzy_search (Stateful.this s) q 5 (6 # 10)) as [fz|e];
    [|reflexivity].
  reflexivity.
Qed.

Lemma names_of_frame (g : dict Obj) (s : Stateful.State) :
  NoDup (dict_keys (graph (Stateful.this s))) ->
  incl g (graph (Stateful.this s)) ->
  Stateful.names_of (dict_keys g) s
  = (Ok (map (fun kv => get_or (f_name (fields (snd kv))) (fst kv)) g), s).
Proof.
  intros Hnd. induction g as [|[k d] g IH]; intros Hin; [reflexivity|].
  cbn [dict_keys map fst Stateful.names_of].
  unfold Stateful.seq at 1, Stateful.get_graph.
  rewrite (in_dict_get _ k d Hnd) by (apply Hin; now left).
  unfold Stateful.seq. fold (dict_keys g).
  rewrite IH by (intros x Hx; apply Hin; now right). reflexivity.
Qed.

(** [__init__] assigns the attributes that [SearchEngine.init] gives
    the engine, whatever they held before. *)
Lemma init_assigns (file : option document) (s : Stateful.State) :
  Stateful.init file s
  = match SearchEngine.init file (Stateful.fresh s) with
    | Ok (self, next) =>
        (Ok tt, {| Stateful.this := self; Stateful.fresh := next |})
    | Raise e => (Raise e, s)
    end.
Proof.
  destruct file as [doc|]; [|reflexivity].
  unfold Stateful.init, SearchEngine.init.
  unfold Stateful.seq at 1, Stateful.load.
  pose proof (json_load_inv doc (Stateful.fresh s)) as Hj.
  destruct (json_load doc (Stateful.fresh s)) as [g next].
  destruct Hj as [Hnd _].
  unfold Stateful.seq at 1, Stateful.set_graph.
  unfold Stateful.seq at 1, Stateful.get_graph. cbn [graph Stateful.this].
  unfold Stateful.seq at 1, Stateful.set_concept_keys.
  unfold Stateful.seq at 1, Stateful.get_concept_keys.
  cbn [graph concept_keys concept_names Stateful.this Stateful.fresh].
  unfold Stateful.seq.
  rewrite (names_of_frame g); [reflexivity | exact Hnd | apply incl_refl].
Qed.

End Frame.

Example init_assigns_catalogue :
  Stateful.init (Some catalogue)
                {| Stateful.this := blank_engine; Stateful.fresh := 0 |}
  = (Ok tt, {| Stateful.this := engine_of catalogue; Stateful.fresh := 7 |}).
Proof. reflexivity. Qed.

(** C6.  On an engine that [__init__] has loaded from a file, a call of
    [comprehensive_search] returns a composite result and leaves the
    engine and its records as they were, so that a second call with the
    same query returns the same result: the same exact record, and the
    same fuzzy, relation and keyword mappings, entry for entry.  The
    result holds what the four strategies find in the store. *)
Theorem comprehensive_search_deterministic
        (doc : document) (s0 s : Stateful.State) (q : str) :
  Stateful.init (Some doc) s0 = (Ok tt, s) ->
  let '(first, s1) := Stateful.comprehensive_search q s in
  let '(second, s2) := Stateful.comprehensive_search q s1 in
  first = second /\ s1 = s /\ s2 = s
  /\ exists r,
      first = Ok r
      /\ exact r = dict_get (graph (Stateful.this s)) (normalize_key q)
      /\ fuzzy_search (Stateful.this s) q 5 (6 # 10) = Ok (fuzzy r)
      /\ related r = hits (relation_test q) (graph (Stateful.this s))
      /\ keyword r = hits (keyword_test q) (graph (Stateful.this s)).
Proof.
  intros Hinit. rewrite init_assigns in Hinit.
  destruct (SearchEngine.init (Some doc) (Stateful.fresh s0))
    as [[self next]|e] eqn:E; [|discriminate].
  inversion Hinit; subst s. clear Hinit. cbn [Stateful.this].
  destruct (init_loaded _ _ _ _ E) as [Hl _].
  rewrite !comprehensive_search_frame. cbn [Stateful.this].
  repeat (split; [reflexivity|]).
  destruct (comprehensive_search_ok self q Hl) as [fz [Hf Hc]].
  eexists. split; [exact Hc|]. cbn [exact fuzzy related keyword].
  split; [reflexivity|]. split; [exact Hf|].
  split; [now apply relation_search_hits | now apply keyword_search_hits].
Qed.

Lemma comprehensive_search_deterministic_witness :
  let s := snd (Stateful.init (Some catalogue)
                  {| Stateful.this := blank_engine; Stateful.fresh := 0 |}) in
  let '(first, s1) := Stateful.comprehensive_search (lit "Stack") s in
  let '(second, s2) := Stateful.comprehensive_search (lit "Stack") s1 in
  first = second /\ s1 = s /\ s2 = s
  /\ exists r,
      first = Ok r
      /\ exact r = dict_get (graph (Stateful.this s)) (lit "stack")
      /\ fuzzy_search (Stateful.this s) (lit "Stack") 5 (6 # 10)
         = Ok (fuzzy r)
      /\ related r
         = hits (relation_test (lit "Stack")) (graph (Stateful.this s))
      /\ keyword r
         = hits (keyword_test (lit "Stack")) (graph (Stateful.this s)).
Proof.
  exact (comprehensive_search_deterministic
           catalogue
           {| Stateful.this := blank_engine; Stateful.fresh := 0 |}
           _ (lit "Stack") eq_refl).
Defined.

(* ================================================================== *)
(** * More on normalize_key *)
(* ================================================================== *)

Lemma lower_char_idem (c : ascii) : lower_char (lower_char c) = lower_char c.
Proof. destruct c as [[] [] [] [] [] [] [] []]; reflexivity. Qed.

Lemma isspace_lower_char (c : ascii) : isspace (lower_char c) = isspace c.
Proof. destruct c as [[] [] [] [] [] [] [] []]; reflexivity. Qed.

Lemma lower_idem (t : str) : lower (lower t) = lower t.
Proof.
  unfold lower. rewrite map_map. apply map_ext. apply lower_char_idem.
Qed.

Lemma lstrip_lower (t : str) : lstrip (lower t) = lower (lstrip t).
Proof.
  induction t as [|c t IH]; [reflexivity|].
  simpl. rewrite isspace_lower_char. now destruct (isspace c).
Qed.

Lemma rstrip_lower (t : str) : rstrip (lower t) = lower (rstrip t).
Proof.
  unfold rstrip. unfold lower at 1. rewrite <- map_rev.
  change (map lower_char (rev t)) with (lower (rev t)).
  rewrite lstrip_lower. unfold lower. now rewrite map_rev.
Qed.

Lemma strip_lower (t : str) : strip (lower t) = lower (strip t).
Proof. unfold strip. now rewrite lstrip_lower, rstrip_lower. Qed.

(** [normalize_key] reads its argument through [lower] only. *)
Lemma normalize_key_lower (t : str) :
  normalize_key (lower t) = normalize_key t.
Proof.
  unfold normalize_key. now rewrite strip_lower, lower_idem.
Qed.


Lemma settled_made (c : ascii) :
  settled (separator_to_underscore (lower_char c)).
Proof. destruct c as [[] [] [] [] [] [] [] []]; reflexivity. Qed.

Lemma settled_lower (c : ascii) : settled c -> lower_char c = c.
Proof.
  destruct c as [[] [] [] [] [] [] [] []]; unfold settled; vm_compute;
    intros H; try discriminate H; reflexivity.
Qed.

Lemma settled_no_separator (c : ascii) :
  settled c ->
  c <> " "%char /\ c <> "-"%char /\ c <> "/"%char.
Proof.
  intros H. repeat split; intros ->; discriminate H.
Qed.

Lemma made_not_space (c : ascii) :
  isspace c = false ->
  isspace (separator_to_underscore (lower_char c)) = false.
Proof.
  destruct c as [[] [] [] [] [] [] [] []]; vm_compute; intros H;
    try discriminate H; reflexivity.
Qed.

Lemma squeeze_in (c : ascii) (t : str) : In c (squeeze t) -> In c t.
Proof.
  induction t as [|d t IH]; [tauto|].
  destruct t as [|e t]; [tauto|]. rewrite squeeze_step.
  destruct (is_underscore d && is_underscore e).
  - intros H. right. now apply IH.
  - intros [H | H]; [now left | right; now apply IH].
Qed.

Lemma squeeze_last (t : str) (d : ascii) :
  exists r, squeeze (t ++ [d]) = r ++ [d].
Proof.
  induction t as [|c t [r IH]]; [now exists []|].
  destruct t as [|e t].
  - simpl app. rewrite squeeze_step.
    destruct (is_underscore c && is_underscore d);
      [now exists [] | now exists [c]].
  - change ((c :: e :: t) ++ [d]) with (c :: e :: (t ++ [d])).
    rewrite squeeze_step. change (e :: t ++ [d]) with ((e :: t) ++ [d]).
    rewrite IH. destruct (is_underscore c && is_underscore e);
      [now exists r | now exists (c :: r)].
Qed.

(** A string that neither starts nor ends with whitespace is its own
    [strip]. *)
Lemma strip_fixed (t : str) :
  (forall c u, t = c :: u -> isspace c = false) ->
  (forall u d, t = u ++ [d] -> isspace d = false) ->
  strip t = t.
Proof.
  intros Hf Hl. destruct t as [|c u]; [reflexivity|].
  unfold strip. cbn [lstrip]. rewrite (Hf c u eq_refl).
  unfold rstrip. destruct (rev (c :: u)) as [|d v] eqn:E.
  - apply (f_equal (@rev ascii)) in E. now rewrite rev_involutive in E.
  - assert (Hd : isspace d = false).
    { apply (Hl (rev v)). apply (f_equal (@rev ascii)) in E.
      now rewrite rev_involutive in E. }
    cbn [lstrip]. rewrite Hd, <- E. apply rev_involutive.
Qed.

Lemma map_fixed {A} (f : A -> A) (l : list A) :
  Forall (fun x => f x = x) l -> map f l = l.
Proof.
  induction 1 as [|x l Hx _ IH]; simpl; [reflexivity | now rewrite Hx, IH].
Qed.

Lemma normalize_key_settled (t : str) : Forall settled (normalize_key t).
Proof.
  rewrite normalize_key_spec. unfold normalize_spec.
  apply Forall_forall. intros c Hc. apply squeeze_in in Hc.
  unfold lower in Hc. rewrite map_map in Hc. apply in_map_iff in Hc.
  destruct Hc as [x [<- _]]. apply settled_made.
Qed.

Lemma normalize_key_stripped (t : str) :
  strip (normalize_key t) = normalize_key t.
Proof.
  rewrite normalize_key_spec. unfold normalize_spec, lower.
  rewrite map_map. set (f := fun c => separator_to_underscore (lower_char c)).
  apply strip_fixed.
  - intros c u H. destruct (strip t) as [|c0 u0] eqn:E; [discriminate|].
    simpl map in H. destruct (squeeze_head (f c0) (map f u0)) as [r Hr].
    rewrite Hr in H. inversion H; subst.
    apply made_not_space. now apply (strip_first t u0).
  - intros u d H. destruct (rev (strip t)) as [|d0 v] eqn:E.
    + apply (f_equal (@rev ascii)) in E. rewrite rev_involutive in E.
      rewrite E in H. simpl in H. now destruct u.
    + apply (f_equal (@rev ascii)) in E. rewrite rev_involutive in E.
      simpl in E. rewrite E, map_app in H. simpl map in H.
      destruct (squeeze_last (map f (rev v)) (f d0)) as [r Hr].
      rewrite Hr in H. apply app_inj_tail in H. destruct H as [_ <-].
      apply made_not_space. now apply (strip_last t (rev v)).
Qed.

(** X1.  The key that [normalize_key] returns is trimmed and in lower
    case, holds no space, hyphen or slash, and holds no two underscores
    in a row. *)
Theorem normalize_key_shape (text : str) :
  let k := normalize_key text in
  strip k = k
  /\ lower k = k
  /\ (forall c, In c k -> c <> " "%char /\ c <> "-"%char /\ c <> "/"%char)
  /\ str_in (lit "__") k = false.
Proof.
  cbv zeta. pose proof (normalize_key_settled text) as Hs.
  split; [apply normalize_key_stripped|]. split; [|split].
  - apply map_fixed. eapply Forall_impl; [|exact Hs]. apply settled_lower.
  - rewrite Forall_forall in Hs. intros c Hc.
    apply settled_no_separator. now apply Hs.
  - rewrite normalize_key_spec. apply squeeze_no_double.
Qed.

(** X2.  [normalize_key] is idempotent: a normalised key normalises to
    itself. *)
Theorem normalize_key_idempotent (text : str) :
  normalize_key (normalize_key text) = normalize_key text.
Proof.
  rewrite (normalize_key_spec (normalize_key text)). unfold normalize_spec.
  rewrite normalize_key_stripped.
  unfold lower. rewrite map_map.
  rewrite (map_fixed (fun c => separator_to_underscore (lower_char c)))
    by apply normalize_key_settled.
  apply no_double_fixed. rewrite normalize_key_spec.
  apply squeeze_no_double.
Qed.

(* ================================================================== *)
(** * Letter case of the query, and the size of a snippet *)
(* ================================================================== *)

Lemma lower_len_eq (q1 q2 : str) : lower q1 = lower q2 -> len q1 = len q2.
Proof.
  intros H. rewrite <- (len_lower q1), <- (len_lower q2). now rewrite H.
Qed.

Lemma snippet_case (text q1 q2 : str) (w : Z) :
  lower q1 = lower q2 -> snippet text q1 w = snippet text q2 w.
Proof.
  intros H. unfold snippet. now rewrite H, (lower_len_eq q1 q2 H).
Qed.

Lemma keyword_loop_case (q1 q2 ql : str) (items : dict Obj)
      (res : dict KeywordHit) :
  lower q1 = lower q2 ->
  keyword_loop q1 ql items res = keyword_loop q2 ql items res.
Proof.
  intros H. revert res. induction items as [|[k v] items IH]; intros res;
    [reflexivity|].
  cbn [keyword_loop]. rewrite (snippet_case _ q1 q2 60 H). apply IH.
Qed.

(** X3.  The four strategies and their combination read the query
    through [lower] only: two queries that differ in letter case alone
    get the same composite result, on any store. *)
Theorem comprehensive_search_case_insensitive
        (self : KnowledgeGraphSearch) (q1 q2 : str) :
  lower q1 = lower q2 ->
  exact_search self q1 = exact_search self q2
  /\ (forall limit cutoff,
         fuzzy_search self q1 limit cutoff = fuzzy_search self q2 limit cutoff)
  /\ relation_search self q1 = relation_search self q2
  /\ keyword_search self q1 = keyword_search self q2
  /\ comprehensive_search self q1 = comprehensive_search self q2.
Proof.
  intros H.
  assert (Hn : normalize_key q1 = normalize_key q2).
  { rewrite <- (normalize_key_lower q1), <- (normalize_key_lower q2).
    now rewrite H. }
  assert (He : exact_search self q1 = exact_search self q2).
  { unfold exact_search. now rewrite Hn. }
  assert (Hf : forall limit cutoff,
             fuzzy_search self q1 limit cutoff
             = fuzzy_search self q2 limit cutoff).
  { intros. unfold fuzzy_search. now rewrite Hn. }
  assert (Hr : relation_search self q1 = relation_search self q2).
  { unfold relation_search. now rewrite H. }
  assert (Hk : keyword_search self q1 = keyword_search self q2).
  { unfold keyword_search. rewrite H. now apply keyword_loop_case. }
  repeat split; auto.
  unfold comprehensive_search. now rewrite He, Hf, Hr, Hk.
Qed.

Lemma comprehensive_search_case_insensitive_witness :
  comprehensive_search (engine_of catalogue) (lit "Binary SEARCH")
  = comprehensive_search (engine_of catalogue) (lit "binary search").
Proof.
  apply (comprehensive_search_case_insensitive
           (engine_of catalogue) (lit "Binary SEARCH") (lit "binary search")).
  reflexivity.
Defined.

Lemma len_firstn (n : nat) (t : str) : len (firstn n t) <= Z.of_nat n.
Proof. unfold len. rewrite length_firstn. lia. Qed.

Lemma len_slice (t : str) (s e : Z) :
  0 <= s <= len t -> 0 <= e -> len (slice t s e) <= Z.max 0 (e - s).
Proof.
  intros Hs He. unfold slice, slice_index. cbv zeta.
  destruct (Z.ltb_spec s 0); [lia|]. destruct (Z.ltb_spec e 0); [lia|].
  etransitivity; [apply len_firstn|].
  rewrite (Z.min_l s) by lia.
  destruct (Z.le_ge_cases (Z.min e (len t) - s) 0) as [Hn | Hn].
  - replace (Z.to_nat (Z.min e (len t) - s)) with 0%nat by lia. simpl. lia.
  - rewrite Z2Nat.id by exact Hn. lia.
Qed.

Lemma slice_whole (t : str) : slice t 0 (len t) = t.
Proof.
  pose proof (slice_inside [] t []) as H. rewrite app_nil_r in H.
  simpl in H. exact H.
Qed.

(** X4.  A snippet is a bounded excerpt: for a window [w >= 0] it is at
    most [2*w + len(q) + 6] characters long; and when the query occurs
    in the text within [w] characters of both ends, the snippet is the
    whole text, without ellipsis. *)
Theorem snippet_bounded (text q : str) (w : Z) :
  0 <= w ->
  len (snippet text q w) <= 2 * w + len q + 6
  /\ (find (lower text) (lower q) <> -1 ->
      find (lower text) (lower q) <= w ->
      len text <= find (lower text) (lower q) + len q + w ->
      snippet text q w = text).
Proof.
  intros Hw. pose proof (len_nonneg q) as Hq. pose proof (len_nonneg text) as Ht.
  unfold snippet. destruct (is_empty text) eqn:Ee.
  { split; [change (len []) with 0; lia|]. intros _ _ _.
    destruct text; [reflexivity | discriminate]. }
  destruct (Z.eqb_spec (find (lower text) (lower q)) (-1)) as [E | E].
  { split; [|congruence]. rewrite len_app, slice_to_long by lia.
    pose proof (len_firstn (Z.to_nat (w * 2)) text).
    change (len (lit "...")) with 3. lia. }
  destruct (str_find_some _ _ E) as [bf [af [Hl Hi]]].
  set (idx := find (lower text) (lower q)) in *.
  assert (Hidx : 0 <= idx /\ idx + len q <= len text).
  { rewrite <- (len_lower text), Hl, !len_app, len_lower, Hi.
    pose proof (len_nonneg af). pose proof (len_nonneg bf). lia. }
  split.
  - pose proof (len_slice text (Z.max 0 (idx - w))
                          (Z.min (len text) (idx + len q + w))
                          ltac:(lia) ltac:(lia)) as Hs.
    destruct (0 <? Z.max 0 (idx - w));
      destruct (Z.min (len text) (idx + len q + w) <? len text);
      rewrite ?len_app; change (len (lit "...")) with 3; lia.
  - intros _ H1 H2.
    rewrite (Z.max_l 0 (idx - w)) by lia.
    rewrite (Z.min_l (len text)) by lia.
    rewrite Z.ltb_irrefl. change (0 <? 0) with false. cbv iota.
    apply slice_whole.
Qed.

Lemma snippet_bounded_witness :
  len (snippet (lit "A linear structure supporting LIFO access.")
               (lit "lifo") 60) <= 2 * 60 + len (lit "lifo") + 6
  /\ (find (lower (lit "A linear structure supporting LIFO access."))
           (lower (lit "lifo")) <> -1 ->
      find (lower (lit "A linear structure supporting LIFO access."))
           (lower (lit "lifo")) <= 60 ->
      len (lit "A linear structure supporting LIFO access.")
      <= find (lower (lit "A linear structure supporting LIFO access."))
              (lower (lit "lifo")) + len (lit "lifo") + 60 ->
      snippet (lit "A linear structure supporting LIFO access.")
              (lit "lifo") 60
      = lit "A linear structure supporting LIFO access.").
Proof.
  apply (snippet_bounded (lit "A linear structure supporting LIFO access.")
                         (lit "lifo") 60).
  lia.
Defined.

(* ================================================================== *)
(** * relation_search, store order and stats *)
(* ================================================================== *)

Lemma hits_keys {H} (f : str * Obj -> option H) (items : dict Obj) :
  dict_keys (hits f items) = dict_keys (filter (passes f) items).
Proof.
  unfold passes. induction items as [|kv items IH]; [reflexivity|].
  simpl. destruct (f kv); simpl; now rewrite IH.
Qed.

Lemma hits_length {H} (f : str * Obj -> option H) (items : dict Obj) :
  List.length (hits f items) = List.length (filter (passes f) items).
Proof.
  rewrite <- (length_map fst (hits f items)).
  rewrite <- (length_map fst (filter (passes f) items)).
  f_equal. apply hits_keys.
Qed.

(** X5.  On a loaded store [relation_search] returns a record exactly
    when the lowercased tag equals one of the record's relation tags in
    lower case; a hit carries the record's name, or its key when the
    name is missing, and its category, or [unknown]. *)
Theorem relation_search_membership
        (doc : document) (next next' : nat) (self : KnowledgeGraphSearch)
        (rel : str) :
  SearchEngine.init (Some doc) next = Ok (self, next') ->
  (forall k v,
      In (k, v) (graph self) ->
      ((exists hit, In (k, hit) (relation_search self rel))
       <-> In (lower rel)
              (map lower (get_or (f_relations (fields v)) []))))
  /\ (forall k hit,
         In (k, hit) (relation_search self rel) ->
         exists v,
           In (k, v) (graph self)
           /\ rl_name hit = get_or (f_name (fields v)) k
           /\ rl_category hit
              = get_or (f_category (fields v)) (lit "unknown")).
Proof.
  intros Hinit. destruct (init_loaded _ _ _ _ Hinit) as [Hl _].
  rewrite (relation_search_hits self rel Hl). destruct Hl as [Hnd _].
  assert (Ht : forall (v : Obj),
             existsb (str_eqb (lower rel))
                     (map lower (get_or (f_relations (fields v)) [])) = true
             <-> In (lower rel)
                    (map lower (get_or (f_relations (fields v)) []))).
  { intros v. rewrite existsb_exists. split.
    - intros [x [Hx He]]. apply str_eqb_eq in He. now subst x.
    - intros Hin. exists (lower rel). split; [exact Hin | apply str_eqb_refl]. }
  split.
  - intros k v Hin. rewrite <- (Ht v). split.
    + intros [hit Hh]. apply hits_in in Hh. destruct Hh as [v' [Hin' Hf]].
      rewrite (unique_value _ _ _ _ Hnd Hin Hin').
      unfold relation_test in Hf. simpl in Hf.
      now destruct (existsb _ _).
    + intros Hs. eexists. apply hits_in. exists v. split; [exact Hin|].
      unfold relation_test. simpl. rewrite Hs. reflexivity.
  - intros k hit Hh. apply hits_in in Hh. destruct Hh as [v [Hin Hf]].
    exists v. split; [exact Hin|]. unfold relation_test in Hf. simpl in Hf.
    destruct (existsb _ _); [|discriminate]. inversion Hf; subst hit.
    split; reflexivity.
Qed.

Lemma relation_search_membership_witness :
  (exists hit,
      In (lit "stack", hit)
         (relation_search (engine_of catalogue) (lit "LIFO_Structure")))
  <-> In (lower (lit "LIFO_Structure"))
         (map lower (get_or (f_relations stack_node) [])).
Proof.
  apply (proj1 (relation_search_membership
                  catalogue 0 7 (engine_of catalogue) (lit "LIFO_Structure")
                  eq_refl)
               (lit "stack") {| addr := 0; fields := stack_node |}).
  vm_compute. tauto.
Defined.

(** X6.  On a loaded store the hits of [relation_search] and of
    [keyword_search] come in store order: their keys are the keys of the
    store with the records that fail the test left out. *)
Theorem hits_in_store_order
        (doc : document) (next next' : nat) (self : KnowledgeGraphSearch)
        (q : str) :
  SearchEngine.init (Some doc) next = Ok (self, next') ->
  dict_keys (relation_search self q)
  = dict_keys (filter (passes (relation_test q)) (graph self))
  /\ dict_keys (keyword_search self q)
     = dict_keys (filter (passes (keyword_test q)) (graph self))
  /\ NoDup (dict_keys (relation_search self q))
  /\ NoDup (dict_keys (keyword_search self q)).
Proof.
  intros Hinit. destruct (init_loaded _ _ _ _ Hinit) as [Hl _].
  rewrite (relation_search_hits self q Hl), (keyword_search_hits self q Hl).
  rewrite !hits_keys. destruct Hl as [Hnd _].
  assert (G : forall g, NoDup (dict_keys (filter g (graph self)))).
  { intros g. unfold dict_keys in *. clear - Hnd.
    induction (graph self) as [|kv d IH]; simpl; [constructor|].
    inversion Hnd as [|? ? Hk Hd]; subst.
    destruct (g kv); simpl; [|now apply IH].
    constructor; [|now apply IH].
    intros Hin. apply Hk. apply in_map_iff in Hin.
    destruct Hin as [x [Hx Hf]]. apply filter_In in Hf.
    apply in_map_iff. exists x. tauto. }
  repeat split; auto.
Qed.

Lemma hits_in_store_order_witness :
  dict_keys (relation_search (engine_of catalogue) (lit "algorithm"))
  = dict_keys (filter (passes (relation_test (lit "algorithm")))
                      (graph (engine_of catalogue)))
  /\ dict_keys (keyword_search (engine_of catalogue) (lit "algorithm"))
     = dict_keys (filter (passes (keyword_test (lit "algorithm")))
                         (graph (engine_of catalogue)))
  /\ NoDup (dict_keys (relation_search (engine_of catalogue) (lit "algorithm")))
  /\ NoDup (dict_keys (keyword_search (engine_of catalogue) (lit "algorithm"))).
Proof.
  apply (hits_in_store_order catalogue 0 7 (engine_of catalogue)
                             (lit "algorithm")).
  reflexivity.
Defined.

Lemma sum_relations_from (items : dict Obj) (s : Z) :
  fold_left (fun s kv =>
               s + Z.of_nat (List.length
                               (get_or (f_relations (fields (snd kv))) [])))
            items s
  = s + fold_left (fun s kv =>
               s + Z.of_nat (List.length
                               (get_or (f_relations (fields (snd kv))) [])))
            items 0.
Proof.
  revert s. induction items as [|kv items IH]; intros s; simpl; [lia|].
  rewrite IH. rewrite (IH (Z.of_nat _)). lia.
Qed.

(** X7.  [stats] bounds every relation search: on a loaded store the
    number of records that [relation_search] returns for a tag is at
    most [num_concepts] and at most [num_relations]. *)
Theorem relation_search_within_stats
        (doc : document) (next next' : nat) (self : KnowledgeGraphSearch)
        (rel : str) :
  SearchEngine.init (Some doc) next = Ok (self, next') ->
  Z.of_nat (List.length (relation_search self rel)) <= fst (stats self)
  /\ Z.of_nat (List.length (relation_search self rel)) <= snd (stats self).
Proof.
  intros Hinit. destruct (init_loaded _ _ _ _ Hinit) as [Hl _].
  rewrite (relation_search_hits self rel Hl), hits_length.
  unfold stats. cbn [fst snd]. clear. induction (graph self) as [|kv d IH].
  - simpl. lia.
  - destruct IH as [IH1 IH2]. cbn [filter fold_left].
    rewrite sum_relations_from. rewrite Z.add_0_l.
    destruct (passes (relation_test rel) kv) eqn:E.
    + cbn [List.length].
      assert (0 < Z.of_nat (List.length
                  (get_or (f_relations (fields (snd kv))) []))).
      { unfold passes, relation_test in E.
        destruct (existsb _ _) eqn:F; [|discriminate].
        apply existsb_exists in F. destruct F as [x [Hx _]].
        apply in_map_iff in Hx. destruct Hx as [y [_ Hy]].
        destruct (get_or _ _); [contradiction | simpl; lia]. }
      rewrite Nat2Z.inj_succ. split; [lia|].
      revert IH2 H. generalize (fold_left
        (fun (s : Z) (kv : str * Obj) =>
           s + Z.of_nat (List.length
                           (get_or (f_relations (fields (snd kv))) [])))
        d 0). intros. lia.
    + cbn [List.length]. rewrite Nat2Z.inj_succ. split; [lia|].
      revert IH2. generalize (fold_left
        (fun (s : Z) (kv : str * Obj) =>
           s + Z.of_nat (List.length
                           (get_or (f_relations (fields (snd kv))) [])))
        d 0). intros. lia.
Qed.

Lemma relation_search_within_stats_witness :
  Z.of_nat (List.length (relation_search (engine_of catalogue)
                                         (lit "data_structure")))
  <= fst (stats (engine_of catalogue))
  /\ Z.of_nat (List.length (relation_search (engine_of catalogue)
                                            (lit "data_structure")))
     <= snd (stats (engine_of catalogue)).
Proof.
  apply (relation_search_within_stats catalogue 0 7 (engine_of catalogue)
                                      (lit "data_structure")).
  reflexivity.
Defined.

(* ================================================================== *)
(** * The similarity score is between 0 and 1 *)
(* ================================================================== *)

Section Columns.

Import Difflib.

Variables a b : str.

Lemma j2len_get_anchored (blo : Z) (m : list (Z * Z)) (j : Z) :
  blo <= j -> runs_anchored blo m -> j2len_get m (j - 1) <= j - blo.
Proof.
  intros Hj Hm. unfold j2len_get.
  destruct (List.find (fun p => fst p =? j - 1) m) as [p|] eqn:E; [|lia].
  apply List.find_some in E. destruct E as [Hin Hp].
  apply Z.eqb_eq in Hp. unfold runs_anchored in Hm.
  rewrite Forall_forall in Hm. specialize (Hm p Hin). lia.
Qed.

Lemma flm_row_inside_b (i blo bhi : Z) (js : list Z)
      (j2len newj2len : list (Z * Z)) (best : Match) :
  runs_anchored blo j2len -> runs_anchored blo newj2len ->
  inside_b blo bhi best ->
  let '(new, best') := flm_row i blo bhi js j2len newj2len best in
  runs_anchored blo new /\ inside_b blo bhi best'.
Proof.
  intros Hj. revert newj2len best.
  induction js as [|j js IH]; intros newj2len best Hn Hb; cbn [flm_row].
  - auto.
  - destruct (Z.ltb_spec j blo); [now apply IH|].
    destruct (Z.leb_spec bhi j); [auto|].
    destruct best as [[bi bj] bs].
    pose proof (j2len_get_anchored blo j2len j ltac:(lia) Hj) as Hk.
    apply IH.
    + constructor; [simpl; lia | exact Hn].
    + destruct (bs <? j2len_get j2len (j - 1) + 1); [|exact Hb].
      unfold inside_b. lia.
Qed.

Lemma flm_rows_inside_b (n : nat) (i blo bhi : Z)
      (j2len : list (Z * Z)) (best : Match) :
  runs_anchored blo j2len -> inside_b blo bhi best ->
  inside_b blo bhi (flm_rows a b n i blo bhi j2len best).
Proof.
  revert i j2len best. induction n as [|n IH]; intros i j2len best Hj Hb;
    cbn [flm_rows]; [exact Hb|].
  pose proof (flm_row_inside_b i blo bhi (b2j b (at_ a i)) j2len [] best Hj)
    as H.
  destruct (flm_row i blo bhi (b2j b (at_ a i)) j2len [] best) as [new best'].
  destruct H as [H1 H2]; [constructor | exact Hb |]. now apply IH.
Qed.

Lemma extend_low_inside_b (junk : bool) (fuel : nat) (alo blo bhi : Z)
      (m : Match) :
  inside_b blo bhi m -> inside_b blo bhi (extend_low a b junk fuel alo blo m).
Proof.
  revert m. induction fuel as [|f IH]; intros [[bi bj] bs] H;
    cbn [extend_low]; [exact H|].
  destruct (alo <? bi); cbn [andb]; [|exact H].
  destruct (Z.ltb_spec blo bj); cbn [andb]; [|exact H].
  destruct (_ && _); [|exact H].
  apply IH. unfold inside_b in *. lia.
Qed.

Lemma extend_high_inside_b (junk : bool) (fuel : nat) (ahi blo bhi : Z)
      (m : Match) :
  inside_b blo bhi m -> inside_b blo bhi (extend_high a b junk fuel ahi bhi m).
Proof.
  revert m. induction fuel as [|f IH]; intros [[bi bj] bs] H;
    cbn [extend_high]; [exact H|].
  destruct (bi + bs <? ahi); cbn [andb]; [|exact H].
  destruct (Z.ltb_spec (bj + bs) bhi); cbn [andb]; [|exact H].
  destruct (_ && _); [|exact H].
  apply IH. unfold inside_b in *. lia.
Qed.

Lemma find_longest_match_inside_b (alo ahi blo bhi : Z) :
  blo <= bhi -> inside_b blo bhi (find_longest_match a b alo ahi blo bhi).
Proof.
  intros H. unfold find_longest_match, low_all, high_all.
  set (m0 := flm_rows a b _ alo blo bhi [] (alo, blo, 0)).
  assert (I0 : inside_b blo bhi m0).
  { apply flm_rows_inside_b; [constructor | unfold inside_b; lia]. }
  clearbody m0. destruct m0 as [[i0 j0] k0].
  set (m1 := extend_low a b false _ alo blo (i0, j0, k0)).
  assert (I1 : inside_b blo bhi m1) by now apply extend_low_inside_b.
  clearbody m1. destruct m1 as [[i1 j1] k1].
  set (m2 := extend_high a b false _ ahi bhi (i1, j1, k1)).
  assert (I2 : inside_b blo bhi m2) by now apply extend_high_inside_b.
  clearbody m2. destruct m2 as [[i2 j2] k2].
  set (m3 := extend_low a b true _ alo blo (i2, j2, k2)).
  assert (I3 : inside_b blo bhi m3) by now apply extend_low_inside_b.
  clearbody m3. destruct m3 as [[i3 j3] k3].
  now apply extend_high_inside_b.
Qed.

Lemma total_size_snoc (l : list Match) (x : Match) :
  total_size (l ++ [x]) = total_size l + snd x.
Proof. unfold total_size. now rewrite fold_left_app. Qed.

(** The blocks found take no more rows and columns than the work list
    has open. *)
Lemma blocks_loop_sizes (fuel : nat) (queue : list (Z * Z * Z * Z))
      (acc l : list Match) :
  well_formed queue -> well_formed_b queue ->
  blocks_loop a b fuel queue acc = Some l ->
  total_size acc <= total_size l
  /\ total_size l <= total_size acc + room_a queue
  /\ total_size l <= total_size acc + room_b queue.
Proof.
  revert queue acc. induction fuel as [|f IH]; intros queue acc Ha Hb Hl;
    destruct queue as [|[[[alo ahi] blo] bhi] queue];
    cbn [blocks_loop] in Hl; try discriminate;
    try (inversion Hl; subst; cbn [room_a room_b]; lia).
  inversion Ha as [|? ? Hra Hqa]; subst. inversion Hb as [|? ? Hrb Hqb]; subst.
  simpl in Hra, Hrb.
  pose proof (find_longest_match_inside a b alo ahi blo bhi Hra) as Hia.
  pose proof (find_longest_match_inside_b alo ahi blo bhi Hrb) as Hib.
  destruct (find_longest_match a b alo ahi blo bhi) as [[i j] k].
  unfold inside in Hia. unfold inside_b in Hib. cbn [room_a room_b].
  destruct (Z.eqb_spec k 0) as [Hk | Hk].
  - destruct (IH _ _ Hqa Hqb Hl) as [H1 [H2 H3]]. lia.
  - apply IH in Hl.
    + rewrite total_size_snoc in Hl. cbn [snd] in Hl.
      destruct Hl as [H1 [H2 H3]].
      destruct (Z.ltb_spec (i + k) ahi); destruct (Z.ltb_spec (j + k) bhi);
        destruct (Z.ltb_spec alo i); destruct (Z.ltb_spec blo j);
        cbn [andb room_a room_b] in H2, H3; lia.
    + destruct ((i + k <? ahi) && (j + k <? bhi));
        destruct ((alo <? i) && (blo <? j));
        repeat (constructor; try lia); exact Hqa.
    + destruct (Z.ltb_spec (i + k) ahi); destruct (Z.ltb_spec (j + k) bhi);
        destruct (Z.ltb_spec alo i); destruct (Z.ltb_spec blo j);
        cbn [andb]; repeat (constructor; try lia); exact Hqb.
Qed.

Lemma matches_bounded :
  0 <= total_size (matching_blocks a b) <= Z.min (len a) (len b).
Proof.
  unfold matching_blocks. destruct (matching_blocks_total a b) as [l Hl].
  rewrite Hl. apply blocks_loop_sizes in Hl.
  - cbn [room_a room_b] in Hl. change (total_size []) with 0 in Hl. lia.
  - constructor; [apply len_nonneg | constructor].
  - constructor; [apply len_nonneg | constructor].
Qed.

(** [ratio] lies between 0 and 1. *)
Lemma ratio_unit_interval : (0 <= ratio a b)%Q /\ (ratio a b <= 1)%Q.
Proof.
  unfold ratio. fold (total_size (matching_blocks a b)).
  pose proof matches_bounded as H.
  pose proof (len_nonneg a). pose proof (len_nonneg b).
  unfold calculate_ratio. destruct (Z.eqb_spec (len a + len b) 0).
  - split; unfold Qle; simpl; lia.
  - split; unfold Qle; cbn [Qnum Qden]; rewrite ?Z2Pos.id by lia; lia.
Qed.

End Columns.

(** X9.  [similarity] is a score between 0 and 1, for all strings; it
    is 0 when either string is empty. *)
Theorem similarity_unit_interval (a b : str) :
  (0 <= similarity a b)%Q /\ (similarity a b <= 1)%Q
  /\ (a = [] \/ b = [] -> similarity a b = 0%Q).
Proof.
  unfold similarity. split; [|split].
  - destruct (is_empty a || is_empty b); [unfold Qle; simpl; lia|].
    apply ratio_unit_interval.
  - destruct (is_empty a || is_empty b); [unfold Qle; simpl; lia|].
    apply ratio_unit_interval.
  - intros [-> | ->]; [reflexivity|]. simpl. now rewrite orb_true_r.
Qed.

Lemma similarity_unit_interval_witness :
  similarity [] (lit "stack") = 0%Q.
Proof.
  apply (proj2 (proj2 (similarity_unit_interval [] (lit "stack")))).
  left. reflexivity.
Defined.

(* ================================================================== *)
(** * When fuzzy_search returns, and what its entries hold *)
(* ================================================================== *)

Lemma dict_set_in {V} (d : dict V) (k k' : str) (v v' : V) :
  In (k', v') (dict_set d k v) -> (k', v') = (k, v) \/ In (k', v') d.
Proof.
  induction d as [|[k0 v0] d IH]; simpl.
  - intros [H | []]. left. now symmetry.
  - destruct (str_eqb k0 k) eqn:E.
    + apply str_eqb_eq in E. subst k0. intros [H | H]; [left | right; right];
        auto.
    + intros [H | H]; [right; now left|].
      destruct (IH H); [now left | right; now right].
Qed.

Lemma fuzzy_loop_entries (self : KnowledgeGraphSearch) (norm : str)
      (close : list str) (res res' : dict FuzzyHit) :
  fuzzy_loop self norm close res = Ok res' ->
  forall k h,
    In (k, h) res' ->
    In (k, h) res
    \/ exists d, In (k, d) (graph self) /\ h = fuzzy_hit norm k d.
Proof.
  revert res. induction close as [|k0 close IH]; intros res Hr k h Hin.
  - inversion Hr; subst. now left.
  - cbn [fuzzy_loop] in Hr.
    destruct (dict_get (graph self) k0) as [d|] eqn:E; [|discriminate].
    destruct (IH _ Hr k h Hin) as [H | H]; [|now right].
    apply dict_set_in in H. destruct H as [H | H]; [|now left].
    inversion H; subst. right. exists d. split; [|reflexivity].
    now apply dict_get_in.
Qed.

(** X8.  On a loaded store [fuzzy_search] returns exactly when the limit
    is at least 1 and the cutoff lies between 0 and 1, and raises
    [ValueError] otherwise; it never raises [KeyError].  Every entry it
    returns belongs to a record of the store under the same key, and
    carries that record's name (the key when the name is missing), its
    type (or [unknown]) and, as [match_score], the similarity of the
    normalised query to the key, a number between 0 and 1. *)
Theorem fuzzy_search_outcome
        (doc : document) (next next' : nat) (self : KnowledgeGraphSearch)
        (q : str) (limit : Z) (cutoff : Q) :
  SearchEngine.init (Some doc) next = Ok (self, next') ->
  (0 < limit /\ (0 <= cutoff)%Q /\ (cutoff <= 1)%Q ->
   exists res,
     fuzzy_search self q limit cutoff = Ok res
     /\ forall k h,
         In (k, h) res ->
         (exists d, In (k, d) (graph self)
                    /\ h = fuzzy_hit (normalize_key q) k d)
         /\ (0 <= match_score h)%Q /\ (match_score h <= 1)%Q)
  /\ (~ (0 < limit /\ (0 <= cutoff)%Q /\ (cutoff <= 1)%Q) ->
      fuzzy_search self q limit cutoff = Raise ValueError).
Proof.
  intros Hinit. destruct (init_loaded _ _ _ _ Hinit) as [Hl _]. split.
  - intros [H1 [H2 H3]].
    destruct (fuzzy_search_ranked self q limit cutoff Hl H1 H2 H3)
      as [res [Hr _]].
    exists res. split; [exact Hr|]. intros k h Hin.
    unfold fuzzy_search in Hr.
    destruct (Difflib.get_close_matches _ _ _ _) as [close|]; [|discriminate].
    cbn [bind] in Hr.
    destruct (fuzzy_loop_entries self _ close [] res Hr k h Hin)
      as [[] | [d [Hd ->]]].
    split; [now exists d|]. cbn [match_score fuzzy_hit].
    pose proof (similarity_unit_interval (normalize_key q) k). tauto.
  - intros Hn. apply fuzzy_search_raises.
    destruct (Z.lt_ge_cases 0 limit) as [Hlim | Hlim]; [|left; lia].
    right. intros [H2 H3]. apply Hn. auto.
Qed.

Lemma fuzzy_search_outcome_witness :
  (exists res,
      fuzzy_search (engine_of catalogue) (lit "binary serch") 5 (6 # 10)
      = Ok res
      /\ forall k h,
          In (k, h) res ->
          (exists d, In (k, d) (graph (engine_of catalogue))
                     /\ h = fuzzy_hit (normalize_key (lit "binary serch")) k d)
          /\ (0 <= match_score h)%Q /\ (match_score h <= 1)%Q)
  /\ fuzzy_search (engine_of catalogue) (lit "binary serch") 0 (6 # 10)
     = Raise ValueError.
Proof.
  split.
  - apply (proj1 (fuzzy_search_outcome catalogue 0 7 (engine_of catalogue)
                                       (lit "binary serch") 5 (6 # 10)
                                       eq_refl)).
    split; [lia | split; unfold Qle; simpl; lia].
  - apply (proj2 (fuzzy_search_outcome catalogue 0 7 (engine_of catalogue)
                                       (lit "binary serch") 0 (6 # 10)
                                       eq_refl)).
    intros [H _]. lia.
Defined.

(* ================================================================== *)
(** * The tutor's two copies of the graph *)
(* ================================================================== *)

Section Copies.

Lemma content_keys (d : dict Obj) : dict_keys (content d) = dict_keys d.
Proof. unfold content, dict_keys. rewrite map_map. reflexivity. Qed.

Lemma content_dict_set (d : dict Obj) (k : str) (o : Obj) :
  content (dict_set d k o) = dict_set (content d) k (fields o).
Proof.
  induction d as [|[k' o'] d IH]; simpl; [reflexivity|].
  destruct (str_eqb k' k); simpl; [reflexivity | now rewrite IH].
Qed.

Lemma load_pairs_content (doc : document) (d d' : dict Obj) (n n' : nat) :
  content d = content d' ->
  content (fst (load_pairs doc d n)) = content (fst (load_pairs doc d' n')).
Proof.
  revert d d' n n'. induction doc as [|[k f] doc IH]; intros d d' n n' H;
    [exact H|].
  cbn [load_pairs]. apply IH. rewrite !content_dict_set. simpl. now rewrite H.
Qed.

Lemma addresses_dict_set (d : dict Obj) (k : str) (o : Obj) (x : nat) :
  In x (addresses (dict_set d k o)) -> x = addr o \/ In x (addresses d).
Proof.
  induction d as [|[k' o'] d IH]; simpl.
  - intros [H | []]. now left.
  - destruct (str_eqb k' k); simpl.
    + intros [H | H]; [now left | right; now right].
    + intros [H | H]; [right; now left|].
      destruct (IH H); [now left | right; now right].
Qed.

Lemma dict_set_fresh_address (lo next : nat) (d : dict Obj) (k : str)
      (f : Fields) :
  allocated lo next d -> NoDup (addresses d) ->
  NoDup (addresses (dict_set d k {| addr := next; fields := f |})).
Proof.
  intros Ha Hn. induction d as [|[k' o'] d IH]; simpl.
  - repeat constructor. simpl. tauto.
  - inversion Ha as [|? ? Ho Hd]; subst. inversion Hn as [|? ? Hx Hnd]; subst.
    simpl in Ho. destruct (str_eqb k' k); simpl.
    + constructor; [|exact Hnd]. intros Hin. unfold allocated in Hd.
      rewrite Forall_forall in Hd. unfold addresses in Hin.
      apply in_map_iff in Hin. destruct Hin as [kv [Hkv Hin]].
      specialize (Hd kv Hin). lia.
    + constructor; [|now apply IH].
      intros Hin. apply addresses_dict_set in Hin. simpl in Hin.
      destruct Hin as [Hin | Hin]; [lia | contradiction].
Qed.

Lemma load_pairs_addresses (doc : document) (d : dict Obj) (lo next : nat) :
  (lo <= next)%nat -> allocated lo next d -> NoDup (addresses d) ->
  NoDup (addresses (fst (load_pairs doc d next))).
Proof.
  revert d next. induction doc as [|[k f] doc IH]; intros d next Hlo Ha Hn;
    [exact Hn|].
  cbn [load_pairs]. apply IH.
  - lia.
  - apply dict_set_forall.
    + eapply Forall_impl; [|exact Ha]. simpl. intros; lia.
    + intros k'. simpl. lia.
  - now apply (dict_set_fresh_address lo).
Qed.

Lemma tutor_init_loaded (doc : document) (next next' : nat)
      (self : DsaTutorEngine) :
  Tutor.init (Some doc) next = Ok (self, next') -> tutor_loaded self.
Proof.
  intros Hinit. destruct (tutor_init_inv _ _ _ _ Hinit) as [mid [Hown Hen]].
  destruct (init_loaded _ _ _ _ Hen) as [Hl [Hst _]].
  unfold Tutor.init in Hinit.
  pose proof (json_load_inv doc next) as Hj.
  pose proof (load_pairs_addresses doc [] next next (Nat.le_refl _)
                                   (Forall_nil _) (NoDup_nil _)) as Hadd.
  pose proof (load_pairs_content doc [] [] next) as Hcon.
  unfold json_load in *. destruct (load_pairs doc [] next) as [own m] eqn:Eo.
  destruct Hj as [Hnd _]. unfold SearchEngine.init, json_load in Hinit.
  specialize (Hcon m eq_refl).
  destruct (load_pairs doc [] m) as [g n] eqn:Eg.
  cbn in Hinit. inversion Hinit; subst. cbn [kg engine graph] in *.
  split; [exact Hl|]. split; [exact Hcon|]. split; [exact Hnd|].
  split; [exact Hadd|].
  intros k o k' o' Ho Ho'.
  exact (separate_objects _ _ _ _ _ _ _ _ _ Hown Hst Ho Ho').
Qed.

End Copies.

(** X10.  Building a tutor fails with [FileNotFoundError] exactly when
    the file is missing.  When it succeeds, the tutor's own graph and
    the graph of its engine hold the same keys and fields in the same
    order, the keys of each are unique, and the two graphs share no
    object: they are two copies of the file. *)
Theorem tutor_holds_two_copies (file : option document) (next : nat) :
  (file = None -> Tutor.init file next = Raise FileNotFoundError)
  /\ (forall doc,
         file = Some doc ->
         exists self next',
           Tutor.init file next = Ok (self, next')
           /\ content (kg self) = content (graph (engine self))
           /\ NoDup (dict_keys (kg self))
           /\ NoDup (dict_keys (graph (engine self)))
           /\ (forall k o k' o',
                  In (k, o) (kg self) ->
                  In (k', o') (graph (engine self)) ->
                  is_ o o' = false)).
Proof.
  split; [intros ->; reflexivity|]. intros doc ->.
  assert (Ht : exists self next', Tutor.init (Some doc) next = Ok (self, next')).
  { unfold Tutor.init. destruct (json_load doc next) as [own mid].
    destruct (init_total doc mid) as [e [n He]]. rewrite He. cbn.
    eexists _, _. reflexivity. }
  destruct Ht as [self [next' Ht]]. exists self, next'.
  split; [exact Ht|].
  destruct (tutor_init_loaded _ _ _ _ Ht) as [[H1 _] [H2 [H3 [_ H5]]]].
  auto.
Qed.

Lemma tutor_holds_two_copies_witness :
  exists self next',
    Tutor.init (Some catalogue) 0 = Ok (self, next')
    /\ content (kg self) = content (graph (engine self))
    /\ NoDup (dict_keys (kg self))
    /\ NoDup (dict_keys (graph (engine self)))
    /\ (forall k o k' o',
           In (k, o) (kg self) ->
           In (k', o') (graph (engine self)) ->
           is_ o o' = false).
Proof.
  apply (proj2 (tutor_holds_two_copies (Some catalogue) 0) catalogue).
  reflexivity.
Defined.

(* ================================================================== *)
(** * The selector on fuzzy results *)
(* ================================================================== *)

Section FirstBest.

Context {A : Type} (s : A -> Q).

Lemma insert_desc_head (x : A) (acc : list A) :
  hd_error (insert_desc (by_key s) x acc)
  = Some (match acc with
          | [] => x
          | h :: _ => match by_key s x h with Gt => x | _ => h end
          end).
Proof.
  destruct acc as [|h acc]; simpl; [reflexivity|].
  now destruct (by_key s x h).
Qed.

Lemma sorted_desc_from_head (rest done acc : list A) (best : A) :
  first_best s done best -> hd_error acc = Some best ->
  exists best',
    first_best s (done ++ rest) best'
    /\ hd_error (fold_left (fun acc x => insert_desc (by_key s) x acc)
                           rest acc)
       = Some best'.
Proof.
  revert done acc best. induction rest as [|x rest IH];
    intros done acc best Hb Hh.
  - exists best. now rewrite app_nil_r.
  - cbn [fold_left]. pose proof (insert_desc_head x acc) as Hi.
    destruct acc as [|h acc]; [discriminate|]. simpl in Hh.
    inversion Hh; subst h. destruct Hb as [pre [post [Hd [Hpre Hpost]]]].
    replace (done ++ x :: rest) with ((done ++ [x]) ++ rest)
      by now rewrite <- app_assoc.
    destruct (by_key s x best) eqn:E; unfold by_key in E.
    + apply (IH _ _ best); [|exact Hi].
      exists pre, (post ++ [x]). split; [|split; [exact Hpre|]].
      * rewrite Hd, <- app_assoc. reflexivity.
      * intros y Hy. apply in_app_or in Hy. destruct Hy as [Hy | [<- | []]];
          [now apply Hpost|]. apply Qeq_alt in E. rewrite E. apply Qle_refl.
    + apply (IH _ _ best); [|exact Hi].
      exists pre, (post ++ [x]). split; [|split; [exact Hpre|]].
      * rewrite Hd, <- app_assoc. reflexivity.
      * intros y Hy. apply in_app_or in Hy. destruct Hy as [Hy | [<- | []]];
          [now apply Hpost|]. apply Qlt_alt in E. now apply Qlt_le_weak.
    + apply (IH _ _ x); [|exact Hi]. apply Qgt_alt in E.
      exists done, []. split; [reflexivity|]. split; [|intros y []].
      intros y Hy. rewrite Hd in Hy. apply in_app_or in Hy.
      destruct Hy as [Hy | [<- | Hy]].
      * eapply Qlt_trans; [now apply Hpre | exact E].
      * exact E.
      * eapply Qle_lt_trans; [now apply Hpost | exact E].
Qed.

(** The head of [sorted(l, key=s, reverse=True)] is the first element of
    [l] with the highest score. *)
Lemma sorted_desc_head (x : A) (l : list A) :
  exists best,
    first_best s (x :: l) best
    /\ hd_error (sorted_desc (by_key s) (x :: l)) = Some best.
Proof.
  unfold sorted_desc. cbn [fold_left insert_desc].
  apply (sorted_desc_from_head l [x] [x] x); [|reflexivity].
  exists [], []. split; [reflexivity|]. split; intros y [].
Qed.

End FirstBest.

(** X11.  When the exact field is empty or missing and the fuzzy mapping
    is not empty, the selector looks up, in the tutor's own graph, the
    fuzzy key with the highest [match_score]; among keys with the same
    score it takes the one that comes first in the mapping. *)
Theorem pick_takes_first_best_fuzzy
        (self : DsaTutorEngine) (results : Composite) :
  exact_truthy results = false -> fuzzy results <> [] ->
  exists best,
    first_best (score_of (fuzzy results)) (dict_keys (fuzzy results)) best
    /\ hd_error (by_score (fuzzy results)) = Some best
    /\ pick_best_concept_from_results self results
       = dict_get (kg self) best.
Proof.
  intros He Hf. unfold pick_best_concept_from_results. rewrite He.
  destruct (fuzzy results) as [|[k h] fz] eqn:E; [congruence|].
  destruct (sorted_desc_head (score_of ((k, h) :: fz)) k (dict_keys fz))
    as [best [Hb Hh]].
  exists best. split; [exact Hb|]. unfold by_score.
  change (dict_keys ((k, h) :: fz)) with (k :: dict_keys fz).
  split; [exact Hh|].
  destruct (sorted_desc _ (k :: dict_keys fz)); [discriminate|].
  now inversion Hh.
Qed.

Lemma pick_takes_first_best_fuzzy_witness :
  exists best,
    first_best (score_of (fuzzy tied_composite))
               (dict_keys (fuzzy tied_composite)) best
    /\ hd_error (by_score (fuzzy tied_composite)) = Some best
    /\ pick_best_concept_from_results (tutor_of catalogue) tied_composite
       = dict_get (kg (tutor_of catalogue)) best.
Proof.
  apply (pick_takes_first_best_fuzzy (tutor_of catalogue) tied_composite).
  - reflexivity.
  - discriminate.
Defined.

Example tied_picks_first :
  pick_best_concept_from_results (tutor_of catalogue) tied_composite
  = Some {| addr := 5; fields := bfs_node |}.
Proof. reflexivity. Qed.

(* ================================================================== *)
(** * The source that explain_concept reports *)
(* ================================================================== *)

Section Sources.

Variable fill : str -> Z -> str.

Lemma find_matched_key_own (items : dict Obj) (k : str) (c : Obj) :
  NoDup (addresses items) -> In (k, c) items ->
  find_matched_key items c = Some k.
Proof.
  induction items as [|[k' o] items IH]; intros Hn Hin; [contradiction|].
  cbn [find_matched_key]. inversion Hn as [|? ? Hx Hnd]; subst.
  destruct Hin as [H | H].
  - inversion H; subst. now rewrite is_refl.
  - destruct (is_ o c) eqn:E; [|now apply IH].
    exfalso. apply Hx. unfold is_ in E. apply Nat.eqb_eq in E. simpl.
    rewrite E. unfold addresses. apply in_map_iff. now exists (k, c).
Qed.

Lemma keys_in_own_graph (self : DsaTutorEngine) (k : str) :
  tutor_loaded self -> In k (dict_keys (graph (engine self))) ->
  exists c, In (k, c) (kg self) /\ dict_get (kg self) k = Some c.
Proof.
  intros [_ [Hc [Hnd _]]] Hin.
  rewrite <- content_keys, <- Hc, content_keys in Hin.
  destruct (dict_get (kg self) k) as [c|] eqn:E.
  - exists c. split; [now apply dict_get_in | reflexivity].
  - apply dict_get_none in E. contradiction.
Qed.

(** The answer for a concept that the selector took from the tutor's
    own graph under the key [k]. *)
Lemma explain_results_own (self : DsaTutorEngine) (query : str)
      (results : Composite) (k : str) (c : Obj) :
  tutor_loaded self ->
  (forall e, exact results = Some e -> exists k', In (k', e) (graph (engine self))) ->
  pick_best_concept_from_results self results = Some c ->
  In (k, c) (kg self) -> k <> [] ->
  let ans := explain_results fill self query results in
  concept ans = Some c
  /\ matched_key ans = Some k
  /\ match_source ans
     = if dict_has (fuzzy results) k then fuzzy_source else keyword_source.
Proof.
  intros Hl He Hp Hin Hk. destruct Hl as [_ [_ [_ [Hadd Hsep]]]].
  unfold explain_results. rewrite Hp.
  rewrite (find_matched_key_own _ k c Hadd Hin). cbn.
  assert (Hx : match exact results with
               | Some e => is_ e c
               | None => false
               end = false).
  { destruct (exact results) as [e|] eqn:E; [|reflexivity].
    destruct (He e eq_refl) as [k' Hk'].
    pose proof (Hsep k c k' e Hin Hk') as H. unfold is_ in *.
    now rewrite Nat.eqb_sym. }
  rewrite Hx. destruct k; [congruence|]. cbn [is_empty negb andb].
  repeat split.
Qed.

End Sources.

(** X12.  On a tutor built from a file, for a non-blank name on which
    the exact strategy finds nothing (or only an empty record) while the
    fuzzy mapping is not empty, [explain_concept] answers with the
    tutor's own record for the best fuzzy key: the source is [fuzzy] and
    [matched_key] is that key, provided the key is not the empty
    string. *)
Theorem explain_concept_fuzzy_source
        (fill : str -> Z -> str) (doc : document) (next next' : nat)
        (self : DsaTutorEngine) (name : str) (results : Composite)
        (best : str) :
  Tutor.init (Some doc) next = Ok (self, next') ->
  blank name = false ->
  comprehensive_search (engine self) (strip name) = Ok results ->
  exact_truthy results = false ->
  hd_error (by_score (fuzzy results)) = Some best ->
  best <> [] ->
  exists ans c,
    explain_concept fill self name = Ok ans
    /\ In (best, c) (kg self)
    /\ concept ans = Some c
    /\ matched_key ans = Some best
    /\ match_source ans = fuzzy_source.
Proof.
  intros Hinit Hb Hc He Hh Hn.
  pose proof (tutor_init_loaded _ _ _ _ Hinit) as Hl.
  pose proof Hl as [Hle _].
  destruct (comprehensive_search_ok _ (strip name) Hle) as [fz [Hf Hc']].
  rewrite Hc in Hc'. inversion Hc'; subst results. clear Hc'.
  cbn [fuzzy exact] in *.
  destruct (fuzzy_search_ranked _ (strip name) 5 (6 # 10) Hle)
    as [fz' [Hf' [_ [Hkeys _]]]];
    [lia | unfold Qle; simpl; lia | unfold Qle; simpl; lia |].
  rewrite Hf in Hf'. inversion Hf'; subst fz'. clear Hf'.
  assert (Hin : In best (dict_keys fz)).
  { unfold by_score in Hh.
    pose proof (sorted_desc_perm
                  (fun k1 k2 => Qcompare (score_of fz k1) (score_of fz k2))
                  (dict_keys fz)) as Hp.
    destruct (sorted_desc _ (dict_keys fz)) as [|b l]; [discriminate|].
    inversion Hh; subst b. eapply Permutation_in; [exact Hp | now left]. }
  destruct (keys_in_own_graph self best Hl (proj1 (Hkeys best Hin)))
    as [c [Hc1 Hc2]].
  set (results := {| exact := exact_search (engine self) (strip name);
                     fuzzy := fz;
                     related := relation_search (engine self) (strip name);
                     keyword := keyword_search (engine self) (strip name) |})
    in *.
  assert (Hp : pick_best_concept_from_results self results = Some c).
  { unfold pick_best_concept_from_results. rewrite He.
    change (fuzzy results) with fz.
    destruct fz as [|kv fz0]; [contradiction|].
    destruct (by_score (kv :: fz0)); [discriminate|].
    inversion Hh. now subst. }
  destruct (explain_results_own fill self (strip name) results best c Hl)
    as [H1 [H2 H3]]; auto.
  { intros e Hx. exists (normalize_key (strip name)).
    now apply dict_get_in. }
  exists (explain_results fill self (strip name) results), c.
  split.
  { unfold explain_concept. rewrite is_empty_strip, Hb, Hc. reflexivity. }
  split; [exact Hc1|]. split; [exact H1|]. split; [exact H2|].
  rewrite H3. change (fuzzy results) with fz.
  apply dict_has_in in Hin. now rewrite Hin.
Qed.

Lemma explain_concept_fuzzy_source_witness :
  exists ans c,
    explain_concept no_wrap (tutor_of catalogue) (lit "binary serch") = Ok ans
    /\ In (lit "binary_search", c) (kg (tutor_of catalogue))
    /\ concept ans = Some c
    /\ matched_key ans = Some (lit "binary_search")
    /\ match_source ans = fuzzy_source.
Proof.
  destruct (comprehensive_search (engine (tutor_of catalogue))
                                 (strip (lit "binary serch")))
    as [results|] eqn:E; [|vm_compute in E; discriminate].
  apply (explain_concept_fuzzy_source
           no_wrap catalogue 0 14 (tutor_of catalogue) (lit "binary serch")
           results (lit "binary_search")).
  - reflexivity.
  - reflexivity.
  - exact E.
  - vm_compute in E. inversion E. reflexivity.
  - vm_compute in E. inversion E. reflexivity.
  - discriminate.
Defined.

(** X13.  On a tutor built from a file, for a non-blank name on which
    the exact strategy finds nothing (or only an empty record) and the
    fuzzy mapping is empty while the keyword mapping is not, the answer
    is the tutor's own record for the first keyword hit: the source is
    [keyword] and [matched_key] is that key, provided the key is not the
    empty string. *)
Theorem explain_concept_keyword_source
        (fill : str -> Z -> str) (doc : document) (next next' : nat)
        (self : DsaTutorEngine) (name : str) (results : Composite)
        (first : str) :
  Tutor.init (Some doc) next = Ok (self, next') ->
  blank name = false ->
  comprehensive_search (engine self) (strip name) = Ok results ->
  exact_truthy results = false ->
  fuzzy results = [] ->
  hd_error (dict_keys (keyword results)) = Some first ->
  first <> [] ->
  exists ans c,
    explain_concept fill self name = Ok ans
    /\ In (first, c) (kg self)
    /\ concept ans = Some c
    /\ matched_key ans = Some first
    /\ match_source ans = keyword_source.
Proof.
  intros Hinit Hb Hc He Hf Hh Hn.
  pose proof (tutor_init_loaded _ _ _ _ Hinit) as Hl.
  pose proof Hl as [Hle _].
  pose proof (keyword_search_hits (engine self) (strip name) Hle) as Hkh.
  destruct (comprehensive_search_ok _ (strip name) Hle) as [fz [_ Hc']].
  rewrite Hc in Hc'. inversion Hc' as [Hr].
  assert (Hk : keyword results = keyword_search (engine self) (strip name))
    by now rewrite Hr.
  assert (Hx : exact results = exact_search (engine self) (strip name))
    by now rewrite Hr.
  clear Hc' Hr.
  assert (Hin : In first (dict_keys (graph (engine self)))).
  { rewrite Hk, Hkh, hits_keys in Hh.
    destruct (filter _ (graph (engine self))) as [|kv l] eqn:F;
      [discriminate|].
    simpl in Hh. inversion Hh. subst first.
    assert (In kv (graph (engine self))).
    { apply (proj1 (filter_In (passes (keyword_test (strip name))) kv
                              (graph (engine self)))).
      rewrite F. now left. }
    now apply (in_map fst). }
  destruct (keys_in_own_graph self first Hl Hin) as [c [Hc1 Hc2]].
  assert (Hp : pick_best_concept_from_results self results = Some c).
  { unfold pick_best_concept_from_results. rewrite He, Hf.
    destruct (dict_keys (keyword results)); [discriminate|].
    inversion Hh. now subst. }
  destruct (explain_results_own fill self (strip name) results first c Hl)
    as [H1 [H2 H3]]; auto.
  { intros e Hxe. exists (normalize_key (strip name)).
    rewrite Hx in Hxe. now apply dict_get_in. }
  exists (explain_results fill self (strip name) results), c.
  split.
  { unfold explain_concept. rewrite is_empty_strip, Hb, Hc. reflexivity. }
  split; [exact Hc1|]. split; [exact H1|]. split; [exact H2|].
  rewrite H3, Hf. reflexivity.
Qed.

Lemma explain_concept_keyword_source_witness :
  exists ans c,
    explain_concept no_wrap (tutor_of catalogue) (lit "LIFO") = Ok ans
    /\ In (lit "stack", c) (kg (tutor_of catalogue))
    /\ concept ans = Some c
    /\ matched_key ans = Some (lit "stack")
    /\ match_source ans = keyword_source.
Proof.
  destruct (comprehensive_search (engine (tutor_of catalogue))
                                 (strip (lit "LIFO")))
    as [results|] eqn:E; [|vm_compute in E; discriminate].
  apply (explain_concept_keyword_source
           no_wrap catalogue 0 14 (tutor_of catalogue) (lit "LIFO")
           results (lit "stack")).
  - reflexivity.
  - reflexivity.
  - exact E.
  - vm_compute in E. inversion E. reflexivity.
  - vm_compute in E. inversion E. reflexivity.
  - vm_compute in E. inversion E. reflexivity.
  - discriminate.
Defined.

(* ================================================================== *)
(** * The second search of answer, and the empty record *)
(* ================================================================== *)

(** X14.  For a free-text query without a recognised prefix, [answer]
    selects a concept and then explains it by searching again for the
    concept's display name.  When the exact strategy finds that name,
    the answer carries the trimmed name as [query], the source [exact]
    and no matched key, whichever strategy matched the user's text. *)
Theorem answer_searches_again_by_name
        (fill : str -> Z -> str) (doc : document) (next next' : nat)
        (self : DsaTutorEngine) (user_query : str) (results : Composite)
        (c c' : Obj) :
  Tutor.init (Some doc) next = Ok (self, next') ->
  blank user_query = false ->
  (forall prefix, In prefix prefixes ->
                  startswith (lower (strip user_query)) prefix = false) ->
  comprehensive_search (engine self) (strip user_query) = Ok results ->
  pick_best_concept_from_results self results = Some c ->
  blank (get_or (f_name (fields c)) []) = false ->
  exact_search (engine self) (get_or (f_name (fields c)) []) = Some c' ->
  nonempty (fields c') = true ->
  exists ans,
    answer fill self user_query = Ok ans
    /\ Tutor.query ans = strip (get_or (f_name (fields c)) [])
    /\ match_source ans = exact_source
    /\ matched_key ans = None
    /\ concept ans = Some c'.
Proof.
  intros Hinit Hb Hn Hc Hp Hbn He Hne.
  pose proof (tutor_init_loaded _ _ _ _ Hinit) as [Hl [_ [_ [_ Hsep]]]].
  set (n := get_or (f_name (fields c)) []) in *.
  assert (Ha : answer fill self user_query = explain_concept fill self n).
  { unfold answer. rewrite is_empty_strip, Hb.
    rewrite (answer_prefixes_none fill self _ Hn).
    unfold answer_generic. rewrite Hc. cbn [bind]. now rewrite Hp. }
  destruct (explain_concept_runs fill self n Hl Hbn) as [r [_ [Hx Hr]]].
  rewrite He in Hx.
  destruct (explain_results_exact fill self (strip n) r c' Hx Hne)
    as [H1 [H2 [H3 H4]]].
  eexists. split; [rewrite Ha; exact Hr|].
  split; [exact H4|]. split; [exact H1|]. split; [|exact H2].
  rewrite H3. apply find_matched_key_none. intros k o Ho.
  unfold exact_search in He. apply dict_get_in in He.
  exact (Hsep k o _ c' Ho He).
Qed.

Lemma answer_searches_again_by_name_witness :
  exists ans,
    answer no_wrap (tutor_of catalogue) (lit "binary serch") = Ok ans
    /\ Tutor.query ans = lit "Binary Search"
    /\ match_source ans = exact_source
    /\ matched_key ans = None
    /\ concept ans = Some {| addr := 11; fields := binary_search_node |}.
Proof.
  destruct (comprehensive_search (engine (tutor_of catalogue))
                                 (strip (lit "binary serch")))
    as [results|] eqn:E; [|vm_compute in E; discriminate].
  apply (answer_searches_again_by_name
           no_wrap catalogue 0 14 (tutor_of catalogue) (lit "binary serch")
           results {| addr := 4; fields := binary_search_node |}).
  - reflexivity.
  - reflexivity.
  - intros prefix [<- | [<- | [<- | []]]]; reflexivity.
  - exact E.
  - vm_compute in E. inversion E. reflexivity.
  - reflexivity.
  - reflexivity.
  - reflexivity.
Defined.

Lemma empty_fields (f : Fields) :
  nonempty f = false -> f_category f = None.
Proof.
  unfold nonempty. destruct (f_category f); [|reflexivity].
  simpl. rewrite !orb_true_r. simpl. discriminate.
Qed.

(** X15.  When the selector returns a record that is the empty object,
    the answer is not a not-found answer: it carries the record as
    concept, a source other than [none], and as text the fixed sentence
    that no information could be found. *)
Theorem empty_record_is_explained
        (fill : str -> Z -> str) (self : DsaTutorEngine) (query : str)
        (results : Composite) (c : Obj) :
  pick_best_concept_from_results self results = Some c ->
  nonempty (fields c) = false ->
  let ans := explain_results fill self query results in
  concept ans = Some c
  /\ match_source ans <> none_source
  /\ answer_markdown ans
     = lit "I could not find any information for this concept.".
Proof.
  intros Hp Hn. unfold explain_results. rewrite Hp. cbn.
  split; [reflexivity|]. split.
  - destruct (match exact results with Some e => is_ e c | None => false end);
      [discriminate|].
    destruct (match find_matched_key (kg self) c with
              | Some k => _ | None => false end); discriminate.
  - unfold build_concept_explanation. rewrite Hn. cbn [negb].
    now rewrite (empty_fields _ Hn).
Qed.

Lemma empty_record_is_explained_witness :
  exists results,
    comprehensive_search (engine (tutor_of hollow_catalogue)) (lit "stack")
    = Ok results
    /\ answer_markdown (explain_results no_wrap (tutor_of hollow_catalogue)
                                        (lit "stack") results)
       = lit "I could not find any information for this concept.".
Proof.
  eexists. split; [vm_compute; reflexivity|].
  apply (empty_record_is_explained
           no_wrap (tutor_of hollow_catalogue) (lit "stack") _
           {| addr := 0; fields := empty_node |}).
  - reflexivity.
  - reflexivity.
Defined.

(* ================================================================== *)
(** * The builder's relation tags *)
(* ================================================================== *)

Section SortedSet.

Lemma code_inj (c d : ascii) : code c = code d -> c = d.
Proof.
  unfold code. intros H. apply (f_equal ascii_of_N) in H.
  now rewrite !ascii_N_embedding in H.
Qed.

Lemma str_compare_eq (s t : str) : str_compare s t = Eq -> s = t.
Proof.
  revert t. induction s as [|c s IH]; intros [|d t]; simpl; try discriminate;
    [reflexivity|].
  destruct (N.compare (code c) (code d)) eqn:E; try discriminate.
  intros H. apply N.compare_eq in E. apply code_inj in E.
  f_equal; [exact E | now apply IH].
Qed.

Lemma insert_asc_in (x t : str) (l : list str) :
  In t (insert_asc x l) <-> t = x \/ In t l.
Proof.
  induction l as [|y l IH]; simpl; [intuition|].
  destruct (str_compare x y) eqn:E; simpl.
  - apply str_compare_eq in E. subst. intuition.
  - intuition.
  - rewrite IH. intuition.
Qed.

Lemma insert_asc_sorted (x : str) (l : list str) :
  Sorted ascending l -> Sorted ascending (insert_asc x l).
Proof.
  induction l as [|y l IH]; intros Hs; simpl; [repeat constructor|].
  destruct (str_compare x y) eqn:E.
  - exact Hs.
  - constructor; [exact Hs | now constructor].
  - inversion Hs as [|? ? Hs' Hh]; subst. constructor; [now apply IH|].
    assert (Hyx : ascending y x).
    { unfold ascending. rewrite str_compare_opp, E. reflexivity. }
    destruct l as [|z l]; simpl; [now constructor|].
    destruct (str_compare x z); constructor; auto; now inversion Hh.
Qed.

Lemma sorted_set_in (l : list str) (t : str) :
  In t (sorted_set l) <-> In t l.
Proof.
  unfold sorted_set.
  assert (G : forall acc, In t (fold_left (fun acc x => insert_asc x acc) l acc)
                          <-> In t acc \/ In t l).
  { induction l as [|x l IH]; intros acc; simpl; [tauto|].
    rewrite IH, insert_asc_in. intuition. }
  rewrite G. simpl. tauto.
Qed.

Lemma sorted_set_sorted (l : list str) : Sorted ascending (sorted_set l).
Proof.
  unfold sorted_set.
  assert (G : forall acc, Sorted ascending acc ->
     Sorted ascending (fold_left (fun acc x => insert_asc x acc) l acc)).
  { induction l as [|x l IH]; intros acc Ha; simpl; [exact Ha|].
    apply IH. now apply insert_asc_sorted. }
  apply G. constructor.
Qed.

End SortedSet.

(** X16.  The relation tags that the builder infers for a concept are
    listed in strictly ascending order, always hold the concept's
    category ([data_structure] when the base record has none), and hold
    a tag exactly when one of the rules on the concept's name, or the
    category, puts it there. *)
Theorem generate_auto_relations_sorted
        (concept_name : str) (base_data : Fields) :
  Sorted ascending (generate_auto_relations concept_name base_data)
  /\ In (get_or (f_category base_data) (lit "data_structure"))
        (generate_auto_relations concept_name base_data)
  /\ (forall tag,
         In tag (generate_auto_relations concept_name base_data)
         <-> In tag (inferred_relations concept_name base_data)).
Proof.
  unfold generate_auto_relations. split; [apply sorted_set_sorted|].
  split; [|intros tag; apply sorted_set_in].
  apply sorted_set_in. unfold inferred_relations.
  apply in_or_app. right. now left.
Qed.

Example relations_of_stack :
  generate_auto_relations (lit "stack") stack_node
  = [lit "data_structure"; lit "lifo_structure"; lit "recursion_support"].
Proof. reflexivity. Qed.

Example relations_of_list :
  generate_auto_relations
    (lit "doubly_linked_list") stack_node
  = [lit "data_structure"; lit "dynamic_structure"; lit "linear_structure";
     lit "pointer_based"; lit "sequential_access"].
Proof. reflexivity. Qed.

(* ================================================================== *)
(** * build_knowledge_graph *)
(* ================================================================== *)

Section Builder.

Variable fetch : str -> str.

Lemma build_node_ok (enrich : bool) (k : str) (b node : Fields) :
  build_node fetch enrich k b = Ok node ->
  nonempty node = true
  /\ f_name node = f_name b
  /\ f_category node = f_category b
  /\ f_relations node = Some (generate_auto_relations k b)
  /\ f_use_cases node = Some (generate_use_cases k)
  /\ f_description node
     = Some (if enrich then fetch (get_or (f_name b) [])
             else get_or (f_description b) [])
  /\ In (lit "id") (f_others node).
Proof.
  unfold build_node. intros H.
  assert (Hid : In (lit "id") (set_other (lit "id") (f_others b))).
  { unfold set_other. destruct (existsb _ _) eqn:E.
    - apply existsb_exists in E. destruct E as [x [Hx He]].
      apply str_eqb_eq in He. now subst.
    - apply in_or_app. right. now left. }
  assert (Hne : forall d,
             nonempty
               {| f_name := f_name b; f_type := f_type b;
                  f_category := f_category b;
                  f_basic_ops := f_basic_ops b;
                  f_use_cases := Some (generate_use_cases k);
                  f_relations := Some (generate_auto_relations k b);
                  f_description := Some d;
                  f_others := set_other (lit "id") (f_others b) |} = true).
  { intros d. unfold nonempty. cbn.
    destruct (f_name b), (f_type b), (f_category b), (f_basic_ops b);
      reflexivity. }
  destruct enrich.
  - destruct (f_name b) as [n|] eqn:E; [|discriminate]. cbn in H.
    inversion H; subst. rewrite Hne. cbn. repeat split; auto.
  - cbn in H. inversion H; subst. rewrite Hne. cbn. repeat split; auto.
Qed.

Lemma build_node_outcome (enrich : bool) (k : str) (b : Fields) :
  (enrich = true /\ f_name b = None
   -> build_node fetch enrich k b = Raise KeyError)
  /\ (~ (enrich = true /\ f_name b = None)
      -> exists node, build_node fetch enrich k b = Ok node).
Proof.
  unfold build_node. split.
  - intros [-> ->]. reflexivity.
  - intros H. destruct enrich; [|cbn; eauto].
    destruct (f_name b); [cbn; eauto | tauto].
Qed.

Lemma build_loop_ok (enrich : bool) (items graph g : dict Fields) :
  NoDup (dict_keys graph ++ dict_keys items) ->
  build_loop fetch enrich items graph = Ok g ->
  dict_keys g = dict_keys graph ++ dict_keys items
  /\ (forall k node,
         In (k, node) g ->
         In (k, node) graph
         \/ exists b, In (k, b) items
                      /\ build_node fetch enrich k b = Ok node)
  /\ (forall k b,
         In (k, b) items ->
         exists node, In (k, node) g
                      /\ build_node fetch enrich k b = Ok node)
  /\ (forall kv, In kv graph -> In kv g).
Proof.
  revert graph. induction items as [|[k b] items IH]; intros graph Hnd Hb.
  - cbn in Hb. inversion Hb; subst. rewrite app_nil_r.
    repeat split; auto. intros k b [].
  - cbn [build_loop] in Hb.
    destruct (build_node fetch enrich k b) as [node|] eqn:En;
      [|discriminate].
    cbn [bind] in Hb. simpl in Hnd.
    pose proof (NoDup_remove_2 _ _ _ Hnd) as Hk.
    assert (Hfresh : dict_set graph k node = graph ++ [(k, node)]).
    { apply dict_set_fresh. intros G. apply Hk, in_or_app. now left. }
    rewrite Hfresh in Hb. apply IH in Hb.
    2:{ rewrite dict_keys_app. simpl. now rewrite <- app_assoc. }
    destruct Hb as [H1 [H2 [H3 H4]]]. split; [|split; [|split]].
    + rewrite H1, dict_keys_app. simpl. now rewrite <- app_assoc.
    + intros k' node' Hin. destruct (H2 k' node' Hin) as [H | [b' [Hb' Hn']]].
      * apply in_app_or in H. destruct H as [H | [H | []]]; [now left|].
        inversion H; subst. right. exists b. split; [now left | exact En].
      * right. exists b'. split; [now right | exact Hn'].
    + intros k' b' [H | H].
      * inversion H; subst. exists node. split; [|exact En].
        apply H4. apply in_or_app. right. now left.
      * now apply H3.
    + intros kv Hin. apply H4. apply in_or_app. now left.
Qed.

Lemma build_loop_runs (enrich : bool) (items graph : dict Fields) :
  (forall k b, In (k, b) items -> ~ (enrich = true /\ f_name b = None)) ->
  exists g, build_loop fetch enrich items graph = Ok g.
Proof.
  revert graph. induction items as [|[k b] items IH]; intros graph H.
  - now exists graph.
  - cbn [build_loop].
    destruct (proj2 (build_node_outcome enrich k b)) as [node Hn].
    + apply (H k b). now left.
    + rewrite Hn. cbn [bind]. apply IH. intros k' b' Hin.
      apply (H k' b'). now right.
Qed.

Lemma build_loop_fails (enrich : bool) (items graph : dict Fields) :
  enrich = true ->
  (exists k b, In (k, b) items /\ f_name b = None) ->
  build_loop fetch enrich items graph = Raise KeyError.
Proof.
  intros -> . revert graph. induction items as [|[k b] items IH];
    intros graph [k' [b' [Hin Hn]]]; [contradiction|].
  cbn [build_loop]. destruct (f_name b) as [n|] eqn:E.
  - unfold build_node at 1. rewrite E. cbn [bind]. apply IH.
    destruct Hin as [H | H]; [inversion H; subst; congruence|].
    now exists k', b'.
  - unfold build_node at 1. rewrite E. reflexivity.
Qed.

End Builder.

(** X17.  Over base concepts with unique keys, [build_knowledge_graph]
    without enrichment never fails, and with enrichment fails, with
    [KeyError], exactly when a base record has no name.  The graph it
    returns has the keys of the base concepts in their order, and every
    node of it is a non-empty record with the name and category of its
    base record, the inferred relations and use cases of its key, a
    description and an [id]. *)
Theorem build_knowledge_graph_nodes
        (fetch : str -> str) (base : dict Fields) (enrich : bool) :
  NoDup (dict_keys base) ->
  ((enrich = true /\ exists k b, In (k, b) base /\ f_name b = None) ->
   build_knowledge_graph fetch base enrich = Raise KeyError)
  /\ (~ (enrich = true /\ exists k b, In (k, b) base /\ f_name b = None) ->
      exists g,
        build_knowledge_graph fetch base enrich = Ok g
        /\ dict_keys g = dict_keys base
        /\ forall k node,
            In (k, node) g ->
            exists b,
              In (k, b) base
              /\ nonempty node = true
              /\ f_name node = f_name b
              /\ f_category node = f_category b
              /\ f_relations node = Some (generate_auto_relations k b)
              /\ f_use_cases node = Some (generate_use_cases k)
              /\ f_description node
                 = Some (if enrich then fetch (get_or (f_name b) [])
                         else get_or (f_description b) [])
              /\ In (lit "id") (f_others node)).
Proof.
  intros Hnd. unfold build_knowledge_graph. split.
  - intros [He Hx]. now apply build_loop_fails.
  - intros Hn.
    destruct (build_loop_runs fetch enrich base []) as [g Hg].
    { intros k b Hin [He Hb]. apply Hn. split; [exact He|]. now exists k, b. }
    exists g. split; [exact Hg|].
    destruct (build_loop_ok fetch enrich base [] g Hnd Hg) as [H1 [H2 _]].
    split; [exact H1|]. intros k node Hin.
    destruct (H2 k node Hin) as [[] | [b [Hb Hnode]]].
    exists b. split; [exact Hb|]. now apply build_node_ok.
Qed.

Lemma build_knowledge_graph_nodes_witness :
  exists g,
    build_knowledge_graph no_fetch base_catalogue false = Ok g
    /\ dict_keys g = dict_keys base_catalogue
    /\ forall k node,
        In (k, node) g ->
        exists b,
          In (k, b) base_catalogue
          /\ nonempty node = true
          /\ f_name node = f_name b
          /\ f_category node = f_category b
          /\ f_relations node = Some (generate_auto_relations k b)
          /\ f_use_cases node = Some (generate_use_cases k)
          /\ f_description node = Some (get_or (f_description b) [])
          /\ In (lit "id") (f_others node).
Proof.
  apply (proj2 (build_knowledge_graph_nodes no_fetch base_catalogue false
                  ltac:(vm_compute; repeat constructor; simpl;
                        intuition discriminate))).
  intros [H _]. discriminate.
Defined.

(* ================================================================== *)
(** * Searching a built graph *)
(* ================================================================== *)

Section LoadBuilt.

Lemma content_app (d1 d2 : dict Obj) :
  content (d1 ++ d2) = content d1 ++ content d2.
Proof. apply map_app. Qed.

(** Loading a file with unique keys keeps its pairs as they are. *)
Lemma load_pairs_unique (doc : document) (d : dict Obj) (n : nat) :
  NoDup (dict_keys d ++ dict_keys doc) ->
  content (fst (load_pairs doc d n)) = content d ++ doc.
Proof.
  revert d n. induction doc as [|[k f] doc IH]; intros d n Hnd.
  - simpl. now rewrite app_nil_r.
  - cbn [load_pairs]. simpl in Hnd.
    pose proof (NoDup_remove_2 _ _ _ Hnd) as Hk.
    rewrite dict_set_fresh by (intros G; apply Hk, in_or_app; now left).
    rewrite IH.
    + rewrite content_app. simpl. now rewrite <- app_assoc.
    + rewrite dict_keys_app. simpl. now rewrite <- app_assoc.
Qed.

Lemma init_content (doc : document) (next next' : nat)
      (self : KnowledgeGraphSearch) :
  NoDup (dict_keys doc) ->
  SearchEngine.init (Some doc) next = Ok (self, next') ->
  content (graph self) = doc.
Proof.
  intros Hnd Hinit. unfold SearchEngine.init, json_load in Hinit.
  pose proof (load_pairs_unique doc [] next Hnd) as H.
  destruct (load_pairs doc [] next) as [g n]. inversion Hinit; subst.
  exact H.
Qed.

Lemma content_in (d : dict Obj) (k : str) (f : Fields) :
  In (k, f) (content d) <-> exists o, In (k, o) d /\ fields o = f.
Proof.
  unfold content. rewrite in_map_iff. split.
  - intros [[k' o] [H Hin]]. inversion H; subst. now exists o.
  - intros [o [Hin <-]]. now exists (k, o).
Qed.

End LoadBuilt.

(** X18.  A graph that [build_knowledge_graph] returned, loaded into the
    search engine, gives every concept back: [relation_search] on the
    category of a base concept ([data_structure] when it has none), in
    any letter case, returns the concept, and [exact_search] on a key
    that is in normal form returns its node. *)
Theorem built_graph_is_searchable
        (fetch : str -> str) (base : dict Fields) (enrich : bool)
        (g : document) (next next' : nat) (self : KnowledgeGraphSearch) :
  NoDup (dict_keys base) ->
  build_knowledge_graph fetch base enrich = Ok g ->
  SearchEngine.init (Some g) next = Ok (self, next') ->
  forall k b,
    In (k, b) base ->
    (forall tag,
        lower tag = lower (get_or (f_category b) (lit "data_structure")) ->
        exists hit, In (k, hit) (relation_search self tag))
    /\ (normalize_key k = k ->
        exists o, exact_search self k = Some o /\ In (k, fields o) g).
Proof.
  intros Hnd Hb Hinit k b Hin.
  destruct (build_loop_ok fetch enrich base [] g Hnd Hb) as [Hk [_ [H3 _]]].
  simpl in Hk. assert (Hg : NoDup (dict_keys g)) by now rewrite Hk.
  pose proof (init_content g next next' self Hg Hinit) as Hc.
  destruct (init_loaded _ _ _ _ Hinit) as [Hl _].
  destruct (H3 k b Hin) as [node [Hnode Hbn]].
  rewrite <- Hc in Hnode. apply content_in in Hnode.
  destruct Hnode as [o [Ho Hf]]. split.
  - intros tag Ht. rewrite (relation_search_hits self tag Hl).
    eexists. apply hits_in. exists o. split; [exact Ho|].
    unfold relation_test. cbn [snd fst].
    destruct (build_node_ok fetch enrich k b node Hbn)
      as [_ [_ [_ [Hr _]]]].
    rewrite Hf, Hr. cbn [get_or].
    destruct (existsb _ _) eqn:E; [reflexivity|]. exfalso.
    assert (Hx : existsb (str_eqb (lower tag))
                         (map lower (generate_auto_relations k b)) = true).
    { apply existsb_exists. exists (lower tag). split; [|apply str_eqb_refl].
      rewrite Ht. apply in_map.
      unfold generate_auto_relations. apply sorted_set_in.
      unfold inferred_relations. apply in_or_app. right. now left. }
    congruence.
  - intros Hn. exists o. unfold exact_search. rewrite Hn. split.
    + apply in_dict_get; [apply Hl | exact Ho].
    + rewrite <- Hc. apply content_in. now exists o.
Qed.

Lemma built_graph_is_searchable_witness :
  exists g self n,
    build_knowledge_graph no_fetch base_catalogue false = Ok g
    /\ SearchEngine.init (Some g) 0 = Ok (self, n)
    /\ (exists hit,
           In (lit "stack", hit) (relation_search self (lit "Data_Structure")))
    /\ (exists o, exact_search self (lit "stack") = Some o
                  /\ In (lit "stack", fields o) g).
Proof.
  eexists. eexists. eexists.
  split; [vm_compute; reflexivity|].
  split; [vm_compute; reflexivity|].
  refine (let H := built_graph_is_searchable
                     no_fetch base_catalogue false _ 0%nat _ _
                     ltac:(vm_compute; repeat constructor; simpl;
                           intuition discriminate)
                     eq_refl eq_refl (lit "stack") (base_of stack_node)
                     ltac:(vm_compute; tauto) in _).
  destruct H as [H1 H2]. split.
  - apply H1. reflexivity.
  - apply H2. reflexivity.
Defined.

(* ================================================================== *)
(** * The tutor on a built graph *)
(* ================================================================== *)

(** X19.  A tutor made on a graph that [build_knowledge_graph] returned
    answers every non-blank name whose normal form is the key of a base
    concept from the exact strategy: the source is [exact], the record
    is the node built for that concept, the query is the stripped name
    and, as the record is the engine's own, no key is reported. *)
Theorem built_graph_exact_answer
        (fill : str -> Z -> str) (fetch : str -> str)
        (base : dict Fields) (enrich : bool) (g : document)
        (next next' : nat) (self : DsaTutorEngine) (name : str) (b : Fields) :
  NoDup (dict_keys base) ->
  build_knowledge_graph fetch base enrich = Ok g ->
  Tutor.init (Some g) next = Ok (self, next') ->
  blank name = false ->
  In (normalize_key name, b) base ->
  exists ans c,
    explain_concept fill self name = Ok ans
    /\ match_source ans = exact_source
    /\ matched_key ans = None
    /\ concept ans = Some c
    /\ Tutor.query ans = strip name
    /\ build_node fetch enrich (normalize_key name) b = Ok (fields c).
Proof.
  intros Hnd Hb Hinit Hblank Hin.
  destruct (build_loop_ok fetch enrich base [] g Hnd Hb) as [Hk [_ [H3 _]]].
  simpl in Hk. assert (Hg : NoDup (dict_keys g)) by now rewrite Hk.
  destruct (tutor_init_inv _ _ _ _ Hinit) as [mid [Hown Hen]].
  pose proof (init_content g mid next' (engine self) Hg Hen) as Hc.
  destruct (init_loaded _ _ _ _ Hen) as [Hl [Hst _]].
  destruct (H3 _ b Hin) as [node [Hnode Hbn]].
  rewrite <- Hc in Hnode. apply content_in in Hnode.
  destruct Hnode as [c [Ho Hf]].
  assert (He : exact_search (engine self) name = Some c).
  { unfold exact_search. apply in_dict_get; [apply Hl | exact Ho]. }
  assert (Hn : nonempty (fields c) = true).
  { rewrite Hf. now destruct (build_node_ok fetch enrich _ b node Hbn). }
  destruct (explain_concept_runs fill self name Hl Hblank)
    as [results [_ [Hx Hr]]].
  rewrite He in Hx.
  destruct (explain_results_exact fill self (strip name) results c Hx Hn)
    as [H1 [H2 [H4 H5]]].
  eexists. exists c. split; [exact Hr|]. split; [exact H1|].
  split; [|split; [exact H2 | split; [exact H5 | now rewrite Hf]]].
  rewrite H4. apply find_matched_key_none. intros k o Hko.
  exact (separate_objects _ _ _ _ _ _ _ _ _ Hown Hst Hko Ho).
Qed.

Lemma built_graph_exact_answer_witness :
  exists g self n,
    build_knowledge_graph no_fetch base_catalogue false = Ok g
    /\ Tutor.init (Some g) 0 = Ok (self, n)
    /\ exists ans c,
        explain_concept no_wrap self (lit " Binary  Search ") = Ok ans
        /\ match_source ans = exact_source
        /\ matched_key ans = None
        /\ concept ans = Some c
        /\ Tutor.query ans = lit "Binary  Search"
        /\ build_node no_fetch false (lit "binary_search")
                      (base_of binary_search_node) = Ok (fields c).
Proof.
  eexists. eexists. eexists.
  split; [vm_compute; reflexivity|].
  split; [vm_compute; reflexivity|].
  exact (built_graph_exact_answer
           no_wrap no_fetch base_catalogue false _ 0%nat _ _
           (lit " Binary  Search ") (base_of binary_search_node)
           ltac:(vm_compute; repeat constructor; simpl; intuition discriminate)
           eq_refl eq_refl eq_refl
           ltac:(vm_compute; tauto)).
Defined.

(* ================================================================== *)
(** * The scraper's addresses *)
(* ================================================================== *)

Section Slug.

Lemma swap_dash_eqb (c d : ascii) :
  char_eqb (swap_dash c) (swap_dash d) = char_eqb c d.
Proof.
  unfold swap_dash, char_eqb.
  destruct (Ascii.eqb_spec c "_"), (Ascii.eqb_spec c "-"),
    (Ascii.eqb_spec d "_"), (Ascii.eqb_spec d "-"); subst;
    try discriminate; try reflexivity;
    repeat match goal with
    | |- context [Ascii.eqb ?a ?b] => destruct (Ascii.eqb_spec a b)
    end; subst; try reflexivity; try congruence.
Qed.

Lemma swap_dash_involutive (c : ascii) : swap_dash (swap_dash c) = c.
Proof.
  unfold swap_dash, char_eqb.
  destruct (Ascii.eqb_spec c "_"); [subst; reflexivity|].
  destruct (Ascii.eqb_spec c "-"); [subst; reflexivity|].
  destruct (Ascii.eqb_spec c "_"); [contradiction|].
  destruct (Ascii.eqb_spec c "-"); [contradiction|]. reflexivity.
Qed.

Lemma swap_dash_lower (c : ascii) :
  lower_char (swap_dash c) = swap_dash (lower_char c).
Proof. destruct c as [[] [] [] [] [] [] [] []]; reflexivity. Qed.

Lemma swap_dash_isspace (c : ascii) : isspace (swap_dash c) = isspace c.
Proof. destruct c as [[] [] [] [] [] [] [] []]; reflexivity. Qed.

Lemma swap_dash_separator (c : ascii) :
  separator_to_underscore (lower_char (swap_dash c))
  = separator_to_underscore (lower_char c).
Proof. destruct c as [[] [] [] [] [] [] [] []]; reflexivity. Qed.

Lemma swap_dash_settled (c : ascii) : settled c -> swap_dash c = hyphenate c.
Proof.
  intros H. destruct (settled_no_separator c H) as [_ [Hh _]].
  unfold swap_dash, hyphenate, char_eqb.
  destruct (Ascii.eqb_spec c "_"); [reflexivity|].
  destruct (Ascii.eqb_spec c "-"); [contradiction | reflexivity].
Qed.

Lemma startswith_swap (t p : str) :
  startswith (map swap_dash t) (map swap_dash p) = startswith t p.
Proof.
  revert t. induction p as [|c p IH]; intros t; [reflexivity|].
  destruct t as [|d t]; [reflexivity|]. simpl.
  now rewrite swap_dash_eqb, IH.
Qed.

Lemma str_in_swap (q t : str) :
  str_in (map swap_dash q) (map swap_dash t) = str_in q t.
Proof.
  induction t as [|d t IH].
  - simpl. now rewrite <- (startswith_swap [] q).
  - cbn [str_in map]. rewrite <- IH.
    now rewrite <- (startswith_swap (d :: t) q).
Qed.

Lemma replace_from_swap (t old new : str) (skip : nat) :
  replace_from (map swap_dash t) (map swap_dash old) (map swap_dash new) skip
  = map swap_dash (replace_from t old new skip).
Proof.
  revert skip. induction t as [|c t IH]; intros skip; [reflexivity|].
  cbn [map replace_from]. destruct skip as [|k]; [|apply IH].
  rewrite <- (startswith_swap (c :: t) old). cbn [map].
  destruct (startswith _ _).
  - rewrite map_app, IH. now rewrite length_map.
  - cbn [map]. now rewrite IH.
Qed.

Lemma replace_swap (t old new : str) :
  replace (map swap_dash t) (map swap_dash old) (map swap_dash new)
  = map swap_dash (replace t old new).
Proof. apply replace_from_swap. Qed.

Lemma collapse_loop_swap (fuel : nat) (t : str) :
  Scraper.hyphen_loop fuel (map swap_dash t)
  = map swap_dash (SearchEngine.collapse_loop fuel t).
Proof.
  revert t. induction fuel as [|f IH]; intros t; [reflexivity|].
  cbn [Scraper.hyphen_loop SearchEngine.collapse_loop].
  rewrite <- (str_in_swap (lit "__") t).
  change (map swap_dash (lit "__")) with (lit "--").
  destruct (str_in (lit "--") (map swap_dash t)); [|reflexivity].
  rewrite <- IH. f_equal.
  exact (replace_swap t (lit "__") (lit "_")).
Qed.

Lemma lstrip_swap (t : str) :
  lstrip (map swap_dash t) = map swap_dash (lstrip t).
Proof.
  induction t as [|c t IH]; [reflexivity|].
  simpl. rewrite swap_dash_isspace. now destruct (isspace c).
Qed.

Lemma strip_swap (t : str) :
  strip (map swap_dash t) = map swap_dash (strip t).
Proof.
  unfold strip, rstrip. rewrite lstrip_swap, <- map_rev, lstrip_swap.
  now rewrite map_rev.
Qed.

Lemma lower_swap (t : str) :
  lower (map swap_dash t) = map swap_dash (lower t).
Proof.
  unfold lower. rewrite !map_map. apply map_ext. apply swap_dash_lower.
Qed.

(** The slug of a name with underscores and hyphens exchanged is the
    key of the name with underscores and hyphens exchanged. *)
Lemma slugify_swap (name : str) :
  _slugify (map swap_dash name) = map swap_dash (normalize_key name).
Proof.
  unfold _slugify, normalize_key.
  rewrite strip_swap, lower_swap. set (t := lower (strip name)).
  cbn [fold_left].
  assert (H1 : forall u, replace (map swap_dash u) (lit " ") (lit "-")
                         = map swap_dash (replace u (lit " ") (lit "_")))
    by (intros u; exact (replace_swap u (lit " ") (lit "_"))).
  assert (H2 : forall u, replace (map swap_dash u) (lit "_") (lit "-")
                         = map swap_dash (replace u (lit "-") (lit "_")))
    by (intros u; exact (replace_swap u (lit "-") (lit "_"))).
  assert (H3 : forall u, replace (map swap_dash u) (lit "/") (lit "-")
                         = map swap_dash (replace u (lit "/") (lit "_")))
    by (intros u; exact (replace_swap u (lit "/") (lit "_"))).
  rewrite H1, H2, H3, length_map. apply collapse_loop_swap.
Qed.

Lemma normalize_key_swap (name : str) :
  normalize_key (map swap_dash name) = normalize_key name.
Proof.
  rewrite !normalize_key_spec. unfold normalize_spec.
  rewrite strip_swap. unfold lower. rewrite !map_map. f_equal.
  apply map_ext. apply swap_dash_separator.
Qed.

Lemma slugify_key (name : str) :
  _slugify name = map hyphenate (normalize_key name).
Proof.
  rewrite <- (map_id name) at 1.
  rewrite <- (map_ext _ _ swap_dash_involutive), <- map_map.
  rewrite slugify_swap, normalize_key_swap.
  pose proof (normalize_key_settled name) as Hs.
  induction Hs as [|c l Hc _ IH]; [reflexivity|].
  cbn [map]. now rewrite IH, swap_dash_settled.
Qed.

Lemma hyphenate_settled (c : ascii) :
  settled c ->
  hyphenate c <> " "%char /\ hyphenate c <> "_"%char
  /\ hyphenate c <> "/"%char
  /\ lower_char (hyphenate c) = hyphenate c.
Proof.
  destruct c as [[] [] [] [] [] [] [] []]; unfold settled; vm_compute;
    intros H; try discriminate H; repeat split; discriminate.
Qed.

Lemma slugify_swapped (name : str) :
  _slugify name = map swap_dash (normalize_key name).
Proof.
  rewrite <- (map_id name) at 1.
  rewrite <- (map_ext _ _ swap_dash_involutive), <- map_map.
  now rewrite slugify_swap, normalize_key_swap.
Qed.

Lemma slugify_chars (name : str) (c : ascii) :
  In c (_slugify name) ->
  c <> " "%char /\ c <> "_"%char /\ c <> "/"%char /\ lower_char c = c.
Proof.
  intros Hc. rewrite slugify_key in Hc. apply in_map_iff in Hc.
  destruct Hc as [x [<- Hx]]. apply hyphenate_settled.
  pose proof (normalize_key_settled name) as Hs.
  rewrite Forall_forall in Hs. now apply Hs.
Qed.

Lemma slugify_same (name other : str) :
  _slugify name = _slugify other
  <-> normalize_key name = normalize_key other.
Proof.
  rewrite !slugify_swapped. split; [|now intros ->].
  intros H. apply (f_equal (map swap_dash)) in H.
  rewrite !map_map in H.
  rewrite !(map_ext _ _ swap_dash_involutive), !map_id in H. exact H.
Qed.

End Slug.

(** X20.  The slug that the scraper puts into an address is the store
    key of the same name with hyphens for underscores.  So it is in
    lower case, holds no space, underscore or slash, and holds no two
    hyphens in a row; and two names have the same slug exactly when
    they have the same key. *)
Theorem slugify_is_hyphenated_key (name : str) :
  _slugify name = map hyphenate (normalize_key name)
  /\ (forall c, In c (_slugify name) ->
                c <> " "%char /\ c <> "_"%char /\ c <> "/"%char
                /\ lower_char c = c)
  /\ str_in (lit "--") (_slugify name) = false
  /\ (forall other,
         _slugify name = _slugify other
         <-> normalize_key name = normalize_key other).
Proof.
  split; [apply slugify_key|]. split; [apply slugify_chars|].
  split; [|apply slugify_same].
  rewrite slugify_swapped. change (lit "--") with (map swap_dash (lit "__")).
  rewrite str_in_swap, normalize_key_spec. apply squeeze_no_double.
Qed.

(** X21.  The addresses that the scraper tries for a concept are six
    different ones, none of which holds a space, an underscore or a
    capital letter, and they depend on the name through its key only. *)
Theorem candidate_urls_well_formed (concept_name : str) :
  List.length (_candidate_urls concept_name) = 6%nat
  /\ NoDup (_candidate_urls concept_name)
  /\ (forall url c,
         In url (_candidate_urls concept_name) -> In c url ->
         c <> " "%char /\ c <> "_"%char /\ lower_char c = c)
  /\ (forall other,
         normalize_key concept_name = normalize_key other ->
         _candidate_urls concept_name = _candidate_urls other).
Proof.
  split; [reflexivity|]. split; [|split].
  - unfold _candidate_urls. cbv zeta.
    set (site := lit "https://www.geeksforgeeks.org/").
    set (slug := _slugify concept_name).
    assert (Hd : forall x y l, x <> y -> ~ In (site ++ slug ++ x) l ->
                 ~ In (site ++ slug ++ x) ((site ++ slug ++ y) :: l)).
    { intros x y l Hxy Hl [H | H]; [|now apply Hl].
      apply app_inv_head in H. apply app_inv_head in H. congruence. }
    repeat (constructor; [repeat (apply Hd; [discriminate|]); simpl; tauto|]).
    constructor.
  - intros url c Hu Hc.
    assert (Hparts : exists suffix,
               url = lit "https://www.geeksforgeeks.org/"
                     ++ _slugify concept_name ++ suffix
               /\ In suffix [lit "-data-structure/"; lit "-in-data-structure/";
                             lit "-algorithm/"; lit "/"; lit "-in-c/";
                             lit "-in-cpp/"]).
    { unfold _candidate_urls in Hu. cbv zeta in Hu. simpl In in Hu.
      destruct Hu as [H|[H|[H|[H|[H|[H|[]]]]]]]; subst url;
        eexists; (split; [reflexivity|]); simpl; tauto. }
    destruct Hparts as [suffix [-> Hs]].
    apply in_app_or in Hc. destruct Hc as [Hc | Hc].
    { revert c Hc. apply Forall_forall.
      repeat (constructor; [repeat split; discriminate|]). constructor. }
    apply in_app_or in Hc. destruct Hc as [Hc | Hc].
    { destruct (slugify_chars _ _ Hc) as [H1 [H2 [_ H4]]]. auto. }
    revert c Hc. apply Forall_forall.
    simpl in Hs.
    destruct Hs as [H|[H|[H|[H|[H|[H|[]]]]]]]; subst suffix;
      repeat (constructor; [repeat split; discriminate|]); constructor.
  - intros other H. unfold _candidate_urls.
    now rewrite (proj2 (slugify_same concept_name other) H).
Qed.
